(** * libMesh: DOF indexing, element topology, reference elements and
      error estimators -- a shallow embedding and its verified properties.

    The development follows the sources file by file:

    - [DofObject]      the packed index buffer of a [DofObject] with its
                       extra-integer side channel (exercised by
                       tests/base/dof_object_test.h);
    - [Pyramid]        src/geom/cell_pyramid.C ([key], [low_order_key] and the
                       static side tables);
    - [ReferenceElem]  src/geom/reference_elem.C (the lazily built singleton
                       table and [get]);
    - [JumpErrorEstimator]
                       src/error_estimation/jump_error_estimator.C
                       ([estimate_error], [coarse_n_flux_faces_increment]);
    - [AdjointRefinementEstimator]
                       src/error_estimation/adjoint_refinement_estimator.C
                       ([estimate_error]).

    Numbers of type [Real], [Number] and [ErrorVectorReal] are modelled by the
    real numbers of the Standard Library; rounding is not modelled.  Pointers
    to elements and nodes are modelled by their ids: a mesh gives every field
    of an element as a function of its id. *)

From Stdlib Require Import ZArith List Lia Bool Reals Lra Permutation Sorted.
From Stdlib.Strings Require Import Byte.
From stdpp Require Import base list sorting gmap strings pretty.

(* ===================================================================== *)
(** * DofObject *)
(* ===================================================================== *)

Module DofObject.
Local Open Scope Z_scope.

(** Modelled from the spec: class [DofObject] (include/base/dof_object.h and
    src/base/dof_object.C are not among the sources; only the unit test
    tests/base/dof_object_test.h is).  The spec describes a compact per
    (system, variable group) table and a flat array of extra integers kept in
    one packed buffer.  The layout below is the one the regression buffers of
    the unit test are written in:

    - [_idx_buf[0]] is the header word [hdr]: the number of systems [ns] when
      there are no extra integers, and [-(ns+1)] (as a [dof_id_type]) when
      there are;
    - [_idx_buf[s]], [0 < s < ns], is the position where the variable groups
      of system [s] start (system 0 starts right after the header), and with
      extra integers [_idx_buf[ns]] is the position where they start;
    - every variable group takes two words: [ncv_magic * n_vars + n_comp] and
      the DOF index of its first component ([vg_dof_base]);
    - the extra integers are the tail of the buffer. *)

(** [sizeof(dof_id_type)]: libMesh's default configuration. *)
Definition dof_id_bytes : Z := 4.
Definition dof_id_modulus : Z := 2 ^ (8 * dof_id_bytes).

(** [static_cast<dof_id_type>(z)]: unsigned wrap-around. *)
Definition to_dof_id (z : Z) : Z := z mod dof_id_modulus.

(** [dof_id_signed_type(x)]: the two's complement reading of a word. *)
Definition dof_id_signed_type (x : Z) : Z :=
  if x <? dof_id_modulus / 2 then x else x - dof_id_modulus.

(** [DofObject::invalid_id = static_cast<dof_id_type>(-1)]. *)
Definition invalid_id : Z := dof_id_modulus - 1.

Definition ncv_magic : Z := 256.
Definition ncv_magic_exp : Z := 8.

Record DofObject := mkDofObject {
  id_ : Z;                 (* _id *)
  processor_id_ : Z;       (* _processor_id *)
  idx_buf : list Z         (* _idx_buf *)
}.

Definition with_buf (d : DofObject) (b : list Z) : DofObject :=
  {| id_ := id_ d; processor_id_ := processor_id_ d; idx_buf := b |}.

(** [_idx_buf[i]] (reads outside the vector are given the value 0). *)
Definition at_ (d : DofObject) (i : Z) : Z := nth (Z.to_nat i) (idx_buf d) 0.

Definition size (d : DofObject) : Z := Z.of_nat (length (idx_buf d)).

(** The signed header word, 0 for an empty buffer. *)
Definition hdr (d : DofObject) : Z :=
  match idx_buf d with
  | [] => 0
  | h :: _ => dof_id_signed_type h
  end.

Definition n_systems (d : DofObject) : Z :=
  if 0 <=? hdr d then hdr d else - hdr d - 1.

Definition n_pseudo_systems (d : DofObject) : Z := Z.abs (hdr d).

Definition has_extra_integers (d : DofObject) : bool := hdr d <? 0.

Definition start_idx (d : DofObject) (s : Z) : Z :=
  Z.abs (dof_id_signed_type (at_ d s)).

Definition end_idx (d : DofObject) (s : Z) : Z :=
  if s + 1 =? n_pseudo_systems d then size d else at_ d (s + 1).

Definition start_idx_ints (d : DofObject) : Z :=
  if n_systems d =? 0 then n_systems d + 1 else at_ d (n_systems d).

Definition end_idx_ints (d : DofObject) : Z := size d.

Definition n_extra_integers (d : DofObject) : Z :=
  if has_extra_integers d then size d - start_idx_ints d else 0.

Definition n_var_groups (d : DofObject) (s : Z) : Z :=
  (end_idx d s - start_idx d s) / 2.

(** [n_vars(s, vg)]: the variables of one group. *)
Definition n_vars_group (d : DofObject) (s vg : Z) : Z :=
  Z.shiftr (at_ d (start_idx d s + 2 * vg)) ncv_magic_exp.

(** [n_vars(s)]: the sum over the groups of system [s]. *)
Definition n_vars (d : DofObject) (s : Z) : Z :=
  fold_left (fun val vg => val + n_vars_group d s (Z.of_nat vg))
            (seq 0 (Z.to_nat (n_var_groups d s))) 0.

Definition n_comp_group (d : DofObject) (s vg : Z) : Z :=
  at_ d (start_idx d s + 2 * vg) mod ncv_magic.

Definition vg_dof_base (d : DofObject) (s vg : Z) : Z :=
  at_ d (start_idx d s + 2 * vg + 1).

(** [var_to_vg_and_offset]: walk the groups until the one holding [var];
    [None] when the groups run out (the loop's assertion). *)
Fixpoint var_to_vg_and_offset_from (d : DofObject) (s var : Z)
         (groups : nat) (vg vg_start : Z) : option (Z * Z) :=
  match groups with
  | O => None
  | S groups' =>
      let vg_end := vg_start + n_vars_group d s vg in
      if var <? vg_end then Some (vg, var - vg_start)
      else var_to_vg_and_offset_from d s var groups' (vg + 1) vg_end
  end.

Definition var_to_vg_and_offset (d : DofObject) (s var : Z) : option (Z * Z) :=
  var_to_vg_and_offset_from d s var (Z.to_nat (n_var_groups d s)) 0 0.

Definition n_comp (d : DofObject) (s var : Z) : Z :=
  match var_to_vg_and_offset d s var with
  | Some (vg, _) => n_comp_group d s vg
  | None => 0
  end.

(** [dof_number(s, vg, vig, comp, n_comp)]. *)
Definition dof_number_vg (d : DofObject) (s vg vig comp n_comp : Z) : Z :=
  let base_idx := vg_dof_base d s vg in
  if base_idx =? invalid_id then invalid_id
  else to_dof_id (base_idx + vig * n_comp + comp).

(** [dof_number(s, var, comp)]; [None] is a failed range assertion. *)
Definition dof_number (d : DofObject) (s var comp : Z) : option Z :=
  if (0 <=? s) && (s <? n_systems d)
     && (0 <=? var) && (var <? n_vars d s)
     && (0 <=? comp) && (comp <? n_comp d s var)
  then
    match var_to_vg_and_offset d s var with
    | Some (vg, vig) =>
        Some (dof_number_vg d s vg vig comp (n_comp_group d s vg))
    | None => None
    end
  else None.

(** [set_buffer]: adopt a packed buffer as it is. *)
Definition set_buffer (d : DofObject) (buf : list Z) : DofObject :=
  with_buf d buf.

(** ** Mutators *)

(** Apply [f] to the words at positions [lo <= i < hi]. *)
Definition map_range (lo hi : nat) (f : Z -> Z) (l : list Z) : list Z :=
  firstn lo l ++ map f (firstn (hi - lo) (skipn lo l)) ++ skipn hi l.

(** [_idx_buf[i] = v]. *)
Definition store (i : Z) (v : Z) (l : list Z) : list Z :=
  <[Z.to_nat i := v]> l.

(** [set_n_systems(ns)]: a fresh header for [ns] systems without variable
    groups, followed by the extra integers, which are copied over. *)
Definition set_n_systems (ns : Z) (d : DofObject) : DofObject :=
  let old_ns := n_systems d in
  if ns =? old_ns then d
  else
    let nei := n_extra_integers d in
    if nei =? 0 then with_buf d (replicate (Z.to_nat ns) ns)
    else
      let header_size := ns + 1 in
      let start_idx_ints := if old_ns =? 0 then 1 else at_ d old_ns in
      with_buf d
        (to_dof_id (- header_size)
           :: replicate (Z.to_nat ns) (ns + 1)
           ++ skipn (Z.to_nat start_idx_ints) (idx_buf d)).

(** [add_system()]: one more header word, every start position moves by one. *)
Definition add_system (d : DofObject) : DofObject :=
  if n_systems d =? 0 then set_n_systems 1 d
  else
    let ns_orig := Z.to_nat (n_systems d) in
    let buf := idx_buf d in
    if has_extra_integers d then
      let inserted :=
        firstn ns_orig buf ++ nth ns_orig buf 0 :: skipn ns_orig buf in
      with_buf d
        (map_range 1 (ns_orig + 2) (fun x => to_dof_id (x + 1))
           (map_range 0 1 (fun x => to_dof_id (x - 1)) inserted))
    else
      let inserted :=
        firstn ns_orig buf ++ size d :: skipn ns_orig buf in
      with_buf d
        (map_range 0 (ns_orig + 1) (fun x => to_dof_id (x + 1)) inserted).

(** [add_extra_integers(n_integers)]. *)
Definition add_extra_integers (n_integers : Z) (d : DofObject) : DofObject :=
  let buf := idx_buf d in
  match buf with
  | [] =>
      if n_integers =? 0 then d
      else with_buf d
             (to_dof_id (-1) :: replicate (Z.to_nat n_integers) invalid_id)
  | _ :: _ =>
      let h := hdr d in
      if h <? 0 then
        (* resize(size + n_integers - old_n_integers, invalid_id) *)
        let new_size := Z.to_nat (size d + n_integers - n_extra_integers d) in
        with_buf d
          (firstn new_size buf ++ replicate (new_size - length buf) invalid_id)
      else if n_integers =? 0 then d
      else
        (* mark the header, insert the start position of the integers,
           shift the system start positions, append the new slots *)
        let marked := store 0 (to_dof_id (- h - 1)) buf in
        let inserted :=
          firstn (Z.to_nat h) marked ++ (size d + 1) :: skipn (Z.to_nat h) marked in
        with_buf d
          (map_range 1 (Z.to_nat h) (fun x => to_dof_id (x + 1)) inserted
             ++ replicate (Z.to_nat n_integers) invalid_id)
  end.

(** [get_extra_integer(index)]; [None] is the failed range assertion. *)
Definition get_extra_integer (d : DofObject) (index : Z) : option Z :=
  if (0 <=? index) && (index <? n_extra_integers d)
  then Some (at_ d (start_idx_ints d + index))
  else None.

(** [set_extra_integer(index, value)]. *)
Definition set_extra_integer (index value : Z) (d : DofObject) : option DofObject :=
  if (0 <=? index) && (index <? n_extra_integers d)
  then Some (with_buf d (store (start_idx_ints d + index) value (idx_buf d)))
  else None.

(** [set_n_comp_group(s, vg, ncomp)]: keeps the number of variables of the
    group and invalidates its DOF base. *)
Definition set_n_comp_group (s vg ncomp : Z) (d : DofObject) : option DofObject :=
  if (0 <=? s) && (s <? n_systems d) && (0 <=? vg) && (vg <? n_var_groups d s)
  then
    if ncomp =? n_comp_group d s vg then Some d
    else if ncv_magic <=? ncomp then None
    else
      let base_offset := start_idx d s + 2 * vg in
      let n_vars_group := n_vars_group d s vg in
      Some (with_buf d
              (store (base_offset + 1)
                     (if ncomp =? 0 then invalid_id - 1 else invalid_id)
                 (store base_offset (ncv_magic * n_vars_group + ncomp)
                    (idx_buf d))))
  else None.

(** [set_vg_dof_base(s, vg, db)]. *)
Definition set_vg_dof_base (s vg db : Z) (d : DofObject) : option DofObject :=
  if (0 <=? s) && (s <? n_systems d) && (0 <=? vg) && (vg <? n_var_groups d s)
  then Some (with_buf d (store (start_idx d s + 2 * vg + 1) db (idx_buf d)))
  else None.

(** The two words of each new variable group: no components, no DOFs. *)
Definition var_idxs (nvpg : list Z) : list Z :=
  flat_map (fun nv => [ncv_magic * nv + 0; invalid_id - 1]) nvpg.

(** [set_n_vars_per_group(s, nvpg)]. *)
Definition set_n_vars_per_group (s : Z) (nvpg : list Z) (d : DofObject)
  : option DofObject :=
  let n_sys := n_systems d in
  if (0 <=? s) && (s <? n_sys) then
    let nvg := Z.of_nat (length nvpg) in
    if nvg =? n_var_groups d s then
      (* same number of groups: only the component counts are reset *)
      fold_left
        (fun acc vg =>
           match acc with
           | Some d' => set_n_comp_group s (Z.of_nat vg) 0 d'
           | None => None
           end)
        (seq 0 (length nvpg)) (Some d)
    else
      let buf := idx_buf d in
      let first := Z.to_nat (start_idx d s) in
      let last := Z.to_nat (end_idx d s) in
      let old_len := Z.of_nat (last - first) in
      (* erase the old groups, insert the new ones in their place, and move
         the start positions of everything behind system [s] *)
      let shifted :=
        map_range (Z.to_nat (s + 1)) (Z.to_nat (n_pseudo_systems d))
                  (fun x => to_dof_id (x - old_len + 2 * nvg)) buf in
      Some (with_buf d (firstn first shifted ++ var_idxs nvpg ++ skipn last shifted))
  else None.

(** ** Type-punned access to the extra integers

    [set_extra_datum<T>] and [get_extra_datum<T>] copy the [sizeof(T)] bytes
    of a value into and out of the slots with [std::memcpy].  A value is
    modelled by its object representation, the list of its bytes; a slot is
    laid out in [dof_id_bytes] bytes, least significant first. *)

Definition slot_bytes : nat := Z.to_nat dof_id_bytes.

Definition byte_of_Z (z : Z) : byte :=
  match Byte.of_N (Z.to_N (z mod 256)) with
  | Some b => b
  | None => Byte.x00
  end.

(** The [n] low bytes of a word. *)
Fixpoint bytes_of_word (n : nat) (w : Z) : list byte :=
  match n with
  | O => []
  | S n' => byte_of_Z w :: bytes_of_word n' (w / 256)
  end.

Definition word_of_bytes (bs : list byte) : Z :=
  fold_right (fun b acc => Z.of_N (Byte.to_N b) + 256 * acc) 0 bs.

Definition bytes_of_slots (l : list Z) : list byte :=
  flat_map (bytes_of_word slot_bytes) l.

(** [k] slots read off a run of bytes. *)
Fixpoint slots_of_bytes (k : nat) (bs : list byte) : list Z :=
  match k with
  | O => []
  | S k' => word_of_bytes (firstn slot_bytes bs)
              :: slots_of_bytes k' (skipn slot_bytes bs)
  end.

(** The slots a value of [n] bytes occupies: [ceil(n / sizeof(dof_id_type))]. *)
Definition slots_for (n : nat) : nat := (n + slot_bytes - 1) / slot_bytes.

(** [std::memcpy(&buf[pos], &value, sizeof(T))]: the bytes of [value] replace
    the first bytes of the slots from [pos] on; the remaining bytes of the
    last slot touched stay. *)
Definition memcpy_to (pos : nat) (value : list byte) (buf : list Z) : list Z :=
  let k := slots_for (length value) in
  let old := bytes_of_slots (firstn k (skipn pos buf)) in
  firstn pos buf
    ++ slots_of_bytes k (value ++ skipn (length value) old)
    ++ skipn (pos + k) buf.

(** [std::memcpy(&returnval, &buf[pos], n)]. *)
Definition memcpy_from (pos n : nat) (buf : list Z) : list byte :=
  firstn n (bytes_of_slots (firstn (slots_for n) (skipn pos buf))).

(** [(sizeof(T)-1)/sizeof(dof_id_type)], the slots needed beyond the first. *)
Definition n_more_integers (sizeof_T : nat) : Z :=
  Z.of_nat ((sizeof_T - 1) / slot_bytes).

(** [set_extra_datum<T>(index, value)]; [None] is the failed range assertion. *)
Definition set_extra_datum (index : Z) (value : list byte) (d : DofObject)
  : option DofObject :=
  if (0 <=? index)
     && (index + n_more_integers (length value) <? n_extra_integers d)
  then Some (with_buf d
               (memcpy_to (Z.to_nat (start_idx_ints d + index)) value (idx_buf d)))
  else None.

(** [get_extra_datum<T>(index)] for a type of [sizeof_T] bytes. *)
Definition get_extra_datum (sizeof_T : nat) (index : Z) (d : DofObject)
  : option (list byte) :=
  if (0 <=? index)
     && (index + n_more_integers sizeof_T <? n_extra_integers d)
  then Some (memcpy_from (Z.to_nat (start_idx_ints d + index)) sizeof_T (idx_buf d))
  else None.

(** ** The layout invariant and the extra integers as a list *)

Lemma modulus_val : dof_id_modulus = 4294967296.
Proof. reflexivity. Qed.

Lemma signed_small x : 0 <= x < 2147483648 -> dof_id_signed_type x = x.
Proof.
  intros Hx. unfold dof_id_signed_type. rewrite modulus_val.
  change (4294967296 / 2) with 2147483648.
  destruct (Z.ltb_spec x 2147483648); lia.
Qed.

Lemma to_dof_id_small x : 0 <= x < 4294967296 -> to_dof_id x = x.
Proof. intros Hx. unfold to_dof_id. rewrite modulus_val. apply Z.mod_small. lia. Qed.

Lemma to_dof_id_neg n : 0 < n <= 4294967296 -> to_dof_id (- n) = 4294967296 - n.
Proof.
  intros Hn. unfold to_dof_id. rewrite modulus_val.
  symmetry. apply (Z.mod_unique _ _ (-1)); lia.
Qed.

Lemma signed_neg n : 0 < n <= 2147483648 -> dof_id_signed_type (to_dof_id (- n)) = - n.
Proof.
  intros Hn. rewrite to_dof_id_neg by lia.
  unfold dof_id_signed_type. rewrite modulus_val.
  change (4294967296 / 2) with 2147483648.
  destruct (Z.ltb_spec (4294967296 - n) 2147483648); lia.
Qed.

Lemma map_range_app (a b c : list Z) f lo hi :
  lo = length a -> hi = (length a + length b)%nat ->
  map_range lo hi f (a ++ b ++ c) = a ++ map f b ++ c.
Proof.
  intros -> ->. unfold map_range.
  rewrite take_app_length.
  rewrite drop_app_length.
  replace (length a + length b - length a)%nat with (length b) by lia.
  rewrite take_app_length.
  replace (skipn (length a + length b) (a ++ b ++ c)) with c; [reflexivity|].
  rewrite (app_assoc a b c), <- length_app, drop_app_length. reflexivity.
Qed.

Definition np (H : list Z) : Z := Z.of_nat (length H) + 1.

Definition layout (flag : bool) (H data ints : list Z) : list Z :=
  (if flag then to_dof_id (- np H) else np H) :: H ++ data ++ ints.

Definition ints_pos (H : list Z) : Z := List.last H (np H).

Section Reading.
Variables (d : DofObject) (flag : bool) (H data ints : list Z).
Hypothesis Hbuf : idx_buf d = layout flag H data ints.
Hypothesis Hsmall : np H < 2147483648.

Lemma hdr_layout : hdr d = if flag then - np H else np H.
Proof.
  unfold hdr. rewrite Hbuf. unfold layout. destruct flag.
  - apply signed_neg. unfold np in *. lia.
  - apply signed_small. unfold np in *. lia.
Qed.

Lemma n_pseudo_systems_layout : n_pseudo_systems d = np H.
Proof. unfold n_pseudo_systems. rewrite hdr_layout. unfold np. destruct flag; lia. Qed.

Lemma has_extra_integers_layout : has_extra_integers d = flag.
Proof.
  unfold has_extra_integers. rewrite hdr_layout. unfold np.
  destruct flag; [apply Z.ltb_lt | apply Z.ltb_ge]; lia.
Qed.

Lemma n_systems_layout :
  n_systems d = if flag then Z.of_nat (length H) else np H.
Proof.
  unfold n_systems. rewrite hdr_layout. unfold np.
  destruct flag.
  - destruct (Z.leb_spec 0 (- (Z.of_nat (length H) + 1))); lia.
  - destruct (Z.leb_spec 0 (Z.of_nat (length H) + 1)); lia.
Qed.

Lemma size_layout :
  size d = np H + Z.of_nat (length data) + Z.of_nat (length ints).
Proof.
  unfold size. rewrite Hbuf. unfold layout, np. cbn [length].
  rewrite !length_app. lia.
Qed.

(** Header word [k], [1 <= k <= length H]. *)
Lemma at_header k :
  (k < length H)%nat -> at_ d (Z.of_nat k + 1) = nth k H 0.
Proof.
  intros Hk. unfold at_. rewrite Hbuf. unfold layout.
  replace (Z.to_nat (Z.of_nat k + 1)) with (S k) by lia.
  cbn [nth]. apply app_nth1. exact Hk.
Qed.

End Reading.

Lemma ints_pos_nil : ints_pos [] = 1.
Proof. reflexivity. Qed.

Lemma ints_pos_snoc H x : ints_pos (H ++ [x]) = x.
Proof. unfold ints_pos. apply last_last. Qed.

Lemma last_nth (H : list Z) dflt :
  H <> [] -> List.last H dflt = nth (length H - 1) H 0.
Proof.
  intros Hne. destruct (exists_last Hne) as [H' [x ->]].
  rewrite last_last, length_app. cbn [length].
  replace (length H' + 1 - 1)%nat with (length H') by lia.
  symmetry. apply nth_middle.
Qed.

Lemma start_idx_ints_layout d H data ints :
  idx_buf d = layout true H data ints -> np H < 2147483648 ->
  start_idx_ints d = ints_pos H.
Proof.
  intros Hbuf Hs. unfold start_idx_ints.
  rewrite (n_systems_layout d true H data ints Hbuf Hs).
  destruct H as [|x H'].
  - reflexivity.
  - destruct (Z.eqb_spec (Z.of_nat (length (x :: H'))) 0) as [E|_].
    { cbn [length] in E. lia. }
    unfold ints_pos. rewrite (last_nth (x :: H')) by discriminate.
    replace (Z.of_nat (length (x :: H'))) with (Z.of_nat (length (x :: H') - 1) + 1)
      by (cbn [length]; lia).
    apply (at_header d true (x :: H') data ints Hbuf).
    cbn [length]. lia.
Qed.

Record wf_layout (flag : bool) (H data ints : list Z) : Prop := {
  wf_noints : flag = false -> ints = [];
  wf_ints_pos : flag = true -> ints_pos H = np H + Z.of_nat (length data);
  wf_bounds : Forall (fun x => np H <= x <= np H + Z.of_nat (length data)) H;
  wf_sorted : StronglySorted Z.le H;
  wf_size : np H + Z.of_nat (length data) + Z.of_nat (length ints) < 2147483648
}.

Definition wf (d : DofObject) : Prop :=
  idx_buf d = [] \/
  exists flag H data ints,
    idx_buf d = layout flag H data ints /\ wf_layout flag H data ints.

Definition extra_integers (d : DofObject) : list Z :=
  if has_extra_integers d
  then skipn (Z.to_nat (start_idx_ints d)) (idx_buf d)
  else [].

Lemma np_pos H : 0 < np H.
Proof. unfold np. lia. Qed.

Lemma layout_split flag H data ints :
  layout flag H data ints =
  ((if flag then to_dof_id (- np H) else np H) :: H ++ data) ++ ints.
Proof. unfold layout. cbn [app]. now rewrite <- !app_assoc. Qed.

Lemma length_layout_prefix (h0 : Z) H data :
  Z.of_nat (length (h0 :: H ++ data)) = np H + Z.of_nat (length data).
Proof. cbn [length]. rewrite length_app. unfold np. lia. Qed.

Lemma extra_integers_layout d H data ints :
  idx_buf d = layout true H data ints ->
  np H < 2147483648 ->
  ints_pos H = np H + Z.of_nat (length data) ->
  extra_integers d = ints.
Proof.
  intros Hbuf Hs Hpos. unfold extra_integers.
  rewrite (has_extra_integers_layout d true H data ints Hbuf Hs).
  rewrite (start_idx_ints_layout d H data ints Hbuf Hs), Hpos, Hbuf, layout_split.
  apply drop_app_length'.
  pose proof (length_layout_prefix (to_dof_id (- np H)) H data). lia.
Qed.

Lemma n_extra_integers_layout d H data ints :
  idx_buf d = layout true H data ints ->
  np H < 2147483648 ->
  ints_pos H = np H + Z.of_nat (length data) ->
  n_extra_integers d = Z.of_nat (length ints).
Proof.
  intros Hbuf Hs Hpos. unfold n_extra_integers.
  rewrite (has_extra_integers_layout d true H data ints Hbuf Hs).
  rewrite (start_idx_ints_layout d H data ints Hbuf Hs), Hpos.
  rewrite (size_layout d true H data ints Hbuf). lia.
Qed.

(** [d] holds the extra integers [ints]: they are the tail of a buffer whose
    header says where they start. *)
Definition holds_ints (d : DofObject) (ints : list Z) : Prop :=
  exists H data,
    idx_buf d = layout true H data ints /\
    np H < 2147483648 /\
    ints_pos H = np H + Z.of_nat (length data).

Lemma holds_ints_intro d H data ints :
  idx_buf d = layout true H data ints ->
  np H < 2147483648 ->
  ints_pos H = np H + Z.of_nat (length data) ->
  holds_ints d ints.
Proof. intros. exists H, data. auto. Qed.

Lemma hdr_nil d : idx_buf d = [] -> hdr d = 0.
Proof. unfold hdr. now intros ->. Qed.

Lemma extra_integers_noints d :
  has_extra_integers d = false -> extra_integers d = [] /\ n_extra_integers d = 0.
Proof. unfold extra_integers, n_extra_integers. now intros ->. Qed.

Lemma has_extra_integers_nil d : idx_buf d = [] -> has_extra_integers d = false.
Proof. intros E. unfold has_extra_integers. now rewrite hdr_nil. Qed.

(** Under the invariant the count of extra integers is the length of the
    tail they occupy. *)
Lemma n_extra_integers_length d :
  wf d -> n_extra_integers d = Z.of_nat (length (extra_integers d)).
Proof.
  intros [E | (flag & H & data & ints & Hbuf & W)].
  - now destruct (extra_integers_noints d (has_extra_integers_nil d E)) as [-> ->].
  - pose proof (np_pos H). destruct W as [Wn Wp Wb Ws Wz].
    destruct flag.
    + rewrite (extra_integers_layout d H data ints), (n_extra_integers_layout d H data ints);
        auto; lia.
    + assert (has_extra_integers d = false) as Hf
          by (rewrite (has_extra_integers_layout d false H data ints Hbuf); [done | lia]).
      now destruct (extra_integers_noints d Hf) as [-> ->].
Qed.

Lemma at_layout_ints d H data ints i :
  idx_buf d = layout true H data ints ->
  (i < length ints)%nat ->
  at_ d (np H + Z.of_nat (length data) + Z.of_nat i) = nth i ints 0.
Proof.
  intros Hbuf Hi. unfold at_. rewrite Hbuf, layout_split.
  pose proof (length_layout_prefix (to_dof_id (- np H)) H data) as L.
  rewrite app_nth2 by lia. f_equal. lia.
Qed.

Lemma get_extra_integer_lookup d i :
  wf d ->
  get_extra_integer d i =
  if 0 <=? i then extra_integers d !! Z.to_nat i else None.
Proof.
  intros W. unfold get_extra_integer. rewrite (n_extra_integers_length d W).
  destruct (Z.leb_spec 0 i) as [Hi|Hi]; cbn [andb]; [|reflexivity].
  destruct (Z.ltb_spec i (Z.of_nat (length (extra_integers d)))) as [Hlt|Hge].
  - destruct W as [E | (flag & H & data & ints & Hbuf & [Wn Wp Wb Ws Wz])].
    { destruct (extra_integers_noints d (has_extra_integers_nil d E)) as [E1 _].
      rewrite E1 in Hlt. cbn in Hlt. lia. }
    pose proof (np_pos H).
    destruct flag.
    + rewrite (extra_integers_layout d H data ints) in *; auto; try lia.
      rewrite (start_idx_ints_layout d H data ints Hbuf) by lia.
      rewrite Wp by reflexivity.
      replace i with (Z.of_nat (Z.to_nat i)) at 1 by lia.
      rewrite (at_layout_ints d H data ints) by (auto; lia).
      destruct (nth_lookup_or_length ints (Z.to_nat i) 0) as [E|E]; [now rewrite E|lia].
    + assert (has_extra_integers d = false) as Hf
          by (rewrite (has_extra_integers_layout d false H data ints Hbuf); [done | lia]).
      destruct (extra_integers_noints d Hf) as [E1 _].
      rewrite E1 in Hlt. cbn in Hlt. lia.
  - symmetry. apply lookup_ge_None. lia.
Qed.

(** ** [add_extra_integers] *)

Lemma add_extra_integers_resize d H data ints m :
  idx_buf d = layout true H data ints ->
  wf_layout true H data ints ->
  0 <= m ->
  idx_buf (add_extra_integers m d) = layout true H data (resize (Z.to_nat m) invalid_id ints).
Proof.
  intros Hbuf [Wn Wp Wb Ws Wz] Hm. pose proof (np_pos H) as Hnp.
  unfold add_extra_integers.
  assert ((hdr d <? 0) = true) as Hh.
  { rewrite (hdr_layout d true H data ints Hbuf) by lia. apply Z.ltb_lt. lia. }
  rewrite (n_extra_integers_layout d H data ints Hbuf) by (auto; lia).
  rewrite (size_layout d true H data ints Hbuf).
  rewrite Hh, Hbuf. unfold layout at 1. cbn [idx_buf with_buf].
  rewrite !layout_split.
  pose proof (length_layout_prefix (to_dof_id (- np H)) H data) as L.
  set (pre := to_dof_id (- np H) :: H ++ data) in *.
  rewrite resize_spec, app_assoc. f_equal.
  - rewrite <- (take_app_add' pre ints (length pre) (Z.to_nat m)) by reflexivity.
    f_equal. lia.
  - f_equal. rewrite length_app. lia.
Qed.

Lemma wf_layout_ints_change H data ints ints' :
  wf_layout true H data ints ->
  np H + Z.of_nat (length data) + Z.of_nat (length ints') < 2147483648 ->
  wf_layout true H data ints'.
Proof. intros [Wn Wp Wb Ws Wz] Hz. split; auto. discriminate. Qed.

Lemma Forall_map_inc (H : list Z) lo hi :
  Forall (fun x => lo <= x <= hi) H -> hi + 1 < 4294967296 -> 0 <= lo ->
  map (fun x => to_dof_id (x + 1)) H = map (fun x => x + 1) H.
Proof.
  intros HF Hhi Hlo. apply map_ext_Forall.
  eapply Forall_impl; [exact HF|]. intros x Hx. cbn beta in *.
  apply to_dof_id_small. lia.
Qed.

Lemma StronglySorted_map_inc (H : list Z) :
  StronglySorted Z.le H -> StronglySorted Z.le (map (fun x => x + 1) H).
Proof.
  induction 1 as [|a l Hs IH Ha]; cbn [map]; constructor; auto.
  rewrite Forall_map. eapply Forall_impl; [exact Ha|]. intros; cbn beta in *; lia.
Qed.

Lemma StronglySorted_snoc (H : list Z) x :
  StronglySorted Z.le H -> Forall (fun y => y <= x) H -> StronglySorted Z.le (H ++ [x]).
Proof.
  induction 1 as [|a l Hs IH Ha]; intros HF; cbn [app].
  - constructor; constructor.
  - inversion HF; subst. constructor; auto.
    apply Forall_app. split; auto.
Qed.

Lemma add_extra_integers_fresh d H data m :
  idx_buf d = layout false H data [] ->
  wf_layout false H data [] ->
  0 < m ->
  idx_buf (add_extra_integers m d) =
  layout true (map (fun x => x + 1) H ++ [size d + 1]) data
         (replicate (Z.to_nat m) invalid_id).
Proof.
  intros Hbuf [Wn Wp Wb Ws Wz] Hm. pose proof (np_pos H) as Hnp.
  cbn [length] in Wz.
  unfold add_extra_integers.
  assert (hdr d = np H) as Hh.
  { now rewrite (hdr_layout d false H data [] Hbuf) by lia. }
  rewrite Hh.
  destruct (Z.ltb_spec (np H) 0) as [?|_]; [lia|].
  destruct (Z.eqb_spec m 0) as [?|_]; [lia|].
  pose proof (size_layout d false H data [] Hbuf) as Hsz. cbn [length] in Hsz.
  rewrite Hbuf. unfold layout at 1. cbn [idx_buf with_buf].
  unfold store.
  replace (<[Z.to_nat 0:=to_dof_id (- np H - 1)]> (layout false H data []))
    with (to_dof_id (- np H - 1) :: H ++ data)
    by (unfold layout; cbn; now rewrite app_nil_r).
  replace (Z.to_nat (np H)) with (length (to_dof_id (- np H - 1) :: H))
    by (cbn [length]; unfold np; lia).
  rewrite (app_comm_cons H data), take_app_length, drop_app_length.
  change ((to_dof_id (- np H - 1) :: H) ++ size d + 1 :: data)
    with ([to_dof_id (- np H - 1)] ++ H ++ (size d + 1 :: data)).
  rewrite (map_range_app [to_dof_id (- np H - 1)] H)
    by (cbn [length]; lia).
  rewrite (Forall_map_inc H _ _ Wb) by lia.
  unfold layout. cbn [app].
  replace (np (map (fun x => x + 1) H ++ [size d + 1])) with (np H + 1)
    by (unfold np; rewrite length_app, length_map; cbn [length]; lia).
  replace (- (np H + 1)) with (- np H - 1) by lia.
  f_equal. rewrite <- !app_assoc. reflexivity.
Qed.

Lemma wf_layout_fresh (d : DofObject) H data m :
  wf_layout false H data [] ->
  size d = np H + Z.of_nat (length data) ->
  0 <= m -> size d + m + 1 < 2147483648 ->
  wf_layout true (map (fun x => x + 1) H ++ [size d + 1]) data
            (replicate (Z.to_nat m) invalid_id).
Proof.
  intros [Wn Wp Wb Ws Wz] Hsz Hm Hbig. pose proof (np_pos H) as Hnp.
  assert (np (map (fun x => x + 1) H ++ [size d + 1]) = np H + 1) as Enp
      by (unfold np; rewrite length_app, length_map; cbn [length]; lia).
  split.
  - discriminate.
  - intros _. rewrite ints_pos_snoc, Enp. lia.
  - rewrite Enp. apply Forall_app. split.
    + rewrite Forall_map. eapply Forall_impl; [exact Wb|]. intros; cbn beta in *; lia.
    + constructor; [lia | constructor].
  - apply StronglySorted_snoc.
    + now apply StronglySorted_map_inc.
    + rewrite Forall_map. eapply Forall_impl; [exact Wb|]. intros; cbn beta in *; lia.
  - rewrite Enp, length_replicate. lia.
Qed.

Lemma add_extra_integers_nil d m :
  idx_buf d = [] -> 0 < m ->
  idx_buf (add_extra_integers m d) = layout true [] [] (replicate (Z.to_nat m) invalid_id).
Proof.
  intros E Hm. unfold add_extra_integers. rewrite E.
  destruct (Z.eqb_spec m 0); [lia|]. reflexivity.
Qed.

Lemma wf_layout_nil m :
  0 <= m -> m + 1 < 2147483648 ->
  wf_layout true [] [] (replicate (Z.to_nat m) invalid_id).
Proof.
  intros Hm Hb. split.
  - discriminate.
  - reflexivity.
  - constructor.
  - constructor.
  - rewrite length_replicate. unfold np. cbn [length]. lia.
Qed.

(** [add_extra_integers n] keeps the invariant and resizes the tail of extra
    integers to [n] slots, new ones holding [invalid_id]. *)
Lemma size_nonneg d : 0 <= size d.
Proof. unfold size. lia. Qed.

Lemma add_extra_integers_spec d m :
  wf d -> 0 <= m -> size d + m + 1 < 2147483648 ->
  wf (add_extra_integers m d) /\
  extra_integers (add_extra_integers m d) =
  resize (Z.to_nat m) invalid_id (extra_integers d) /\
  size (add_extra_integers m d) <= size d + m + 1.
Proof.
  intros W Hm Hbig. pose proof (size_nonneg d) as Hsz0.
  destruct W as [E | (flag & H & data & ints & Hbuf & W)].
  - (* empty buffer *)
    destruct (extra_integers_noints d (has_extra_integers_nil d E)) as [E1 _].
    rewrite E1.
    destruct (Z.eq_dec m 0) as [->|Hne].
    + unfold add_extra_integers. rewrite E. cbn. split; [now left|].
      rewrite E1. split; [reflexivity | lia].
    + pose proof (add_extra_integers_nil d m E ltac:(lia)) as Hnew.
      pose proof (wf_layout_nil m Hm ltac:(lia)) as Wnew.
      split; [|split].
      * right. exists true, [], [], (replicate (Z.to_nat m) invalid_id). auto.
      * rewrite (extra_integers_layout _ _ _ _ Hnew); try reflexivity.
        now rewrite resize_nil.
      * rewrite (size_layout _ _ _ _ _ Hnew), length_replicate.
        unfold np. cbn [length]. lia.
  - pose proof (np_pos H) as Hnp. pose proof (size_layout d flag H data ints Hbuf) as Hsz.
    destruct flag.
    + pose proof (add_extra_integers_resize d H data ints m Hbuf W Hm) as Hnew.
      assert (wf_layout true H data (resize (Z.to_nat m) invalid_id ints)) as Wnew.
      { apply (wf_layout_ints_change _ _ _ _ W). rewrite length_resize. lia. }
      destruct W as [Wn Wp Wb Ws Wz].
      split; [|split].
      * right. exists true, H, data, (resize (Z.to_nat m) invalid_id ints). auto.
      * rewrite (extra_integers_layout _ _ _ _ Hnew), (extra_integers_layout _ _ _ _ Hbuf);
          auto; lia.
      * rewrite (size_layout _ _ _ _ _ Hnew), length_resize. lia.
    + pose proof (wf_noints _ _ _ _ W eq_refl) as ->. cbn [length] in Hsz.
      assert (has_extra_integers d = false) as Hf
          by (rewrite (has_extra_integers_layout d false H data [] Hbuf);
              [done | destruct W; lia]).
      destruct (extra_integers_noints d Hf) as [E1 _]. rewrite E1.
      destruct (Z.eq_dec m 0) as [->|Hne].
      * assert (add_extra_integers 0 d = d) as ->.
        { unfold add_extra_integers. rewrite Hbuf. unfold layout at 1.
          fold (layout false H data []). rewrite <- Hbuf.
          rewrite (hdr_layout d false H data [] Hbuf) by (destruct W; lia).
          destruct (Z.ltb_spec (np H) 0); [lia|]. reflexivity. }
        split; [right; exists false, H, data, []; auto|].
        rewrite E1. split; [reflexivity | lia].
      * pose proof (add_extra_integers_fresh d H data m Hbuf W ltac:(lia)) as Hnew.
        pose proof (wf_layout_fresh d H data m W ltac:(lia) Hm ltac:(lia)) as Wnew.
        split; [|split].
        -- right. eexists true, _, _, _. split; [exact Hnew | exact Wnew].
        -- rewrite (extra_integers_layout _ _ _ _ Hnew).
           ++ now rewrite resize_nil.
           ++ destruct Wnew; lia.
           ++ now apply (wf_ints_pos _ _ _ _ Wnew).
        -- rewrite (size_layout _ _ _ _ _ Hnew), length_replicate.
           unfold np. rewrite length_app, length_map. cbn [length]. unfold np in Hsz. lia.
Qed.

(** ** [set_extra_integer] *)

Lemma wf_has_extra d :
  wf d -> has_extra_integers d = true ->
  exists H data ints,
    idx_buf d = layout true H data ints /\ wf_layout true H data ints.
Proof.
  intros [E | (flag & H & data & ints & Hbuf & W)] Hh.
  - rewrite (has_extra_integers_nil d E) in Hh. discriminate.
  - pose proof (np_pos H).
    rewrite (has_extra_integers_layout d flag H data ints Hbuf) in Hh
      by (destruct W; lia).
    subst flag. eauto.
Qed.

Lemma n_extra_pos_has_extra d i :
  0 <= i < n_extra_integers d -> has_extra_integers d = true.
Proof.
  unfold n_extra_integers. destruct (has_extra_integers d); [reflexivity | lia].
Qed.

Lemma store_layout_ints H data ints i v :
  0 <= i ->
  store (np H + Z.of_nat (length data) + i) v (layout true H data ints) =
  layout true H data (<[Z.to_nat i := v]> ints).
Proof.
  intros Hi. unfold store. rewrite !layout_split.
  pose proof (length_layout_prefix (to_dof_id (- np H)) H data) as L.
  replace (Z.to_nat (np H + Z.of_nat (length data) + i))
    with (length (to_dof_id (- np H) :: H ++ data) + Z.to_nat i)%nat by lia.
  apply insert_app_r.
Qed.

Lemma set_extra_integer_spec d i v d' :
  wf d -> set_extra_integer i v d = Some d' ->
  wf d' /\ extra_integers d' = <[Z.to_nat i := v]> (extra_integers d)
  /\ size d' = size d.
Proof.
  intros W. unfold set_extra_integer.
  destruct (Z.leb_spec 0 i) as [Hi|]; [|discriminate].
  destruct (Z.ltb_spec i (n_extra_integers d)) as [Hlt|]; [|discriminate].
  cbn [andb]. intros [= <-].
  destruct (wf_has_extra d W (n_extra_pos_has_extra d i ltac:(lia)))
    as (H & data & ints & Hbuf & Wl).
  pose proof (np_pos H) as Hnp. pose proof Wl as [Wn Wp Wb Ws Wz].
  rewrite (start_idx_ints_layout d H data ints Hbuf) by lia.
  rewrite Wp, Hbuf, store_layout_ints by auto.
  set (d' := with_buf d _).
  assert (idx_buf d' = layout true H data (<[Z.to_nat i:=v]> ints)) as Hnew by reflexivity.
  split; [|split].
  - right. exists true, H, data, (<[Z.to_nat i:=v]> ints). split; [exact Hnew|].
    apply (wf_layout_ints_change _ _ _ _ Wl). now rewrite length_insert.
  - rewrite (extra_integers_layout _ _ _ _ Hnew), (extra_integers_layout _ _ _ _ Hbuf);
      auto; lia.
  - rewrite (size_layout d' true H data _ Hnew), (size_layout d true H data _ Hbuf).
    now rewrite length_insert.
Qed.

(** ** [add_system] and [set_n_systems] *)

Lemma set_n_systems_ints d H data ints ns :
  idx_buf d = layout true H data ints ->
  wf_layout true H data ints ->
  0 <= ns < 2147483647 ->
  ints <> [] ->
  holds_ints (set_n_systems ns d) ints.
Proof.
  intros Hbuf [Wn Wp Wb Ws Wz] Hns Hne. pose proof (np_pos H) as Hnp.
  unfold set_n_systems.
  rewrite (n_systems_layout d true H data ints Hbuf) by lia.
  destruct (Z.eqb_spec ns (Z.of_nat (length H))) as [E|NE].
  { apply (holds_ints_intro d H data ints Hbuf); auto; lia. }
  rewrite (n_extra_integers_layout d H data ints Hbuf) by (auto; lia).
  destruct (Z.eqb_spec (Z.of_nat (length ints)) 0) as [E0|NE0].
  - destruct ints; [congruence | cbn [length] in E0; lia].
  - set (start := if Z.of_nat (length H) =? 0 then 1 else at_ d (Z.of_nat (length H))).
    assert (start = ints_pos H) as Es.
    { pose proof (start_idx_ints_layout d H data ints Hbuf ltac:(lia)) as E.
      unfold start_idx_ints in E.
      rewrite (n_systems_layout d true H data ints Hbuf) in E by lia.
      subst start. destruct (Z.eqb_spec (Z.of_nat (length H)) 0) as [E0|_]; [|exact E].
      rewrite <- E. lia. }
    rewrite Es, Wp by auto.
    set (d' := with_buf d _).
    assert (idx_buf d' = layout true (replicate (Z.to_nat ns) (ns + 1)) [] ints) as Hnew.
    { subst d'. cbn [with_buf idx_buf]. unfold layout.
      assert (np (replicate (Z.to_nat ns) (ns + 1)) = ns + 1) as ->
          by (unfold np; rewrite length_replicate; lia).
      cbn [app]. do 2 f_equal.
      rewrite Hbuf, layout_split. apply drop_app_length'.
      pose proof (length_layout_prefix (to_dof_id (- np H)) H data). lia. }
    apply (holds_ints_intro d' _ _ _ Hnew).
    + unfold np. rewrite length_replicate. lia.
    + unfold ints_pos, np. rewrite length_replicate. cbn [length].
      destruct (Z.to_nat ns) as [|k] eqn:Ek; [cbn; lia|].
      replace (replicate (S k) (ns + 1)) with (replicate k (ns + 1) ++ [ns + 1]).
      * rewrite last_last. lia.
      * change [ns + 1] with (replicate 1 (ns + 1)). rewrite <- replicate_add.
        f_equal. lia.
Qed.

Lemma ints_pos_last H p : ints_pos (H ++ [p]) = p.
Proof. apply ints_pos_snoc. Qed.

Lemma add_system_ints d H data ints :
  idx_buf d = layout true H data ints ->
  wf_layout true H data ints ->
  np H + Z.of_nat (length data) + Z.of_nat (length ints) + 1 < 2147483648 ->
  ints <> [] ->
  holds_ints (add_system d) ints.
Proof.
  intros Hbuf W Hbig Hne. pose proof W as [Wn Wp Wb Ws Wz]. pose proof (np_pos H) as Hnp.
  unfold add_system.
  rewrite (n_systems_layout d true H data ints Hbuf) by lia.
  rewrite (has_extra_integers_layout d true H data ints Hbuf) by lia.
  destruct (Z.eqb_spec (Z.of_nat (length H)) 0) as [E0|NE0].
  { apply (set_n_systems_ints d H data ints 1 Hbuf W); [lia | exact Hne]. }
  destruct (exists_last (l := H)) as [H' [p EH]].
  { intros ->. cbn [length] in NE0. lia. }
  subst H. rewrite ints_pos_last in Wp. specialize (Wp eq_refl).
  assert (Z.to_nat (Z.of_nat (length (H' ++ [p]))) = length (to_dof_id (- np (H' ++ [p])) :: H'))
    as Ens by (rewrite length_app; cbn [length]; lia).
  rewrite Ens, Hbuf. unfold layout at 1 2 3.
  set (h0 := to_dof_id (- np (H' ++ [p]))).
  replace (h0 :: (H' ++ [p]) ++ data ++ ints) with ((h0 :: H') ++ p :: data ++ ints)
    by (cbn [app]; now rewrite <- app_assoc).
  rewrite take_app_length, drop_app_length, nth_middle.
  change ((h0 :: H') ++ p :: p :: data ++ ints)
    with ([] ++ [h0] ++ (H' ++ p :: p :: data ++ ints)).
  rewrite (map_range_app [] [h0]) by reflexivity.
  cbn [app map].
  replace (H' ++ p :: p :: data ++ ints) with ((H' ++ [p; p]) ++ data ++ ints)
    by (now rewrite <- app_assoc).
  change (to_dof_id (h0 - 1) :: (H' ++ [p; p]) ++ data ++ ints)
    with ([to_dof_id (h0 - 1)] ++ (H' ++ [p; p]) ++ data ++ ints).
  rewrite (map_range_app [to_dof_id (h0 - 1)] (H' ++ [p; p]))
    by (cbn [length]; rewrite ?length_app; cbn [length]; lia).
  set (d' := with_buf d _).
  set (H2 := map (fun x => to_dof_id (x + 1)) (H' ++ [p; p])).
  assert (np H2 = np (H' ++ [p]) + 1) as Enp.
  { unfold np, H2. rewrite length_map, !length_app. cbn [length]. lia. }
  assert (idx_buf d' = layout true H2 data ints) as Hnew.
  { subst d'. cbn [with_buf idx_buf app]. unfold layout. f_equal.
    rewrite Enp. subst h0. rewrite !to_dof_id_neg by lia.
    rewrite to_dof_id_small by lia. lia. }
  apply (holds_ints_intro d' H2 data ints Hnew).
  - lia.
  - rewrite Enp. subst H2. 
    replace (H' ++ [p; p]) with ((H' ++ [p]) ++ [p]) by (now rewrite <- app_assoc).
    rewrite map_app. cbn [map]. rewrite ints_pos_last.
    rewrite to_dof_id_small by lia. lia.
Qed.

(** ** [set_n_vars_per_group] *)

Lemma sorted_nth (H : list Z) :
  StronglySorted Z.le H ->
  forall i j, (i <= j < length H)%nat -> nth i H 0 <= nth j H 0.
Proof.
  induction 1 as [|a l Hs IH Ha]; intros i j Hij; cbn [length] in Hij; [lia|].
  destruct i as [|i], j as [|j]; cbn [nth]; try lia.
  - rewrite List.Forall_forall in Ha. apply Ha. apply nth_In. lia.
  - apply IH. lia.
Qed.

Lemma bounds_nth (H : list Z) lo hi k :
  Forall (fun x => lo <= x <= hi) H -> (k < length H)%nat -> lo <= nth k H 0 <= hi.
Proof.
  intros HF Hk. rewrite List.Forall_forall in HF. apply HF. apply nth_In. exact Hk.
Qed.

(** Where the variable groups of system [k] start: right after the header
    for system 0, at header word [k] otherwise. *)
Definition sys_start (H : list Z) (k : nat) : Z :=
  match k with
  | O => np H
  | S k' => nth k' H 0
  end.

Section Systems.
Variables (d : DofObject) (H data ints : list Z).
Hypothesis Hbuf : idx_buf d = layout true H data ints.
Hypothesis W : wf_layout true H data ints.

Lemma start_idx_layout k :
  (k < length H)%nat -> start_idx d (Z.of_nat k) = sys_start H k.
Proof.
  intros Hk. destruct W as [Wn Wp Wb Ws Wz]. pose proof (np_pos H) as Hnp.
  unfold start_idx. destruct k as [|k'].
  - unfold at_. rewrite Hbuf. unfold layout.
    change (Z.to_nat (Z.of_nat 0)) with 0%nat. cbn [nth].
    rewrite signed_neg by lia. cbn [sys_start]. lia.
  - replace (Z.of_nat (S k')) with (Z.of_nat k' + 1) by lia.
    rewrite (at_header d true H data ints Hbuf) by lia.
    pose proof (bounds_nth H _ _ k' Wb ltac:(lia)).
    rewrite signed_small by lia. cbn [sys_start]. lia.
Qed.

Lemma end_idx_layout k :
  (k < length H)%nat -> end_idx d (Z.of_nat k) = nth k H 0.
Proof.
  intros Hk. destruct W as [Wn Wp Wb Ws Wz]. pose proof (np_pos H) as Hnp.
  unfold end_idx.
  rewrite (n_pseudo_systems_layout d true H data ints Hbuf) by lia.
  destruct (Z.eqb_spec (Z.of_nat k + 1) (np H)) as [E|_]; [unfold np in E; lia|].
  apply (at_header d true H data ints Hbuf). exact Hk.
Qed.

Lemma sys_range k :
  (k < length H)%nat ->
  np H <= sys_start H k <= nth k H 0 /\ nth k H 0 <= np H + Z.of_nat (length data).
Proof.
  intros Hk. destruct W as [Wn Wp Wb Ws Wz].
  pose proof (bounds_nth H _ _ k Wb Hk).
  destruct k as [|k']; cbn [sys_start].
  - lia.
  - pose proof (bounds_nth H _ _ k' Wb ltac:(lia)).
    pose proof (sorted_nth H Ws k' (S k') ltac:(lia)). lia.
Qed.

End Systems.

Lemma store_layout_data H data ints j v :
  0 <= j < Z.of_nat (length data) ->
  store (np H + j) v (layout true H data ints) =
  layout true H (<[Z.to_nat j := v]> data) ints.
Proof.
  intros Hj. unfold store, layout.
  set (h0 := to_dof_id (- np H)).
  change (h0 :: H ++ data ++ ints) with ((h0 :: H) ++ data ++ ints).
  replace (Z.to_nat (np H + j)) with (length (h0 :: H) + Z.to_nat j)%nat
    by (cbn [length]; unfold np; lia).
  rewrite insert_app_r. cbn [app]. do 2 f_equal.
  apply insert_app_l. lia.
Qed.

Lemma set_n_comp_group_layout d H data ints k vg ncomp :
  idx_buf d = layout true H data ints ->
  wf_layout true H data ints ->
  (k < length H)%nat ->
  0 <= vg < n_var_groups d (Z.of_nat k) ->
  0 <= ncomp < ncv_magic ->
  exists d' data',
    set_n_comp_group (Z.of_nat k) vg ncomp d = Some d' /\
    length data' = length data /\
    idx_buf d' = layout true H data' ints.
Proof.
  intros Hbuf W Hk Hvg Hnc. pose proof W as [Wn Wp Wb Ws Wz].
  pose proof (np_pos H) as Hnp.
  unfold set_n_comp_group.
  rewrite (n_systems_layout d true H data ints Hbuf) by lia.
  destruct (Z.leb_spec 0 (Z.of_nat k)); [|lia].
  destruct (Z.ltb_spec (Z.of_nat k) (Z.of_nat (length H))); [|lia].
  destruct (Z.leb_spec 0 vg); [|lia].
  destruct (Z.ltb_spec vg (n_var_groups d (Z.of_nat k))); [|lia].
  cbn [andb].
  destruct (ncomp =? n_comp_group d (Z.of_nat k) vg).
  { exists d, data. auto. }
  destruct (Z.leb_spec ncv_magic ncomp); [lia|].
  rewrite (start_idx_layout d H data ints Hbuf W k Hk).
  pose proof (sys_range H data ints W k Hk) as [Hr1 Hr2].
  assert (sys_start H k + 2 * vg + 2 <= nth k H 0) as Hin.
  { unfold n_var_groups in Hvg.
    rewrite (start_idx_layout d H data ints Hbuf W k Hk) in Hvg.
    rewrite (end_idx_layout d H data ints Hbuf W k Hk) in Hvg.
    pose proof (Z.mul_div_le (nth k H 0 - sys_start H k) 2 ltac:(lia)). lia. }
  rewrite Hbuf.
  replace (sys_start H k + 2 * vg) with (np H + (sys_start H k + 2 * vg - np H)) by lia.
  rewrite store_layout_data by lia.
  replace (np H + (sys_start H k + 2 * vg - np H) + 1)
    with (np H + (sys_start H k + 2 * vg - np H + 1)) by lia.
  rewrite store_layout_data by (rewrite length_insert; lia).
  eexists _, _. split; [reflexivity|]. split; [|reflexivity].
  now rewrite !length_insert.
Qed.

Lemma n_var_groups_layout d H data ints k :
  idx_buf d = layout true H data ints ->
  wf_layout true H data ints ->
  (k < length H)%nat ->
  n_var_groups d (Z.of_nat k) = (nth k H 0 - sys_start H k) / 2.
Proof.
  intros Hbuf W Hk. unfold n_var_groups.
  now rewrite (start_idx_layout d H data ints Hbuf W k Hk),
              (end_idx_layout d H data ints Hbuf W k Hk).
Qed.

Lemma wf_layout_data_change H data data' ints :
  wf_layout true H data ints -> length data' = length data ->
  wf_layout true H data' ints.
Proof. intros [Wn Wp Wb Ws Wz] E. split; rewrite ?E; auto. Qed.

Lemma reset_comp_groups d H data ints k (vgs : list nat) :
  idx_buf d = layout true H data ints ->
  wf_layout true H data ints ->
  (k < length H)%nat ->
  Forall (fun vg => Z.of_nat vg < n_var_groups d (Z.of_nat k)) vgs ->
  exists d' data',
    fold_left
      (fun acc vg =>
         match acc with
         | Some d' => set_n_comp_group (Z.of_nat k) (Z.of_nat vg) 0 d'
         | None => None
         end) vgs (Some d) = Some d' /\
    length data' = length data /\
    idx_buf d' = layout true H data' ints.
Proof.
  intros Hbuf W Hk. revert d data Hbuf W.
  induction vgs as [|vg vgs IH]; intros d data Hbuf W HF.
  - exists d, data. auto.
  - inversion HF as [|? ? Hvg HF']; subst. cbn [fold_left].
    destruct (set_n_comp_group_layout d H data ints k (Z.of_nat vg) 0 Hbuf W Hk)
      as (d1 & data1 & E1 & L1 & B1); [lia | unfold ncv_magic; lia |].
    rewrite E1.
    pose proof (wf_layout_data_change H data data1 ints W L1) as W1.
    destruct (IH d1 data1 B1 W1) as (d2 & data2 & E2 & L2 & B2).
    + eapply Forall_impl; [exact HF'|]. intros a Ha. cbn beta in *.
      rewrite (n_var_groups_layout d1 H data1 ints k B1 W1 Hk).
      now rewrite (n_var_groups_layout d H data ints k Hbuf W Hk) in Ha.
    + exists d2, data2. split; [exact E2|]. split; [lia | exact B2].
Qed.

Lemma length_var_idxs nvpg : length (var_idxs nvpg) = (2 * length nvpg)%nat.
Proof.
  unfold var_idxs. induction nvpg as [|nv l IH]; cbn [flat_map length app]; lia.
Qed.

Lemma last_map_cons (f : Z -> Z) e (Hb : list Z) dflt dflt' :
  List.last (map f (e :: Hb)) dflt = f (List.last (e :: Hb) dflt').
Proof.
  revert e. induction Hb as [|b Hb IH]; intros e; [reflexivity|].
  change (List.last (f e :: map f (b :: Hb)) dflt = f (List.last (e :: b :: Hb) dflt')).
  cbn [List.last map] in *. apply IH.
Qed.

Lemma last_app_ne (l1 l2 : list Z) dflt dflt' :
  l2 <> [] -> List.last (l1 ++ l2) dflt = List.last l2 dflt'.
Proof.
  intros Hne. destruct (exists_last Hne) as [l' [x ->]].
  now rewrite app_assoc, !last_last.
Qed.

Lemma set_n_vars_per_group_ints d H data ints k nvpg :
  idx_buf d = layout true H data ints ->
  wf_layout true H data ints ->
  (k < length H)%nat ->
  np H + Z.of_nat (length data) + Z.of_nat (length ints)
    + 2 * Z.of_nat (length nvpg) < 2147483648 ->
  exists d',
    set_n_vars_per_group (Z.of_nat k) nvpg d = Some d' /\ holds_ints d' ints.
Proof.
  intros Hbuf W Hk Hbig. pose proof W as [Wn Wp Wb Ws Wz].
  pose proof (np_pos H) as Hnp. specialize (Wp eq_refl).
  unfold set_n_vars_per_group.
  rewrite (n_systems_layout d true H data ints Hbuf) by lia.
  destruct (Z.leb_spec 0 (Z.of_nat k)); [|lia].
  destruct (Z.ltb_spec (Z.of_nat k) (Z.of_nat (length H))); [|lia].
  cbn [andb].
  destruct (Z.eqb_spec (Z.of_nat (length nvpg)) (n_var_groups d (Z.of_nat k))) as [E|NE].
  - (* same number of groups *)
    destruct (reset_comp_groups d H data ints k (seq 0 (length nvpg)) Hbuf W Hk)
      as (d' & data' & E' & L' & B').
    { apply List.Forall_forall. intros vg Hin. apply in_seq in Hin. lia. }
    exists d'. split; [exact E'|].
    apply (holds_ints_intro d' H data' ints B'); [lia|]. rewrite L'. exact Wp.
  - (* the groups of system [k] are replaced *)
    rewrite (start_idx_layout d H data ints Hbuf W k Hk).
    rewrite (end_idx_layout d H data ints Hbuf W k Hk).
    rewrite (n_pseudo_systems_layout d true H data ints Hbuf) by lia.
    pose proof (sys_range H data ints W k Hk) as [Hr1 Hr2].
    set (start := sys_start H k) in *. set (e := nth k H 0) in *.
    eexists. split; [reflexivity|].
    set (f := fun x => to_dof_id (x - Z.of_nat (Z.to_nat e - Z.to_nat start)
                                   + 2 * Z.of_nat (length nvpg))).
    (* split the header at word [k] *)
    assert (H !! k = Some e) as Hlk.
    { destruct (nth_lookup_or_length H k 0) as [E|E]; [exact E | lia]. }
    pose proof (take_drop_middle H k e Hlk) as EH.
    set (Ha := take k H) in *. set (Hb := drop (S k) H) in *.
    assert (length Ha = k) as LHa by (subst Ha; rewrite length_take; lia).
    assert (length H = (k + S (length Hb))%nat) as LH
        by (rewrite <- EH at 1; rewrite length_app; cbn [length]; lia).
    set (h0 := to_dof_id (- np H)).
    assert (idx_buf d = (h0 :: Ha) ++ (e :: Hb) ++ data ++ ints) as Hbuf'.
    { rewrite Hbuf. unfold layout. fold h0.
      replace (H ++ data ++ ints) with ((Ha ++ e :: Hb) ++ data ++ ints)
        by (now rewrite EH).
      cbn [app]. now rewrite <- app_assoc. }
    rewrite Hbuf'.
    rewrite (map_range_app (h0 :: Ha) (e :: Hb))
      by (cbn [length]; unfold np; lia).
    set (H2 := Ha ++ map f (e :: Hb)).
    assert (np H2 = np H) as Enp
        by (unfold np, H2; rewrite length_app, length_map; cbn [length]; lia).
    set (hdrpart := h0 :: H2).
    replace ((h0 :: Ha) ++ map f (e :: Hb) ++ data ++ ints)
      with (hdrpart ++ data ++ ints)
      by (subst hdrpart H2; cbn [app]; now rewrite <- app_assoc).
    assert (length hdrpart = Z.to_nat (np H)) as Lh
        by (subst hdrpart; cbn [length]; unfold np in *; lia).
    replace (Z.to_nat start) with (length hdrpart + Z.to_nat (start - np H))%nat by lia.
    rewrite take_app_add, take_app_le by lia.
    replace (drop (Z.to_nat e) (hdrpart ++ data ++ ints))
      with (drop (Z.to_nat (e - np H)) data ++ ints).
    2:{ replace (Z.to_nat e) with (length hdrpart + Z.to_nat (e - np H))%nat by lia.
        rewrite drop_app_add, drop_app_le by lia. reflexivity. }
    set (data2 := take (Z.to_nat (start - np H)) data ++ var_idxs nvpg
                    ++ drop (Z.to_nat (e - np H)) data).
    set (d' := with_buf d _).
    assert (idx_buf d' = layout true H2 data2 ints) as Hnew.
    { subst d' data2 hdrpart. cbn [with_buf idx_buf]. unfold layout.
      rewrite Enp. fold h0. cbn [app]. f_equal. now rewrite <- !app_assoc. }
    apply (holds_ints_intro d' H2 data2 ints Hnew); [lia|].
    rewrite Enp. subst H2 data2.
    rewrite !length_app, length_take, length_drop, length_var_idxs.
    unfold ints_pos.
    rewrite (last_app_ne Ha (map f (e :: Hb)) _ (f (np H))) by discriminate.
    rewrite (last_map_cons f e Hb _ (np H)).
    assert (List.last (e :: Hb) (np H) = ints_pos H) as ->.
    { unfold ints_pos.
      transitivity (List.last (Ha ++ e :: Hb) (np H));
        [symmetry; apply last_app_ne; discriminate | now rewrite EH]. }
    rewrite Wp. subst f. cbn beta.
    rewrite to_dof_id_small; lia.
Qed.

(** ** Reading through [holds_ints] *)

Lemma holds_ints_get d ints i :
  holds_ints d ints ->
  get_extra_integer d i = if 0 <=? i then ints !! Z.to_nat i else None.
Proof.
  intros (H & data & Hbuf & Hs & Hpos). unfold get_extra_integer.
  rewrite (n_extra_integers_layout d H data ints Hbuf Hs Hpos).
  destruct (Z.leb_spec 0 i) as [Hi|Hi]; cbn [andb]; [|reflexivity].
  destruct (Z.ltb_spec i (Z.of_nat (length ints))) as [Hlt|Hge].
  - rewrite (start_idx_ints_layout d H data ints Hbuf Hs), Hpos.
    replace i with (Z.of_nat (Z.to_nat i)) at 1 by lia.
    rewrite (at_layout_ints d H data ints) by (auto; lia).
    destruct (nth_lookup_or_length ints (Z.to_nat i) 0) as [E|E]; [now rewrite E|lia].
  - symmetry. apply lookup_ge_None. lia.
Qed.

Lemma wf_holds_ints d :
  wf d -> has_extra_integers d = true -> holds_ints d (extra_integers d).
Proof.
  intros W Hh. destruct (wf_has_extra d W Hh) as (H & data & ints & Hbuf & Wl).
  pose proof Wl as [Wn Wp Wb Ws Wz]. pose proof (np_pos H).
  rewrite (extra_integers_layout d H data ints Hbuf) by (auto; lia).
  apply (holds_ints_intro d H data ints Hbuf); auto; lia.
Qed.


(** ** Writing a run of slots, and the survival of extra integers *)

(** A run of [set_extra_integer(index, value)] calls. *)
Definition run_writes (writes : list (Z * Z)) (d : DofObject) : option DofObject :=
  fold_left
    (fun acc w =>
       match acc with
       | Some d' => set_extra_integer (fst w) (snd w) d'
       | None => None
       end) writes (Some d).

Lemma run_writes_None writes : 
  fold_left
    (fun acc w =>
       match acc with
       | Some d' => set_extra_integer (fst w) (snd w) d'
       | None => None
       end) writes None = None.
Proof. induction writes; auto. Qed.

Lemma run_writes_spec writes d d' :
  wf d -> run_writes writes d = Some d' ->
  wf d' /\ size d' = size d /\
  length (extra_integers d') = length (extra_integers d).
Proof.
  unfold run_writes. revert d. induction writes as [|[i v] ws IH]; intros d W Hrun.
  - cbn in Hrun. injection Hrun as <-. auto.
  - cbn [fold_left fst snd] in Hrun.
    destruct (set_extra_integer i v d) as [d1|] eqn:E1;
      [|rewrite run_writes_None in Hrun; discriminate].
    destruct (set_extra_integer_spec d i v d1 W E1) as (W1 & X1 & S1).
    destruct (IH d1 W1 Hrun) as (W' & S' & L').
    split; [exact W'|]. split; [lia|].
    rewrite L', X1. apply length_insert.
Qed.

Lemma wf_get d i :
  wf d ->
  get_extra_integer d i = if 0 <=? i then extra_integers d !! Z.to_nat i else None.
Proof. apply get_extra_integer_lookup. Qed.

(** C5.  Take any well-formed object, call [add_extra_integers(n)], set
    slots with [set_extra_integer], and call [add_extra_integers(m)] with
    [m > n]: the object then has [m] extra integers, the first [n] hold the
    values they held before, and every slot in [[n, m)] holds [invalid_id].
    Moreover [add_system], [set_n_systems], [set_n_vars_per_group] and
    [add_extra_integers] leave every extra integer that stays in range as it
    was. *)
Theorem extra_integers_survive :
  forall (d : DofObject) (n m : Z) (writes : list (Z * Z)) (d2 : DofObject),
    wf d ->
    0 <= n < m ->
    size d + 2 * m + 2 < 2147483648 ->
    run_writes writes (add_extra_integers n d) = Some d2 ->
    n_extra_integers d2 = n /\
    n_extra_integers (add_extra_integers m d2) = m /\
    (forall i, 0 <= i < n ->
       get_extra_integer (add_extra_integers m d2) i = get_extra_integer d2 i /\
       is_Some (get_extra_integer d2 i)) /\
    (forall i, n <= i < m ->
       get_extra_integer (add_extra_integers m d2) i = Some invalid_id) /\
    (forall i, 0 <= i < n ->
       get_extra_integer (add_system d2) i = get_extra_integer d2 i /\
       (forall ns, 0 <= ns < 2147483647 ->
          get_extra_integer (set_n_systems ns d2) i = get_extra_integer d2 i) /\
       (forall s nvpg,
          0 <= s < n_systems d2 ->
          size d2 + 2 * Z.of_nat (length nvpg) < 2147483648 ->
          exists d',
            set_n_vars_per_group s nvpg d2 = Some d' /\
            get_extra_integer d' i = get_extra_integer d2 i) /\
       (forall k, i < k -> size d2 + k + 1 < 2147483648 ->
          get_extra_integer (add_extra_integers k d2) i = get_extra_integer d2 i)).
Proof.
  intros d n m writes d2 W Hnm Hbig Hrun.
  pose proof (size_nonneg d) as Hsz0.
  destruct (add_extra_integers_spec d n W ltac:(lia) ltac:(lia)) as (W1 & X1 & S1).
  destruct (run_writes_spec writes _ d2 W1 Hrun) as (W2 & S2 & L2).
  assert (length (extra_integers d2) = Z.to_nat n) as Ln
      by (rewrite L2, X1; apply length_resize).
  destruct (add_extra_integers_spec d2 m W2 ltac:(lia) ltac:(lia)) as (W3 & X3 & S3).
  assert (forall i, 0 <= i < n ->
            exists v, extra_integers d2 !! Z.to_nat i = Some v) as Hin.
  { intros i Hi. apply lookup_lt_is_Some. lia. }
  split; [|split; [|split; [|split]]].
  - rewrite (n_extra_integers_length d2 W2). lia.
  - rewrite (n_extra_integers_length _ W3), X3, length_resize. lia.
  - intros i Hi. rewrite (wf_get _ i W3), (wf_get _ i W2), X3.
    destruct (Z.leb_spec 0 i); [|lia].
    destruct (Hin i Hi) as [v Hv].
    split; [|rewrite Hv; eauto].
    apply lookup_resize; lia.
  - intros i Hi. rewrite (wf_get _ i W3), X3.
    destruct (Z.leb_spec 0 i); [|lia].
    apply lookup_resize_new; lia.
  - intros i Hi.
    assert (has_extra_integers d2 = true) as Hh.
    { apply (n_extra_pos_has_extra d2 i). rewrite (n_extra_integers_length d2 W2). lia. }
    destruct (wf_has_extra d2 W2 Hh) as (H & data & ints & Hbuf & Wl).
    pose proof Wl as [Wn Wp Wb Ws Wz]. pose proof (np_pos H) as Hnp.
    pose proof (size_layout d2 true H data ints Hbuf) as Hsz2.
    assert (extra_integers d2 = ints) as Ex
        by (apply (extra_integers_layout d2 H data ints Hbuf); auto; lia).
    assert (ints <> []) as Hne.
    { intros ->. rewrite Ex in Ln. cbn [length] in Ln. lia. }
    rewrite (wf_get d2 i W2), Ex.
    split; [|split; [|split]].
    + apply holds_ints_get. apply (add_system_ints d2 H data ints Hbuf Wl); [lia | exact Hne].
    + intros ns Hns. apply holds_ints_get.
      apply (set_n_systems_ints d2 H data ints ns Hbuf Wl Hns Hne).
    + intros s nvpg Hs Hsz.
      rewrite (n_systems_layout d2 true H data ints Hbuf) in Hs by lia.
      destruct (set_n_vars_per_group_ints d2 H data ints (Z.to_nat s) nvpg Hbuf Wl)
        as (d' & E' & Hd'); [lia | lia |].
      exists d'. rewrite Z2Nat.id in E' by lia. split; [exact E'|].
      now apply holds_ints_get.
    + intros k Hk Hkb.
      destruct (add_extra_integers_spec d2 k W2 ltac:(lia) ltac:(lia)) as (Wk & Xk & _).
      rewrite (wf_get _ i Wk), Xk, Ex.
      destruct (Z.leb_spec 0 i); [|lia].
      apply lookup_resize; rewrite <- ?Ex; lia.
Qed.

Definition two_systems : DofObject := mkDofObject 0 0 [2; 2].

Lemma wf_two_systems : wf two_systems.
Proof.
  right. exists false, [2], [], []. split; [reflexivity|].
  split.
  - reflexivity.
  - discriminate.
  - constructor; [unfold np; cbn [length]; lia | constructor].
  - repeat constructor.
  - reflexivity.
Defined.

Lemma extra_integers_survive_witness :
  let d2 := mkDofObject 0 0 [4294967293; 3; 3; 7; 8] in
    n_extra_integers d2 = 2 /\
    n_extra_integers (add_extra_integers 4 d2) = 4 /\
    (forall i, 0 <= i < 2 ->
       get_extra_integer (add_extra_integers 4 d2) i = get_extra_integer d2 i /\
       is_Some (get_extra_integer d2 i)) /\
    (forall i, 2 <= i < 4 ->
       get_extra_integer (add_extra_integers 4 d2) i = Some invalid_id) /\
    (forall i, 0 <= i < 2 ->
       get_extra_integer (add_system d2) i = get_extra_integer d2 i /\
       (forall ns, 0 <= ns < 2147483647 ->
          get_extra_integer (set_n_systems ns d2) i = get_extra_integer d2 i) /\
       (forall s nvpg,
          0 <= s < n_systems d2 ->
          size d2 + 2 * Z.of_nat (length nvpg) < 2147483648 ->
          exists d',
            set_n_vars_per_group s nvpg d2 = Some d' /\
            get_extra_integer d' i = get_extra_integer d2 i) /\
       (forall k, i < k -> size d2 + k + 1 < 2147483648 ->
          get_extra_integer (add_extra_integers k d2) i = get_extra_integer d2 i)).
Proof.
  apply (extra_integers_survive two_systems 2 4 [(0, 7); (1, 8)]).
  - exact wf_two_systems.
  - lia.
  - vm_compute. reflexivity.
  - reflexivity.
Defined.


(** ** Bytes and slots *)

Lemma slot_bytes_pos : (0 < slot_bytes)%nat.
Proof. unfold slot_bytes, dof_id_bytes. lia. Qed.

Lemma byte_of_Z_low b acc :
  byte_of_Z (Z.of_N (Byte.to_N b) + 256 * acc) = b.
Proof.
  unfold byte_of_Z. pose proof (Byte.to_N_bounded b) as Hb.
  replace ((Z.of_N (to_N b) + 256 * acc) mod 256) with (Z.of_N (to_N b)).
  - now rewrite N2Z.id, Byte.of_to_N.
  - symmetry. rewrite (Z.mul_comm 256 acc), Z.mod_add by lia.
    apply Z.mod_small. lia.
Qed.

Lemma bytes_of_word_of_bytes bs :
  bytes_of_word (length bs) (word_of_bytes bs) = bs.
Proof.
  induction bs as [|b bs IH]; [reflexivity|].
  cbn [length bytes_of_word word_of_bytes fold_right].
  fold (word_of_bytes bs). rewrite byte_of_Z_low. f_equal.
  pose proof (Byte.to_N_bounded b) as Hb.
  replace ((Z.of_N (to_N b) + 256 * word_of_bytes bs) / 256) with (word_of_bytes bs);
    [exact IH|].
  symmetry. rewrite (Z.mul_comm 256 _), Z.div_add by lia.
  rewrite Z.div_small by lia. lia.
Qed.

Lemma length_bytes_of_word n w : length (bytes_of_word n w) = n.
Proof. revert w. induction n as [|n IH]; intros w; cbn [bytes_of_word length]; auto. Qed.

Lemma length_bytes_of_slots l :
  length (bytes_of_slots l) = (length l * slot_bytes)%nat.
Proof.
  unfold bytes_of_slots. induction l as [|w l IH]; [reflexivity|].
  cbn [flat_map length]. rewrite length_app, length_bytes_of_word, IH. lia.
Qed.

Lemma length_slots_of_bytes k bs : length (slots_of_bytes k bs) = k.
Proof. revert bs. induction k as [|k IH]; intros bs; cbn [slots_of_bytes length]; auto. Qed.

Lemma bytes_of_slots_of_bytes k bs :
  length bs = (k * slot_bytes)%nat ->
  bytes_of_slots (slots_of_bytes k bs) = bs.
Proof.
  revert bs. induction k as [|k IH]; intros bs Hlen.
  - destruct bs; [reflexivity | cbn in Hlen; lia].
  - cbn [slots_of_bytes]. unfold bytes_of_slots. cbn [flat_map].
    fold (bytes_of_slots (slots_of_bytes k (skipn slot_bytes bs))).
    rewrite IH by (rewrite length_drop; lia).
    replace slot_bytes with (length (firstn slot_bytes bs)) at 1
      by (rewrite length_take; lia).
    rewrite bytes_of_word_of_bytes. apply take_drop.
Qed.

Lemma slots_for_more n :
  (1 <= n)%nat -> Z.of_nat (slots_for n) = n_more_integers n + 1.
Proof.
  intros Hn. unfold slots_for, n_more_integers. pose proof slot_bytes_pos as Hp.
  replace (n + slot_bytes - 1)%nat with ((n - 1) + 1 * slot_bytes)%nat by lia.
  rewrite Nat.div_add by lia. lia.
Qed.

Lemma slots_for_enough n : (n <= slots_for n * slot_bytes)%nat.
Proof.
  unfold slots_for. pose proof slot_bytes_pos as Hp.
  pose proof (Nat.div_mod_eq (n + slot_bytes - 1) slot_bytes) as E.
  pose proof (Nat.mod_upper_bound (n + slot_bytes - 1) slot_bytes ltac:(lia)).
  nia.
Qed.

(** ** [memcpy] on the slot array *)

Lemma length_memcpy_to pos v (buf : list Z) :
  (pos + slots_for (length v) <= length buf)%nat ->
  length (memcpy_to pos v buf) = length buf.
Proof.
  intros Hin. unfold memcpy_to.
  rewrite !length_app, length_take, length_slots_of_bytes, length_drop. lia.
Qed.

Lemma memcpy_round_trip pos v (buf : list Z) :
  (pos + slots_for (length v) <= length buf)%nat ->
  memcpy_from pos (length v) (memcpy_to pos v buf) = v.
Proof.
  intros Hin. unfold memcpy_from, memcpy_to.
  set (k := slots_for (length v)) in *.
  set (old := bytes_of_slots (firstn k (skipn pos buf))).
  assert (length old = (k * slot_bytes)%nat) as Lold.
  { subst old. rewrite length_bytes_of_slots, length_take, length_drop.
    now rewrite Nat.min_l by lia. }
  pose proof (slots_for_enough (length v)) as Hv. fold k in Hv.
  rewrite drop_app_length' by (rewrite length_take; lia).
  rewrite take_app_length' by (now rewrite length_slots_of_bytes).
  rewrite bytes_of_slots_of_bytes by (rewrite length_app, length_drop; lia).
  apply take_app_length.
Qed.

Lemma memcpy_to_app (pre : list Z) i v l :
  memcpy_to (length pre + i) v (pre ++ l) = pre ++ memcpy_to i v l.
Proof.
  unfold memcpy_to.
  rewrite take_app_add, drop_app_add, <- Nat.add_assoc, drop_app_add.
  now rewrite <- app_assoc.
Qed.

Lemma memcpy_from_app (pre : list Z) i n l :
  memcpy_from (length pre + i) n (pre ++ l) = memcpy_from i n l.
Proof. unfold memcpy_from. now rewrite drop_app_add. Qed.

Lemma memcpy_to_frame i v (l : list Z) j :
  (i + slots_for (length v) <= length l)%nat ->
  (j < i \/ i + slots_for (length v) <= j)%nat ->
  memcpy_to i v l !! j = l !! j.
Proof.
  intros Hin Hj. unfold memcpy_to.
  set (k := slots_for (length v)) in *.
  set (S := slots_of_bytes k _).
  assert (length S = k) as LS by apply length_slots_of_bytes.
  destruct Hj as [Hj|Hj].
  - rewrite lookup_app_l by (rewrite length_take; lia).
    apply lookup_take_lt. lia.
  - rewrite lookup_app_r by (rewrite length_take; lia).
    rewrite lookup_app_r by (rewrite length_take; lia).
    rewrite lookup_drop, length_take. f_equal. lia.
Qed.

Lemma memcpy_from_resize i n m y (l : list Z) :
  (i + slots_for n <= m)%nat -> (i + slots_for n <= length l)%nat ->
  memcpy_from i n (resize m y l) = memcpy_from i n l.
Proof.
  intros Hm Hl. unfold memcpy_from. do 2 f_equal.
  apply list_eq. intros j.
  destruct (decide (j < slots_for n)%nat) as [Hj|Hj].
  - rewrite !lookup_take_lt, !lookup_drop by lia. apply lookup_resize; lia.
  - rewrite !lookup_take_ge by lia. reflexivity.
Qed.

(** ** [set_extra_datum] and [get_extra_datum] *)

Lemma get_extra_datum_holds d ints n i :
  holds_ints d ints ->
  0 <= i -> i + n_more_integers n < Z.of_nat (length ints) ->
  get_extra_datum n i d = Some (memcpy_from (Z.to_nat i) n ints).
Proof.
  intros (H & data & Hbuf & Hs & Hpos) Hi Hlt. unfold get_extra_datum.
  rewrite (n_extra_integers_layout d H data ints Hbuf Hs Hpos).
  destruct (Z.leb_spec 0 i) as [_|?]; [|lia].
  destruct (Z.ltb_spec (i + n_more_integers n) (Z.of_nat (length ints))) as [_|?]; [|lia].
  cbn [andb]. f_equal.
  rewrite (start_idx_ints_layout d H data ints Hbuf Hs), Hpos, Hbuf, layout_split.
  pose proof (length_layout_prefix (to_dof_id (- np H)) H data) as L.
  replace (Z.to_nat (np H + Z.of_nat (length data) + i))
    with (length (to_dof_id (- np H) :: H ++ data) + Z.to_nat i)%nat by lia.
  apply memcpy_from_app.
Qed.

Lemma set_extra_datum_spec d i v :
  wf d -> v <> [] ->
  0 <= i -> i + n_more_integers (length v) < n_extra_integers d ->
  exists d',
    set_extra_datum i v d = Some d' /\
    wf d' /\ size d' = size d /\
    extra_integers d' = memcpy_to (Z.to_nat i) v (extra_integers d) /\
    (Z.to_nat i + slots_for (length v) <= length (extra_integers d))%nat.
Proof.
  intros W Hv Hi Hlt. unfold set_extra_datum.
  destruct (Z.leb_spec 0 i) as [_|?]; [|lia].
  destruct (Z.ltb_spec (i + n_more_integers (length v)) (n_extra_integers d)) as [_|?]; [|lia].
  cbn [andb]. eexists. split; [reflexivity|].
  assert (1 <= length v)%nat as Hv1 by (destruct v; [congruence | cbn [length]; lia]).
  pose proof (slots_for_more (length v) Hv1) as Hk.
  assert (0 <= n_more_integers (length v)) as Hm0 by (unfold n_more_integers; lia).
  destruct (wf_has_extra d W (n_extra_pos_has_extra d i ltac:(lia)))
    as (H & data & ints & Hbuf & Wl).
  pose proof Wl as [Wn Wp Wb Ws Wz]. pose proof (np_pos H) as Hnp.
  specialize (Wp eq_refl).
  rewrite (n_extra_integers_layout d H data ints Hbuf) in * by (auto; lia).
  rewrite (start_idx_ints_layout d H data ints Hbuf) by lia.
  rewrite (extra_integers_layout d H data ints Hbuf) by (auto; lia).
  rewrite Wp, Hbuf, layout_split.
  pose proof (length_layout_prefix (to_dof_id (- np H)) H data) as L.
  replace (Z.to_nat (np H + Z.of_nat (length data) + i))
    with (length (to_dof_id (- np H) :: H ++ data) + Z.to_nat i)%nat by lia.
  rewrite memcpy_to_app.
  set (d' := with_buf d _).
  assert (idx_buf d' = layout true H data (memcpy_to (Z.to_nat i) v ints)) as Hnew
      by (now rewrite (layout_split true)).
  assert (Z.to_nat i + slots_for (length v) <= length ints)%nat as Hin by lia.
  pose proof (length_memcpy_to (Z.to_nat i) v ints Hin) as Lm.
  split; [|split; [|split]].
  - right. exists true, H, data, (memcpy_to (Z.to_nat i) v ints). split; [exact Hnew|].
    apply (wf_layout_ints_change _ _ _ _ Wl). rewrite Lm. lia.
  - rewrite (size_layout d' true H data _ Hnew), (size_layout d true H data _ Hbuf). lia.
  - apply (extra_integers_layout d' H data _ Hnew); auto; lia.
  - exact Hin.
Qed.

(** C6.  For every slot index [i] at which a value of [length v] bytes fits
    (it takes [n_more_integers + 1 = ceil(sizeof(T)/sizeof(dof_id_type))]
    contiguous slots, one for a [char], two for an 8-byte [Real]),
    [set_extra_datum<T>(i, v)] succeeds, [get_extra_datum<T>(i)] then returns
    the bytes of [v] exactly, no slot outside the run changes, and the value
    is still read back after a later [add_extra_integers(m)] that keeps the
    run. *)
Theorem extra_datum_round_trip :
  forall (d : DofObject) (i : Z) (v : list byte),
    wf d -> v <> [] ->
    0 <= i -> i + n_more_integers (length v) < n_extra_integers d ->
    exists d',
      set_extra_datum i v d = Some d' /\
      get_extra_datum (length v) i d' = Some v /\
      (forall j, j < i \/ i + n_more_integers (length v) < j ->
         get_extra_integer d' j = get_extra_integer d j) /\
      (forall m, i + n_more_integers (length v) < m ->
         size d + m + 1 < 2147483648 ->
         get_extra_datum (length v) i (add_extra_integers m d') = Some v).
Proof.
  intros d i v W Hv Hi Hlt.
  destruct (set_extra_datum_spec d i v W Hv Hi Hlt) as (d' & E & W' & S' & X' & Hin).
  exists d'. split; [exact E|].
  assert (1 <= length v)%nat as Hv1 by (destruct v; [congruence | cbn [length]; lia]).
  pose proof (slots_for_more (length v) Hv1) as Hk.
  assert (0 <= n_more_integers (length v)) as Hm0 by (unfold n_more_integers; lia).
  assert (has_extra_integers d' = true) as Hh'.
  { apply (n_extra_pos_has_extra d' 0). rewrite (n_extra_integers_length d' W'), X'.
    rewrite length_memcpy_to by exact Hin. lia. }
  pose proof (wf_holds_ints d' W' Hh') as Hd'. rewrite X' in Hd'.
  assert (length (memcpy_to (Z.to_nat i) v (extra_integers d)) = length (extra_integers d))
    as Lm by (apply length_memcpy_to; exact Hin).
  split; [|split].
  - rewrite (get_extra_datum_holds d' _ (length v) i Hd') by lia.
    f_equal. apply memcpy_round_trip. exact Hin.
  - intros j Hj. rewrite (wf_get d' j W'), (wf_get d j W), X'.
    destruct (Z.leb_spec 0 j) as [?|?]; [|reflexivity].
    apply memcpy_to_frame; [exact Hin | lia].
  - intros m Hm Hbig.
    destruct (add_extra_integers_spec d' m W' ltac:(lia) ltac:(lia)) as (Wm & Xm & _).
    assert (has_extra_integers (add_extra_integers m d') = true) as Hhm.
    { apply (n_extra_pos_has_extra _ 0). rewrite (n_extra_integers_length _ Wm), Xm.
      rewrite length_resize. lia. }
    pose proof (wf_holds_ints _ Wm Hhm) as Hdm. rewrite Xm, X' in Hdm.
    rewrite (get_extra_datum_holds _ _ (length v) i Hdm)
      by (rewrite ?length_resize; lia).
    f_equal. rewrite memcpy_from_resize by lia.
    apply memcpy_round_trip. exact Hin.
Qed.

Definition pi_bytes : list byte := [x18; x2d; x44; x54; xfb; x21; x09; x40].

Definition nine_slots : DofObject :=
  mkDofObject 0 0 (4294967295 :: replicate 9 4294967295).

Lemma wf_nine_slots : wf nine_slots.
Proof.
  right. exists true, [], [], (replicate 9 4294967295). split; [reflexivity|].
  split.
  - discriminate.
  - reflexivity.
  - constructor.
  - constructor.
  - reflexivity.
Defined.

Lemma extra_datum_round_trip_witness :
    exists d',
      set_extra_datum 2 pi_bytes nine_slots = Some d' /\
      get_extra_datum (length pi_bytes) 2 d' = Some pi_bytes /\
      (forall j, j < 2 \/ 2 + n_more_integers (length pi_bytes) < j ->
         get_extra_integer d' j = get_extra_integer nine_slots j) /\
      (forall m, 2 + n_more_integers (length pi_bytes) < m ->
         size nine_slots + m + 1 < 2147483648 ->
         get_extra_datum (length pi_bytes) 2 (add_extra_integers m d') = Some pi_bytes).
Proof.
  apply (extra_datum_round_trip nine_slots 2 pi_bytes).
  - exact wf_nine_slots.
  - discriminate.
  - lia.
  - vm_compute. reflexivity.
Defined.

(** ** The unit tests of dof_object_test.h *)

(** A run of calls, each of which may fail an assertion. *)
Definition run (calls : list (DofObject -> option DofObject)) (d : DofObject)
  : option DofObject :=
  fold_left (fun acc f => match acc with Some x => f x | None => None end)
            calls (Some d).

(** A call that cannot fail. *)
Definition call (f : DofObject -> DofObject) (d : DofObject) : option DofObject :=
  Some (f d).

(** [set_extra_integer(i, i)] for [i = first, ..., first + count - 1]. *)
Definition set_own_index (first count : nat) : list (DofObject -> option DofObject) :=
  map (fun i => set_extra_integer (Z.of_nat i) (Z.of_nat i)) (seq first count).

(** [get_extra_integer(i)] for [i = 0, ..., count - 1]. *)
Definition read_integers (count : nat) (d : DofObject) : list (option Z) :=
  map (fun i => get_extra_integer d (Z.of_nat i)) (seq 0 count).

(** [testManualDofCalculation]: indices within a variable group follow
    [base + var_in_vg * ncomp + comp]. *)
Example testManualDofCalculation :
  forall d : DofObject,
    let aobject :=
      run [set_n_vars_per_group 0 [2; 3]; set_n_vars_per_group 1 [2; 3];
           set_n_comp_group 0 0 1; set_n_comp_group 0 1 3;
           set_n_comp_group 1 0 2; set_n_comp_group 1 1 1;
           set_vg_dof_base 0 0 0; set_vg_dof_base 0 1 120;
           set_vg_dof_base 1 0 20; set_vg_dof_base 1 1 220]
          (set_n_systems 2 (set_buffer d [])) in
    option_map idx_buf aobject = Some [2; 6; 513; 0; 771; 120; 514; 20; 769; 220] /\
    option_map (fun a => dof_number a 0 0 0) aobject = Some (Some 0) /\
    option_map (fun a => dof_number a 0 1 0) aobject = Some (Some (0 + 1 * 1 + 0)) /\
    option_map (fun a => dof_number a 0 4 2) aobject = Some (Some (120 + 2 * 3 + 2)) /\
    option_map (fun a => dof_number a 1 2 0) aobject = Some (Some (220 + 0 * 3 + 0)).
Proof.
  intros d aobject. subst aobject. vm_compute. repeat split; reflexivity.
Qed.

(** [testSetNVariableGroups]. *)
Example testSetNVariableGroups :
  forall d : DofObject,
    let aobject :=
      run [set_n_vars_per_group 0 [10; 20; 30]; set_n_vars_per_group 1 [10; 20; 30]]
          (set_n_systems 2 (set_buffer d [])) in
    option_map (fun a => (n_vars a 0, n_var_groups a 0, n_vars a 1, n_var_groups a 1))
               aobject = Some (60, 3, 60, 3) /\
    option_map (fun a => map (n_vars_group a 1) [0; 1; 2]) aobject = Some [10; 20; 30].
Proof.
  intros d aobject. subst aobject. vm_compute. split; reflexivity.
Qed.

(** [testAddSystemExtraInts]. *)
Example testAddSystemExtraInts :
  forall d : DofObject,
    let a1 := add_system (add_extra_integers 1 (set_buffer d [])) in
    let a2 := add_system (add_extra_integers 4 a1) in
    let a3 := run (set_own_index 0 4 ++ [call (add_extra_integers 7)]) a2 in
    let a4 := run (set_own_index 0 4
                     ++ [call (add_extra_integers 7); call add_system]
                     ++ set_own_index 4 3) a2 in
    (has_extra_integers a1, n_extra_integers a1, n_systems a1, n_vars a1 0)
      = (true, 1, 1, 0) /\
    (has_extra_integers a2, n_extra_integers a2, n_systems a2, n_vars a2 0, n_vars a2 1)
      = (true, 4, 2, 0, 0) /\
    read_integers 4 a2 = replicate 4 (Some invalid_id) /\
    option_map (read_integers 7) a3
      = Some ([Some 0; Some 1; Some 2; Some 3] ++ replicate 3 (Some invalid_id)) /\
    option_map (fun a => (n_extra_integers a, n_systems a)) a4 = Some (7, 3) /\
    option_map (read_integers 7) a4
      = Some [Some 0; Some 1; Some 2; Some 3; Some 4; Some 5; Some 6].
Proof.
  intros d a1 a2 a3 a4. subst a1 a2 a3 a4. vm_compute. repeat split; reflexivity.
Qed.

(** [testSetNSystemsExtraInts]. *)
Example testSetNSystemsExtraInts :
  forall d : DofObject,
    let a1 := set_n_systems 10 (add_extra_integers 5 (set_buffer d [])) in
    let a2 := run (set_own_index 0 5 ++ [call (add_extra_integers 9)]) a1 in
    let a3 := run (set_own_index 0 5
                     ++ [call (add_extra_integers 9); call (set_n_systems 6)]) a1 in
    (has_extra_integers a1, n_extra_integers a1, n_systems a1) = (true, 5, 10) /\
    read_integers 5 a1 = replicate 5 (Some invalid_id) /\
    option_map (read_integers 9) a2
      = Some ([Some 0; Some 1; Some 2; Some 3; Some 4] ++ replicate 4 (Some invalid_id)) /\
    option_map (fun a => (n_extra_integers a, n_systems a)) a3 = Some (9, 6) /\
    option_map (read_integers 9) a3
      = Some ([Some 0; Some 1; Some 2; Some 3; Some 4] ++ replicate 4 (Some invalid_id)).
Proof.
  intros d a1 a2 a3. subst a1 a2 a3. vm_compute. repeat split; reflexivity.
Qed.

(** [testSetNVariableGroupsExtraInts]. *)
Example testSetNVariableGroupsExtraInts :
  forall d : DofObject,
    let aobject :=
      run (set_own_index 0 5
             ++ [set_n_vars_per_group 0 [10; 20; 30];
                 set_n_vars_per_group 1 [10; 20; 30]])
          (add_extra_integers 5 (set_n_systems 2 (set_buffer d []))) in
    option_map (fun a => (n_vars a 0, n_var_groups a 0, n_vars a 1, n_var_groups a 1,
                          n_extra_integers a)) aobject = Some (60, 3, 60, 3, 5) /\
    option_map (read_integers 5) aobject
      = Some [Some 0; Some 1; Some 2; Some 3; Some 4].
Proof.
  intros d aobject. subst aobject. vm_compute. split; reflexivity.
Qed.

(** [testAddExtraData] with 4-byte ids and an 8-byte [Real]: a [char] in
    slot 1, [pi] in slots 2 and 3, plain integers elsewhere, then a shrink to
    six slots. *)
Example testAddExtraData :
  forall d : DofObject,
    let aobject :=
      run [set_extra_integer 0 0; set_extra_datum 1 [x31]; set_extra_datum 2 pi_bytes;
           set_extra_integer 4 4; set_extra_integer 5 5; set_extra_integer 6 6;
           set_extra_integer 7 7; set_extra_integer 8 8;
           call (add_extra_integers 6)]
          (add_extra_integers 9 (set_buffer d [])) in
    option_map (fun a => (has_extra_integers a, n_extra_integers a)) aobject
      = Some (true, 6) /\
    option_map (get_extra_datum 1 1) aobject = Some (Some [x31]) /\
    option_map (get_extra_datum 8 2) aobject = Some (Some pi_bytes) /\
    option_map (fun a => map (get_extra_integer a) [0; 4; 5]) aobject
      = Some [Some 0; Some 4; Some 5].
Proof.
  intros d aobject. subst aobject. vm_compute. repeat split; reflexivity.
Qed.

(** The index of a component is the DOF base of its variable group plus the
    offset of the variable in the group times the components per variable,
    plus the component: nothing but the two words of the group is read. *)
Lemma dof_number_formula d s var comp r :
  dof_number d s var comp = Some r ->
  exists vg vig,
    var_to_vg_and_offset d s var = Some (vg, vig) /\
    r = if vg_dof_base d s vg =? invalid_id then invalid_id
        else to_dof_id (vg_dof_base d s vg + vig * n_comp_group d s vg + comp).
Proof.
  unfold dof_number, dof_number_vg.
  destruct (_ && _); [|discriminate].
  destruct (var_to_vg_and_offset d s var) as [[vg vig]|]; [|discriminate].
  intros [= <-]. exists vg, vig. split; reflexivity.
Qed.

(** The variables of the groups before group [vg] of system [s]. *)
Definition vars_before (d : DofObject) (s : Z) (vg : nat) : Z :=
  fold_left (fun val k => val + n_vars_group d s (Z.of_nat k)) (seq 0 vg) 0.

Lemma vars_before_S d s vg :
  vars_before d s (S vg) = vars_before d s vg + n_vars_group d s (Z.of_nat vg).
Proof. unfold vars_before. now rewrite seq_S, fold_left_app. Qed.

(** The group [var_to_vg_and_offset] finds is the first one whose variables
    end behind [var], and the offset counts from the start of that group. *)
Lemma var_to_vg_and_offset_from_spec d s var groups : forall (vg0 : nat) vg vig,
  var_to_vg_and_offset_from d s var groups (Z.of_nat vg0) (vars_before d s vg0)
    = Some (vg, vig) ->
  exists k : nat,
    vg = Z.of_nat k /\ (vg0 <= k < vg0 + groups)%nat /\
    vig = var - vars_before d s k /\
    var < vars_before d s (S k) /\
    forall j, (vg0 <= j < k)%nat -> vars_before d s (S j) <= var.
Proof.
  induction groups as [|groups IH]; intros vg0 vg vig; cbn; [discriminate|].
  rewrite <- vars_before_S.
  destruct (Z.ltb_spec var (vars_before d s (S vg0))) as [Hlt|Hge].
  - intros [= <- <-]. exists vg0. repeat split; trivial; try lia.
  - replace (Z.of_nat vg0 + 1) with (Z.of_nat (S vg0)) by lia.
    intros H. apply IH in H as (k & -> & Hk & -> & Hlt & Hbefore).
    exists k. repeat split; trivial; try lia.
    intros j Hj. destruct (Nat.eq_dec j vg0) as [->|Hne]; [exact Hge|].
    apply Hbefore. lia.
Qed.

(** C1.  [dof_number(s, var, comp)] is computed from the packed words of
    the variable groups alone: the group of [var] is the first one whose
    variables end behind [var], [var_in_group] counts from the start of that
    group, and the result is
    [vg_dof_base + var_in_group * n_comp_group + comp] (as a [dof_id_type];
    an invalid base gives the invalid id).  So the "Jens Eftang" buffer
    [{2, 8, 257, 0, 257, 96, 257, 192, 257, 0}] installed by [set_buffer]
    gives [dof_number(0,0,0) = 0], [dof_number(0,1,0) = 96],
    [dof_number(0,2,0) = 192] and [dof_number(1,0,0) = 0], and the object
    of [testManualDofCalculation] gives [dof_number(0,1,0) = 0 + 1*1 + 0],
    [dof_number(0,4,2) = 120 + 2*3 + 2] and
    [dof_number(1,2,0) = 220 + 0*3 + 0]. *)
Theorem jens_eftang_regression :
  (forall (d : DofObject) (s var comp r : Z),
     dof_number d s var comp = Some r ->
     exists vg : nat,
       let var_in_group := var - vars_before d s vg in
       let sum := vg_dof_base d s (Z.of_nat vg)
                  + var_in_group * n_comp_group d s (Z.of_nat vg) + comp in
       Z.of_nat vg < n_var_groups d s /\
       (forall k, (k < vg)%nat -> vars_before d s (S k) <= var) /\
       var < vars_before d s (S vg) /\
       r = (if vg_dof_base d s (Z.of_nat vg) =? invalid_id then invalid_id
            else to_dof_id sum) /\
       (vg_dof_base d s (Z.of_nat vg) <> invalid_id ->
        0 <= sum < dof_id_modulus -> r = sum)) /\
  (forall d : DofObject,
     let aobject := set_buffer d [2; 8; 257; 0; 257; 96; 257; 192; 257; 0] in
     dof_number aobject 0 0 0 = Some 0 /\
     dof_number aobject 0 1 0 = Some 96 /\
     dof_number aobject 0 2 0 = Some 192 /\
     dof_number aobject 1 0 0 = Some 0) /\
  (forall d : DofObject,
     let aobject :=
       run [set_n_vars_per_group 0 [2; 3]; set_n_vars_per_group 1 [2; 3];
            set_n_comp_group 0 0 1; set_n_comp_group 0 1 3;
            set_n_comp_group 1 0 2; set_n_comp_group 1 1 1;
            set_vg_dof_base 0 0 0; set_vg_dof_base 0 1 120;
            set_vg_dof_base 1 0 20; set_vg_dof_base 1 1 220]
           (set_n_systems 2 (set_buffer d [])) in
     option_map (fun a => dof_number a 0 0 0) aobject = Some (Some 0) /\
     option_map (fun a => dof_number a 0 1 0) aobject
       = Some (Some (0 + 1 * 1 + 0)) /\
     option_map (fun a => dof_number a 0 4 2) aobject
       = Some (Some (120 + 2 * 3 + 2)) /\
     option_map (fun a => dof_number a 1 2 0) aobject
       = Some (Some (220 + 0 * 3 + 0))).
Proof.
  split; [|split].
  - intros d s var comp r. unfold dof_number, dof_number_vg.
    destruct (_ && _); [|discriminate].
    destruct (var_to_vg_and_offset d s var) as [[vg vig]|] eqn:Hvg;
      [|discriminate].
    intros [= <-]. unfold var_to_vg_and_offset in Hvg.
    apply (var_to_vg_and_offset_from_spec d s var _ 0) in Hvg
      as (k & -> & Hk & -> & Hlt & Hbefore).
    exists k. cbv zeta. split; [|split; [|split; [|split]]].
    + assert (0 < Z.to_nat (n_var_groups d s))%nat by lia. lia.
    + intros j Hj. apply Hbefore. lia.
    + exact Hlt.
    + reflexivity.
    + intros Hbase Hsum.
      destruct (Z.eqb_spec (vg_dof_base d s (Z.of_nat k)) invalid_id);
        [contradiction|].
      unfold to_dof_id. now apply Z.mod_small.
  - intros d aobject. subst aobject. vm_compute. repeat split; reflexivity.
  - intros d aobject. subst aobject. vm_compute. repeat split; reflexivity.
Qed.

(** The second buffer of the same test. *)
Example jens_eftang_second_buffer :
  forall d : DofObject,
    let aobject := set_buffer d [2; 8; 257; 1; 257; 97; 257; 193; 257; 1] in
    dof_number aobject 0 0 0 = Some 1 /\
    dof_number aobject 0 1 0 = Some 97 /\
    dof_number aobject 0 2 0 = Some 193 /\
    dof_number aobject 1 0 0 = Some 1.
Proof.
  intros d aobject. subst aobject. vm_compute. repeat split; reflexivity.
Qed.

End DofObject.


(* ===================================================================== *)
(** * Pyramid (src/geom/cell_pyramid.C) *)
(* ===================================================================== *)

Module Pyramid.
Local Open Scope Z_scope.

(** [Pyramid::num_sides], [num_edges]. *)
Definition num_sides : nat := 5.
Definition num_edges : nat := 8.

(** [Pyramid::edge_sides_map[8][2]]. *)
Definition edge_sides_map (e : nat) : list nat :=
  match e with
  | 0 => [0; 4] | 1 => [1; 4] | 2 => [2; 4] | 3 => [3; 4]
  | 4 => [0; 3] | 5 => [0; 1] | 6 => [1; 2] | 7 => [2; 3]
  | _ => []
  end%nat.

(** [Pyramid::adjacent_edges_map[5][4]]. *)
Definition adjacent_edges_map (n : nat) : list nat :=
  match n with
  | 0 => [0; 3; 4; 99] | 1 => [0; 1; 5; 99] | 2 => [1; 2; 6; 99]
  | 3 => [2; 3; 7; 99] | 4 => [4; 5; 6; 7]
  | _ => []
  end%nat.

Section Key.

(** [Pyramid5::side_nodes_map[5][4]]: the table lives in cell_pyramid5.C,
    which is not among the sources; it is a parameter here. *)
Variable side_nodes_map : nat -> nat -> nat.

(** [Utility::hashword] (utility.h, not among the sources): any function of
    the words hashed. *)
Variable hashword : list Z -> Z.

(** Modelled from the spec: [Elem::compute_key] (elem.h is not among the
    sources).  The spec asks for "an order-independent hash/key for a given
    side's node set": the key is the hash of the node ids put in increasing
    order. *)
Definition compute_key (ids : list Z) : Z := hashword (merge_sort Z.le ids).

(** A pyramid as far as [key] reads it: [this->node_id(i)]. *)
Record Elem := mkElem { node_id : nat -> Z }.

(** [Pyramid::key(s)]; [None] is [libmesh_error_msg("Invalid side s = ...")]. *)
Definition key (e : Elem) (s : nat) : option Z :=
  match s with
  | 0 | 1 | 2 | 3 =>
      Some (compute_key [node_id e (side_nodes_map s 0);
                         node_id e (side_nodes_map s 1);
                         node_id e (side_nodes_map s 2)])
  | 4 =>
      Some (compute_key [node_id e (side_nodes_map s 0);
                         node_id e (side_nodes_map s 1);
                         node_id e (side_nodes_map s 2);
                         node_id e (side_nodes_map s 3)])
  | _ => None
  end%nat.

(** [Pyramid::low_order_key(s)]. *)
Definition low_order_key (e : Elem) (s : nat) : option Z :=
  match s with
  | 0 | 1 | 2 | 3 =>
      Some (compute_key [node_id e (side_nodes_map s 0);
                         node_id e (side_nodes_map s 1);
                         node_id e (side_nodes_map s 2)])
  | 4 =>
      Some (compute_key [node_id e (side_nodes_map s 0);
                         node_id e (side_nodes_map s 1);
                         node_id e (side_nodes_map s 2);
                         node_id e (side_nodes_map s 3)])
  | _ => None
  end%nat.

(** [Pyramid::local_side_node(side, side_node)]; [None] is a failed
    assertion. *)
Definition local_side_node (side side_node : nat) : option nat :=
  if (side <? num_sides)%nat && (side_node <? 4)%nat
     && ((side =? 4)%nat || (side_node <? 3)%nat)
  then Some (side_nodes_map side side_node)
  else None.

(** [Pyramid::is_child_on_side(c, s)]. *)
Definition is_child_on_side (c s : nat) : bool :=
  existsb (fun i => (side_nodes_map s i =? c)%nat) (seq 0 4).

(** [Pyramid::is_edge_on_side(e, s)]. *)
Definition is_edge_on_side (e s : nat) : bool :=
  (nth 0 (edge_sides_map e) 0 =? s)%nat || (nth 1 (edge_sides_map e) 0 =? s)%nat.

(** [Pyramid::sides_on_edge(e)]. *)
Definition sides_on_edge (e : nat) : list nat :=
  [nth 0 (edge_sides_map e) 0%nat; nth 1 (edge_sides_map e) 0%nat].

(** The node ids of side [s] in the order of the side table: three for a
    triangular side, four for the base. *)
Definition side_node_ids (e : Elem) (s : nat) : list Z :=
  match s with
  | 0 | 1 | 2 | 3 =>
      map (fun k => node_id e (side_nodes_map s k)) (seq 0 3)
  | 4 => map (fun k => node_id e (side_nodes_map s k)) (seq 0 4)
  | _ => []
  end%nat.

Lemma compute_key_Permutation (l l' : list Z) :
  l ≡ₚ l' -> compute_key l = compute_key l'.
Proof.
  intros Hp. unfold compute_key. f_equal.
  apply (StronglySorted_unique Z.le).
  - apply StronglySorted_merge_sort; apply _.
  - apply StronglySorted_merge_sort; apply _.
  - now rewrite !merge_sort_Permutation.
Qed.

Lemma key_side_node_ids e s :
  (s < 5)%nat -> key e s = Some (compute_key (side_node_ids e s)).
Proof.
  intros Hs. do 5 (destruct s as [|s]; [reflexivity|]). lia.
Qed.

Lemma low_order_key_key e s : low_order_key e s = key e s.
Proof. reflexivity. Qed.

Lemma rotate_Permutation (k : nat) (l : list Z) : rotate k l ≡ₚ l.
Proof.
  unfold rotate. rewrite Permutation_app_comm. now rewrite take_drop.
Qed.

(** C7.  Two pyramids that share a side list the same node ids on it, in
    whatever order: then both compute the same key.  Rotations and
    reflections of the side's numbering are such orders.  A triangular side
    ([s < 4]) hashes exactly its three node ids, the base ([s = 4]) its
    four. *)
Theorem key_renumbering_invariant :
  forall (e e' : Elem) (s s' : nat),
    (s < 5)%nat -> (s' < 5)%nat ->
    (side_node_ids e' s' ≡ₚ side_node_ids e s ->
       key e' s' = key e s /\ low_order_key e' s' = low_order_key e s) /\
    (forall k, side_node_ids e' s' = rotate k (side_node_ids e s) ->
       key e' s' = key e s) /\
    (side_node_ids e' s' = reverse (side_node_ids e s) -> key e' s' = key e s) /\
    ((s < 4)%nat ->
       key e s = Some (compute_key [node_id e (side_nodes_map s 0);
                                    node_id e (side_nodes_map s 1);
                                    node_id e (side_nodes_map s 2)])) /\
    key e 4 = Some (compute_key [node_id e (side_nodes_map 4 0);
                                 node_id e (side_nodes_map 4 1);
                                 node_id e (side_nodes_map 4 2);
                                 node_id e (side_nodes_map 4 3)]).
Proof.
  intros e e' s s' Hs Hs'.
  assert (side_node_ids e' s' ≡ₚ side_node_ids e s -> key e' s' = key e s) as Hperm.
  { intros Hp. rewrite !key_side_node_ids by assumption. f_equal.
    now apply compute_key_Permutation. }
  split; [|split; [|split; [|split]]].
  - intros Hp. split; exact (Hperm Hp).
  - intros k E. apply Hperm. rewrite E. apply rotate_Permutation.
  - intros E. apply Hperm. rewrite E. apply reverse_Permutation.
  - intros H4. do 4 (destruct s as [|s]; [reflexivity|]). lia.
  - reflexivity.
Qed.

End Key.

(** The side table of [Pyramid5] as libMesh ships it, for the examples. *)
Definition pyramid5_side_nodes_map (s k : nat) : nat :=
  nth k (nth s [[0; 1; 4; 99]; [1; 2; 4; 99]; [2; 3; 4; 99]; [3; 0; 4; 99];
                [0; 3; 2; 1]] [])%nat 99%nat.

(** Two pyramids glued along their bases: node ids 10..13 on the base, apex
    14 above and apex 15 below; the lower pyramid numbers the base the other
    way round. *)
Definition upper : Elem :=
  mkElem (fun i => nth i [10; 11; 12; 13; 14] 0).
Definition lower : Elem :=
  mkElem (fun i => nth i [10; 13; 12; 11; 15] 0).

Lemma key_renumbering_invariant_witness :
  let m := pyramid5_side_nodes_map in
  let h := fun l : list Z => fold_left Z.lxor l 0 in
    side_node_ids m upper 4 = [10; 13; 12; 11] /\
    side_node_ids m lower 4 = [10; 11; 12; 13] /\
    key m h lower 4 = key m h upper 4 /\
    low_order_key m h lower 4 = low_order_key m h upper 4 /\
    key m h upper 4 = Some (compute_key h [10; 13; 12; 11]).
Proof.
  intros m h.
  pose proof (key_renumbering_invariant m h upper lower 4 4 ltac:(lia) ltac:(lia))
    as (Hperm & _ & _ & _ & Hbase).
  assert (side_node_ids m lower 4 ≡ₚ side_node_ids m upper 4) as Hp.
  { change ([10; 11; 12; 13] ≡ₚ [10; 13; 12; 11]).
    apply perm_skip. apply (Permutation_rev [11; 12; 13]). }
  destruct (Hperm Hp) as [Hk Hl].
  split; [reflexivity|]. split; [reflexivity|].
  split; [exact Hk|]. split; [exact Hl|]. exact Hbase.
Defined.

(** ** The reference element and the static tables *)

(** [Pyramid::_master_points]. *)
Definition master_points : list (R * R * R) :=
  [(-1, -1, 0); (1, -1, 0); (1, 1, 0); (-1, 1, 0); (0, 0, 1);
   (0, -1, 0); (1, 0, 0); (0, 1, 0); (-1, 0, 0);
   (0, -(1/2), 1/2); (1/2, 0, 1/2); (0, 1/2, 1/2); (-(1/2), 0, 1/2);
   (0, 0, 0)]%R.

Definition Rleb (a b : R) : bool := if Rle_dec a b then true else false.

(** [Pyramid::on_reference_element(p, eps)]. *)
Definition on_reference_element (p : R * R * R) (eps : R) : bool :=
  let '(xi, eta, zeta) := p in
  (Rleb (- eta - 1 + zeta) (0 + eps)
   && Rleb (xi - 1 + zeta) (0 + eps)
   && Rleb (eta - 1 + zeta) (0 + eps)
   && Rleb (- xi - 1 + zeta) (0 + eps)
   && Rleb (0 - eps) zeta)%R.

Lemma Rleb_true a b : (a <= b)%R -> Rleb a b = true.
Proof. intros H. unfold Rleb. now destruct (Rle_dec a b). Qed.

(** X1.  Every master point of the pyramid is on the reference element,
    whatever the tolerance [eps >= 0]. *)
Theorem master_points_on_reference_element (eps : R) :
  (0 <= eps)%R ->
  Forall (fun p => on_reference_element p eps = true) master_points.
Proof.
  intros Heps. unfold master_points.
  repeat (apply Forall_cons; split;
          [unfold on_reference_element; rewrite !Rleb_true by lra; reflexivity|]).
  apply Forall_nil_2.
Qed.

Lemma master_points_on_reference_element_witness :
  Forall (fun p => on_reference_element p 0 = true) master_points.
Proof. apply master_points_on_reference_element. lra. Defined.

(** [Pyramid::edges_adjacent_to_node(n)]; which nodes are vertices and
    which are edge nodes is for the derived classes to say.  [None] is the
    failed assertion that other nodes are face nodes. *)
Definition edges_adjacent_to_node (is_vertex is_edge is_face : nat -> bool)
    (n_vertices : nat) (n : nat) : option (list nat) :=
  if is_vertex n then
    let trim := if (n <? 4)%nat then 1%nat else 0%nat in
    Some (take (4 - trim) (adjacent_edges_map n))
  else if is_edge n then Some [(n - n_vertices)%nat]
  else if is_face n then Some []
  else None.

(** X2.  The edges adjacent to a vertex of the pyramid are three for a
    vertex of the base and four for the apex, all different and all edges
    of the pyramid: the entry 99 that fills the table is never returned. *)
Theorem edges_adjacent_to_vertex (is_vertex is_edge is_face : nat -> bool)
    (n_vertices n : nat) :
  (n < 5)%nat -> is_vertex n = true ->
  exists edges,
    edges_adjacent_to_node is_vertex is_edge is_face n_vertices n = Some edges /\
    length edges = (if (n <? 4)%nat then 3 else 4)%nat /\
    NoDup edges /\
    Forall (fun e => (e < num_edges)%nat) edges.
Proof.
  intros Hn Hv. unfold edges_adjacent_to_node. rewrite Hv.
  do 5 (destruct n as [|n];
        [eexists; split; [reflexivity|]; cbn; split; [reflexivity|];
         split; [apply NoDup_ListNoDup; repeat constructor; cbn; lia
                |unfold num_edges; repeat constructor; lia]|]).
  lia.
Qed.

Lemma edges_adjacent_to_vertex_witness :
  edges_adjacent_to_node (fun n => (n <? 5)%nat) (fun _ => false)
                         (fun _ => false) 5 4 = Some [4; 5; 6; 7]%nat /\
  edges_adjacent_to_node (fun n => (n <? 5)%nat) (fun _ => false)
                         (fun _ => false) 5 0 = Some [0; 3; 4]%nat.
Proof.
  destruct (edges_adjacent_to_vertex (fun n => (n <? 5)%nat) (fun _ => false)
              (fun _ => false) 5 4 ltac:(lia) eq_refl) as (e4 & H4 & _).
  destruct (edges_adjacent_to_vertex (fun n => (n <? 5)%nat) (fun _ => false)
              (fun _ => false) 5 0 ltac:(lia) eq_refl) as (e0 & H0 & _).
  split; reflexivity.
Defined.

(** X3.  [is_edge_on_side] and [sides_on_edge] read the same table: an
    edge is on a side exactly when the side is one of the two sides on the
    edge, which are different sides of the pyramid; a triangular side has
    three edges and the base has four. *)
Theorem edges_and_sides_agree :
  Forall (fun e => forall s,
            is_edge_on_side e s = true <-> s ∈ sides_on_edge e)
         (seq 0 num_edges) /\
  Forall (fun e => NoDup (sides_on_edge e) /\
                   Forall (fun s => (s < num_sides)%nat) (sides_on_edge e))
         (seq 0 num_edges) /\
  map (fun s => length (List.filter (fun e => is_edge_on_side e s)
                                    (seq 0 num_edges)))
      (seq 0 num_sides) = [3; 3; 3; 3; 4]%nat.
Proof.
  split; [|split; [|reflexivity]]; unfold num_edges; cbn [seq].
  - repeat (apply Forall_cons; split;
            [intros s; unfold is_edge_on_side, sides_on_edge; cbn -[Nat.eqb];
             rewrite orb_true_iff, !Nat.eqb_eq, !elem_of_cons, elem_of_nil;
             intuition congruence|]).
    apply Forall_nil_2.
  - repeat (apply Forall_cons; split;
            [split; [apply NoDup_ListNoDup; repeat constructor; cbn; lia
                    |unfold num_sides; repeat constructor; lia]|]).
    apply Forall_nil_2.
Qed.

End Pyramid.


(* ===================================================================== *)
(** * ReferenceElem (src/geom/reference_elem.C) *)
(* ===================================================================== *)

Module ReferenceElem.
Local Open Scope string_scope.

(** [enum ElemType] (the declaration, enum_elem_type.h, is not among the
    sources): the enumerators are the ones reference_elem.C names; every
    other element type of the library (infinite elements, [NODEELEM], ...) is
    an [OTHER_ELEM], and [INVALID_ELEM] is the sentinel that closes the
    enumeration. *)
Inductive ElemType : Set :=
| EDGE2 | EDGE3 | EDGE4
| TRI3 | TRI6 | TRI7
| QUAD4 | QUAD8 | QUAD9
| HEX8 | HEX20 | HEX27
| TET4 | TET10 | TET14
| PRISM6 | PRISM15 | PRISM18 | PRISM20 | PRISM21
| PYRAMID5 | PYRAMID13 | PYRAMID14 | PYRAMID18
| TRISHELL3 | QUADSHELL4 | QUADSHELL8
| OTHER_ELEM (n : nat)
| INVALID_ELEM.

Definition ElemType_eq_dec (a b : ElemType) : {a = b} + {a <> b}.
Proof. decide equality. apply Nat.eq_dec. Defined.

#[global] Instance ElemType_eq_decision : EqDecision ElemType := ElemType_eq_dec.

(** Errors: a failed [libmesh_assert], or [libmesh_error_msg] with its text. *)
Inductive result (A : Type) : Type :=
| Ok (a : A)
| Error (msg : string).
Arguments Ok {A} a.
Arguments Error {A} msg.

(** ** Streams

    The embedded data strings are read token by token ([in >> x]) and line by
    line ([std::getline]); a stream is modelled by its lines, each the list
    of its tokens. *)
Inductive Token : Type :=
| TWord (w : string)
| TNum (n : nat)
| TReal (r : R).

Definition istream := list (list Token).

(** [in >> x]: the next token, wherever its line starts. *)
Fixpoint next_token (i : istream) : option (Token * istream) :=
  match i with
  | [] => None
  | [] :: rest => next_token rest
  | (t :: line) :: rest => Some (t, line :: rest)
  end.

(** [in >> dummy] for a [std::string]: any token. *)
Definition read_string (i : istream) : option istream :=
  match next_token i with
  | Some (_, i') => Some i'
  | None => None
  end.

(** [in >> n] for an [unsigned int]. *)
Definition read_uint (i : istream) : option (nat * istream) :=
  match next_token i with
  | Some (TNum n, i') => Some (n, i')
  | _ => None
  end.

(** [in >> x] for a [double]. *)
Definition read_double (i : istream) : option (R * istream) :=
  match next_token i with
  | Some (TNum n, i') => Some (INR n, i')
  | Some (TReal r, i') => Some (r, i')
  | _ => None
  end.

(** [std::getline(in, dummy)]: drop what is left of the current line. *)
Definition getline (i : istream) : istream := tl i.

(** ** The cache *)

Record Node := mkNode { node_x : R; node_y : R; node_z : R; node_id : nat }.

Record Elem := mkElem { elem_type : ElemType; elem_nodes : list Node }.

Record SingletonCache := mkCache {
  node_list : list Node;
  elem_list : list Elem
}.

(** The file-scope variables of reference_elem.C.  [ref_elem_map] is an array
    of [INVALID_ELEM] pointers, null at start; [None] is the null pointer. *)
Record State := mkState {
  singleton_cache : option SingletonCache;
  ref_elem_file : list (ElemType * istream);
  ref_elem_map : ElemType -> option Elem
}.

(** The state at program start: static storage is zeroed. *)
Definition start : State :=
  {| singleton_cache := None; ref_elem_file := []; ref_elem_map := fun _ => None |}.

Section Get.

(** [static_cast<unsigned int>(type)]: the values of the enumerators. *)
Variable elem_type_code : ElemType -> nat.

(** [Elem::type_to_n_nodes_map] (elem.C is not among the sources). *)
Variable type_to_n_nodes_map : nat -> nat.

(** [Utility::enum_to_string] (not among the sources). *)
Variable enum_to_string : ElemType -> string.

(** How [operator<<] prints an [ElemType]. *)
Variable show_elem_type : ElemType -> string.

(** The strings of reference_elem.data, which is not among the sources:
    [ElemDataStrings t] is the string the table gives type [t]
    ([one_edge] for [EDGE2], [one_edge3] for [EDGE3], ...). *)
Variable ElemDataStrings : ElemType -> istream.

Definition assertion_failed : string := "Assertion failed".
Definition stream_failed : string := "ERROR while creating element singleton!".

(** The identity connectivity: [n_nodes] reads of [nn], each asserted to be
    its own position. *)
Fixpoint read_identity_map (n count : nat) (i : istream) : result istream :=
  match count with
  | O => Ok i
  | S count' =>
      match read_uint i with
      | Some (nn, i') =>
          if (n =? nn)%nat then read_identity_map (S n) count' i'
          else Error assertion_failed
      | None => Error stream_failed
      end
  end.

(** The coordinates: one new [Node] per line. *)
Fixpoint read_nodes (n count : nat) (i : istream) : result (list Node * istream) :=
  match count with
  | O => Ok ([], i)
  | S count' =>
      match read_double i with
      | Some (x, i1) =>
          match read_double i1 with
          | Some (y, i2) =>
              match read_double i2 with
              | Some (z, i3) =>
                  match read_nodes (S n) count' i3 with
                  | Ok (nodes, i4) => Ok (mkNode x y z n :: nodes, i4)
                  | Error msg => Error msg
                  end
              | None => Error stream_failed
              end
          | None => Error stream_failed
          end
      | None => Error stream_failed
      end
  end.

(** The header of a data string: the counts read before the element. *)
Definition read_header (i : istream) : result (nat * istream) :=
  match read_string i with
  | None => Error stream_failed
  | Some i0 =>
      match read_uint i0 with
      | None => Error stream_failed
      | Some (n_elem, i1) =>
          if negb (n_elem =? 1)%nat then Error assertion_failed
          else
            match read_uint (getline i1) with
            | None => Error stream_failed
            | Some (n_nodes, i2) =>
                let skip (o : option istream) : option istream :=
                  match o with
                  | Some j => option_map getline (read_string j)
                  | None => None
                  end in
                match skip (skip (skip (skip (Some (getline i2))))) with
                | None => Error stream_failed
                | Some i6 =>
                    match read_uint i6 with
                    | None => Error stream_failed
                    | Some (n_elem', i7) =>
                        if negb (n_elem' =? 1)%nat then Error assertion_failed
                        else Ok (n_nodes, getline i7)
                    end
                end
            end
      end
  end.

(** [read_ref_elem(type_in, in)]; the cache is there already (asserted). *)
Definition read_ref_elem (type_in : ElemType) (i : istream) (st : State)
  : result State :=
  match singleton_cache st with
  | None => Error assertion_failed
  | Some cache =>
      match read_header i with
      | Error msg => Error msg
      | Ok (n_nodes, i1) =>
          match read_uint i1 with
          | None => Error stream_failed
          | Some (elem_type_read, i2) =>
              if negb ((elem_type_read <? elem_type_code INVALID_ELEM)%nat
                       && (elem_type_read =? elem_type_code type_in)%nat
                       && (n_nodes =? type_to_n_nodes_map elem_type_read)%nat)
              then Error assertion_failed
              else
                match read_identity_map 0 n_nodes i2 with
                | Error msg => Error msg
                | Ok i3 =>
                    match read_nodes 0 n_nodes i3 with
                    | Error msg => Error msg
                    | Ok (nodes, _) =>
                        let uelem := mkElem type_in nodes in
                        Ok {| singleton_cache :=
                                Some {| node_list := node_list cache ++ nodes;
                                        elem_list := elem_list cache ++ [uelem] |};
                              ref_elem_file := ref_elem_file st;
                              ref_elem_map :=
                                fun t => if ElemType_eq_dec t type_in
                                         then Some uelem
                                         else ref_elem_map st t |}
                    end
                end
          end
      end
  end.

(** The element types the table of [init_ref_elem_table] names, in the order
    of the assignments. *)
Definition reference_types : list ElemType :=
  [EDGE2; EDGE3; EDGE4; TRI3; TRI6; TRI7; QUAD4; QUAD8; QUAD9;
   HEX8; HEX20; HEX27; TET4; TET10; TET14;
   PRISM6; PRISM15; PRISM18; PRISM20; PRISM21;
   PYRAMID5; PYRAMID13; PYRAMID14; PYRAMID18].

(** [ref_elem_file[k] = v] on the [std::map]: the entries are kept in the
    order of their keys, the enumerators' values, and an entry with the same
    key is replaced. *)
Fixpoint map_insert (k : ElemType) (v : istream) (m : list (ElemType * istream))
  : list (ElemType * istream) :=
  match m with
  | [] => [(k, v)]
  | (k', v') :: m' =>
      if (elem_type_code k <? elem_type_code k')%nat then (k, v) :: m
      else if (elem_type_code k =? elem_type_code k')%nat then (k, v) :: m'
      else (k', v') :: map_insert k v m'
  end.

(** The table after [ref_elem_file.clear()] and the 24 assignments. *)
Definition reference_file_table : list (ElemType * istream) :=
  fold_left (fun m t => map_insert t (ElemDataStrings t) m) reference_types [].

(** The loop "Read'em".  An error ends it and leaves what was read before;
    the nodes a failing [read_ref_elem] has put in the cache by then, which no
    element refers to, are not kept track of. *)
Fixpoint read_all (l : list (ElemType * istream)) (st : State)
  : State * result unit :=
  match l with
  | [] => (st, Ok tt)
  | (elem_type, filename) :: rest =>
      match read_ref_elem elem_type filename st with
      | Ok st' => read_all rest st'
      | Error msg => (st, Error msg)
      end
  end.

(** [init_ref_elem_table()].  The cache pointer is set before the strings are
    read: a call after a failed one finds it set and reads nothing. *)
Definition init_ref_elem_table (st : State) : State * result unit :=
  match singleton_cache st with
  | Some _ => (st, Ok tt)
  | None =>
      let st1 :=
        {| singleton_cache := Some {| node_list := []; elem_list := [] |};
           ref_elem_file := reference_file_table;
           ref_elem_map := ref_elem_map st |} in
      read_all (ref_elem_file st1) st1
  end.

(** For shell elements, the non shell type is the base type. *)
Definition base_type (type_in : ElemType) : ElemType :=
  let base_type := type_in in
  let base_type := if ElemType_eq_dec type_in TRISHELL3 then TRI3 else base_type in
  let base_type := if ElemType_eq_dec type_in QUADSHELL4 then QUAD4 else base_type in
  let base_type := if ElemType_eq_dec type_in QUADSHELL8 then QUAD8 else base_type in
  base_type.

Definition no_reference_elem (type_in : ElemType) : string :=
  "No reference elem data available for ElemType " ++ show_elem_type type_in
    ++ " = " ++ enum_to_string type_in ++ ".".

(** [ref_elem_map[base_type]]: the array has [INVALID_ELEM] entries, so the
    sentinel itself indexes past its end; that read is given no value. *)
Definition ref_elem_map_at (st : State) (t : ElemType) : option Elem :=
  if ElemType_eq_dec t INVALID_ELEM then None else ref_elem_map st t.

(** [ReferenceElem::get(type_in)]. *)
Definition get (type_in : ElemType) (st : State) : State * result Elem :=
  let base := base_type type_in in
  match init_ref_elem_table st with
  | (st', Error msg) => (st', Error msg)
  | (st', Ok _) =>
      match ref_elem_map_at st' base with
      | None => (st', Error (no_reference_elem type_in))
      | Some e =>
          if ElemType_eq_dec type_in INVALID_ELEM
          then (st', Error (no_reference_elem type_in))
          else (st', Ok e)
      end
  end.

(** The calls made so far, whatever they returned. *)
Definition after (calls : list ElemType) (st : State) : State :=
  fold_left (fun s t => fst (get t s)) calls st.

(** Reference data exists for the types the table names. *)
Definition has_reference_data (t : ElemType) : bool :=
  bool_decide (t ∈ reference_types).

(** ** What the table holds after a successful initialisation *)

Lemma read_ref_elem_spec type_in i st st' :
  read_ref_elem type_in i st = Ok st' ->
  singleton_cache st' <> None /\
  ref_elem_file st' = ref_elem_file st /\
  exists e, elem_type e = type_in /\
    forall t, ref_elem_map st' t =
              if ElemType_eq_dec t type_in then Some e else ref_elem_map st t.
Proof.
  unfold read_ref_elem.
  destruct (singleton_cache st) as [cache|]; [|discriminate].
  destruct (read_header i) as [[n_nodes i1]|]; [|discriminate].
  destruct (read_uint i1) as [[elem_type_read i2]|]; [|discriminate].
  destruct (negb _); [discriminate|].
  destruct (read_identity_map 0 n_nodes i2) as [i3|]; [|discriminate].
  destruct (read_nodes 0 n_nodes i3) as [[nodes i4]|]; [|discriminate].
  intros [= <-]. cbn. split; [discriminate|]. split; [reflexivity|].
  exists (mkElem type_in nodes). split; [reflexivity|]. intros t. reflexivity.
Qed.

Lemma read_all_spec m : forall st st',
  read_all m st = (st', Ok tt) ->
  singleton_cache st <> None ->
  singleton_cache st' <> None /\
  forall t,
    (t ∈ map fst m -> exists e, ref_elem_map st' t = Some e /\ elem_type e = t) /\
    (t ∉ map fst m -> ref_elem_map st' t = ref_elem_map st t).
Proof.
  induction m as [|[k v] m IH]; intros st st' Hrun Hc.
  - cbn in Hrun. injection Hrun as <-. split; [exact Hc|].
    intros t. split; [|reflexivity]. cbn. intros Hin. inversion Hin.
  - cbn [read_all] in Hrun.
    destruct (read_ref_elem k v st) as [st1|] eqn:E1; [|discriminate].
    destruct (read_ref_elem_spec k v st st1 E1) as (Hc1 & _ & e & He & Hmap).
    destruct (IH st1 st' Hrun Hc1) as (Hc' & Hrest).
    split; [exact Hc'|]. intros t. cbn [map fst].
    destruct (Hrest t) as [Hin Hout].
    destruct (decide (t ∈ map fst m)) as [Hm|Hm].
    + split; [intros _; now apply Hin|]. intros Hn. contradict Hn. now right.
    + rewrite (Hout Hm), Hmap. destruct (ElemType_eq_dec t k) as [->|Hne].
      * split; [intros _; eauto|]. intros Hn. contradict Hn. left.
      * split.
        -- intros Hin'. apply elem_of_cons in Hin' as [?|?]; [congruence | contradiction].
        -- reflexivity.
Qed.

Lemma map_insert_keys k v m t :
  t ∈ map fst (map_insert k v m) ->
  t = k \/ t ∈ map fst m.
Proof.
  induction m as [|[k' v'] m IH]; cbn [map_insert].
  - cbn. intros Hin. apply list_elem_of_singleton in Hin. now left.
  - destruct (elem_type_code k <? elem_type_code k')%nat.
    + cbn [map fst]. intros Hin. apply elem_of_cons in Hin as [?|?]; auto.
    + destruct (elem_type_code k =? elem_type_code k')%nat.
      * cbn [map fst]. intros Hin. apply elem_of_cons in Hin as [?|?]; auto.
        right. now right.
      * cbn [map fst]. intros Hin. apply elem_of_cons in Hin as [->|?].
        -- right. left.
        -- destruct (IH H) as [?|?]; auto. right. now right.
Qed.

Lemma map_insert_key k v m : k ∈ map fst (map_insert k v m).
Proof.
  induction m as [|[k' v'] m IH]; cbn [map_insert].
  - cbn. left.
  - destruct (elem_type_code k <? elem_type_code k')%nat; [left|].
    destruct (elem_type_code k =? elem_type_code k')%nat; [left|].
    cbn [map fst]. now right.
Qed.

Lemma map_insert_other k v m t :
  t ∈ map fst m -> elem_type_code t <> elem_type_code k ->
  t ∈ map fst (map_insert k v m).
Proof.
  intros Hin Hne. induction m as [|[k' v'] m IH]; cbn [map_insert].
  - inversion Hin.
  - cbn [map fst] in Hin.
    destruct (elem_type_code k <? elem_type_code k')%nat; [now right|].
    destruct (Nat.eqb_spec (elem_type_code k) (elem_type_code k')) as [E|NE].
    + cbn [map fst]. apply elem_of_cons in Hin as [->|?]; [congruence | now right].
    + cbn [map fst]. apply elem_of_cons in Hin as [->|?]; [left | right; auto].
Qed.

(** The keys of the table are the types assigned, given that the
    enumerators assigned have different values. *)
Lemma fold_insert_keys (types : list ElemType) :
  (forall a b, a ∈ types -> b ∈ types ->
               elem_type_code a = elem_type_code b -> a = b) ->
  forall m t,
    (forall a, a ∈ map fst m -> forall b, b ∈ types ->
               elem_type_code a = elem_type_code b -> a = b) ->
    t ∈ map fst (fold_left (fun m t => map_insert t (ElemDataStrings t) m) types m)
    <-> t ∈ types \/ t ∈ map fst m.
Proof.
  induction types as [|ty types IH]; intros Hinj m t Hm.
  - cbn. split; [auto|]. intros [H|H]; [inversion H | exact H].
  - cbn [fold_left]. rewrite IH.
    + split.
      * intros [H|H]; [left; now right|].
        apply map_insert_keys in H as [->|H]; [left; left | now right].
      * intros [H|H].
        -- apply elem_of_cons in H as [->|H]; [right; apply map_insert_key | now left].
        -- destruct (decide (t = ty)) as [->|Hne]; [right; apply map_insert_key|].
           right. apply map_insert_other; [exact H|].
           intros E. apply Hne. apply (Hm t H ty); [left | exact E].
    + intros a b Ha Hb. apply Hinj; now right.
    + intros a Ha b Hb E.
      apply map_insert_keys in Ha as [->|Ha].
      * apply Hinj; [left | now right | exact E].
      * apply (Hm a Ha b); [now right | exact E].
Qed.

Lemma reference_file_table_keys t :
  (forall a b, a ∈ reference_types -> b ∈ reference_types ->
               elem_type_code a = elem_type_code b -> a = b) ->
  t ∈ map fst reference_file_table <-> t ∈ reference_types.
Proof.
  intros Hinj. unfold reference_file_table.
  rewrite (fold_insert_keys reference_types Hinj [] t).
  - split; [|auto]. intros [H|H]; [exact H | inversion H].
  - intros a Ha. inversion Ha.
Qed.

(** The state every successful call leaves behind. *)
Definition initialised (st : State) : Prop :=
  singleton_cache st <> None /\
  forall t,
    if has_reference_data t
    then exists e, ref_elem_map st t = Some e /\ elem_type e = t
    else ref_elem_map st t = None.

Lemma init_start_spec st1 :
  (forall a b, a ∈ reference_types -> b ∈ reference_types ->
               elem_type_code a = elem_type_code b -> a = b) ->
  init_ref_elem_table start = (st1, Ok tt) ->
  initialised st1.
Proof.
  intros Hinj. unfold init_ref_elem_table. cbn [singleton_cache start ref_elem_file].
  intros E.
  destruct (read_all_spec _ _ _ E) as (Hc & Hmap); [discriminate|].
  split; [exact Hc|]. intros t. unfold has_reference_data.
  destruct (Hmap t) as [Hin Hout].
  rewrite reference_file_table_keys in Hin, Hout by exact Hinj.
  destruct (bool_decide_reflect (t ∈ reference_types)) as [Ht|Ht].
  - now apply Hin.
  - rewrite (Hout Ht). reflexivity.
Qed.

Lemma init_initialised st :
  initialised st -> init_ref_elem_table st = (st, Ok tt).
Proof.
  intros [Hc _]. unfold init_ref_elem_table.
  destruct (singleton_cache st); [reflexivity | congruence].
Qed.

Lemma get_initialised t st :
  initialised st -> fst (get t st) = st.
Proof.
  intros Hi. unfold get. rewrite (init_initialised st Hi).
  destruct (ref_elem_map_at st (base_type t)); [|reflexivity].
  destruct (ElemType_eq_dec t INVALID_ELEM); reflexivity.
Qed.

Lemma after_initialised calls st :
  initialised st -> after calls st = st.
Proof.
  unfold after. induction calls as [|t calls IH]; intros Hi; [reflexivity|].
  cbn [fold_left]. rewrite (get_initialised t st Hi). now apply IH.
Qed.

Lemma get_start_state t st1 :
  init_ref_elem_table start = (st1, Ok tt) -> fst (get t start) = st1.
Proof.
  intros E. unfold get. rewrite E.
  destruct (ref_elem_map_at st1 (base_type t)); [|reflexivity].
  destruct (ElemType_eq_dec t INVALID_ELEM); reflexivity.
Qed.

(** Before the first call the state is [start]; after it, the initialised
    table, which later calls leave alone. *)
Lemma after_start calls st1 :
  (forall a b, a ∈ reference_types -> b ∈ reference_types ->
               elem_type_code a = elem_type_code b -> a = b) ->
  init_ref_elem_table start = (st1, Ok tt) ->
  after calls start = start \/ after calls start = st1.
Proof.
  intros Hinj E. destruct calls as [|t calls]; [now left|]. right.
  unfold after. cbn [fold_left]. rewrite (get_start_state t st1 E).
  apply (after_initialised calls st1). now apply init_start_spec.
Qed.

Lemma init_after calls st1 :
  (forall a b, a ∈ reference_types -> b ∈ reference_types ->
               elem_type_code a = elem_type_code b -> a = b) ->
  init_ref_elem_table start = (st1, Ok tt) ->
  init_ref_elem_table (after calls start) = (st1, Ok tt).
Proof.
  intros Hinj E. destruct (after_start calls st1 Hinj E) as [-> | ->]; [exact E|].
  apply init_initialised. now apply init_start_spec.
Qed.

Lemma base_type_not_invalid t : t <> INVALID_ELEM -> base_type t <> INVALID_ELEM.
Proof.
  intros Ht. unfold base_type.
  destruct (ElemType_eq_dec t QUADSHELL8); [discriminate|].
  destruct (ElemType_eq_dec t QUADSHELL4); [discriminate|].
  destruct (ElemType_eq_dec t TRISHELL3); [discriminate|]. exact Ht.
Qed.

(** C9.  Whatever calls came before, and provided the embedded data strings
    read without error: [get(type)] fails, with the message "No reference
    elem data available for ElemType ...", exactly when the base type of
    [type] has no reference data or [type] is [INVALID_ELEM]; otherwise it
    returns the reference element of the base type.  For [TRISHELL3],
    [QUADSHELL4] and [QUADSHELL8] the base types are [TRI3], [QUAD4] and
    [QUAD8], which have reference data: the call succeeds and returns what
    [get] of the base type returns. *)
Theorem get_fails_exactly :
  forall (calls : list ElemType) (type_in : ElemType) (st1 : State),
    (forall a b, a ∈ reference_types -> b ∈ reference_types ->
                 elem_type_code a = elem_type_code b -> a = b) ->
    init_ref_elem_table start = (st1, Ok tt) ->
    let st := after calls start in
    (snd (get type_in st) = Error (no_reference_elem type_in)
       <-> has_reference_data (base_type type_in) = false \/ type_in = INVALID_ELEM) /\
    (has_reference_data (base_type type_in) = true -> type_in <> INVALID_ELEM ->
       exists e, snd (get type_in st) = Ok e /\ elem_type e = base_type type_in /\
                 snd (get (base_type type_in) st) = Ok e) /\
    (base_type TRISHELL3 = TRI3 /\ base_type QUADSHELL4 = QUAD4 /\
     base_type QUADSHELL8 = QUAD8) /\
    (exists e3 e4 e8,
       snd (get TRISHELL3 st) = Ok e3 /\ snd (get TRI3 st) = Ok e3 /\
       snd (get QUADSHELL4 st) = Ok e4 /\ snd (get QUAD4 st) = Ok e4 /\
       snd (get QUADSHELL8 st) = Ok e8 /\ snd (get QUAD8 st) = Ok e8).
Proof.
  intros calls type_in st1 Hinj Hinit st.
  pose proof (init_after calls st1 Hinj Hinit) as Hst. fold st in Hst.
  pose proof (init_start_spec st1 Hinj Hinit) as [Hc Hmap].
  assert (forall t, has_reference_data (base_type t) = true -> t <> INVALID_ELEM ->
            exists e, snd (get t st) = Ok e /\ elem_type e = base_type t /\
                      snd (get (base_type t) st) = Ok e) as Hok.
  { intros t Hd Hne. unfold get. rewrite Hst.
    pose proof (base_type_not_invalid t Hne) as Hb.
    assert (base_type (base_type t) = base_type t) as Ebb.
    { unfold base_type.
      destruct (ElemType_eq_dec t QUADSHELL8) as [->|]; [reflexivity|].
      destruct (ElemType_eq_dec t QUADSHELL4) as [->|]; [reflexivity|].
      destruct (ElemType_eq_dec t TRISHELL3) as [->|]; [reflexivity|].
      destruct (ElemType_eq_dec t QUADSHELL8); [contradiction|].
      destruct (ElemType_eq_dec t QUADSHELL4); [contradiction|].
      destruct (ElemType_eq_dec t TRISHELL3); [contradiction|]. reflexivity. }
    rewrite Ebb. unfold ref_elem_map_at.
    destruct (ElemType_eq_dec (base_type t) INVALID_ELEM); [contradiction|].
    specialize (Hmap (base_type t)). rewrite Hd in Hmap.
    destruct Hmap as (e & -> & He).
    destruct (ElemType_eq_dec t INVALID_ELEM); [contradiction|].
    exists e. cbn [snd]. auto. }
  split; [|split; [|split]].
  - split.
    + intros Herr.
      destruct (has_reference_data (base_type type_in)) eqn:Hd; [|now left].
      destruct (ElemType_eq_dec type_in INVALID_ELEM) as [->|Hne]; [now right|].
      destruct (Hok type_in Hd Hne) as (e & He & _). congruence.
    + intros Hcond. unfold get. rewrite Hst. unfold ref_elem_map_at.
      destruct (ElemType_eq_dec (base_type type_in) INVALID_ELEM); [reflexivity|].
      destruct Hcond as [Hd| ->].
      * specialize (Hmap (base_type type_in)). rewrite Hd in Hmap.
        now rewrite Hmap.
      * exfalso. auto.
  - apply Hok.
  - repeat split; reflexivity.
  - destruct (Hok TRISHELL3 eq_refl ltac:(discriminate)) as (e3 & H3 & _ & H3').
    destruct (Hok QUADSHELL4 eq_refl ltac:(discriminate)) as (e4 & H4 & _ & H4').
    destruct (Hok QUADSHELL8 eq_refl ltac:(discriminate)) as (e8 & H8 & _ & H8').
    exists e3, e4, e8. auto 10.
Qed.

Lemma read_nodes_ids count : forall n i nodes i',
  read_nodes n count i = Ok (nodes, i') -> map node_id nodes = seq n count.
Proof.
  induction count as [|count IH]; intros n i nodes i' Hrun; cbn in Hrun.
  - injection Hrun as <- <-. reflexivity.
  - destruct (read_double i) as [[x i1]|]; [|discriminate].
    destruct (read_double i1) as [[y i2]|]; [|discriminate].
    destruct (read_double i2) as [[z i3]|]; [|discriminate].
    destruct (read_nodes (S n) count i3) as [[rest i4]|] eqn:E; [|discriminate].
    injection Hrun as <- <-. cbn. f_equal. eapply IH. exact E.
Qed.

(** X4.  The element [read_ref_elem] leaves in the table for [type_in] is
    of that type and has the nodes the type is to have, numbered from 0 in
    the order read; nodes and element are appended to the lists of the
    cache. *)
Theorem reference_element_as_read type_in i st st' :
  read_ref_elem type_in i st = Ok st' ->
  exists e cache cache',
    ref_elem_map st' type_in = Some e /\ elem_type e = type_in /\
    map node_id (elem_nodes e)
      = seq 0 (type_to_n_nodes_map (elem_type_code type_in)) /\
    singleton_cache st = Some cache /\ singleton_cache st' = Some cache' /\
    node_list cache' = (node_list cache ++ elem_nodes e)%list /\
    elem_list cache' = (elem_list cache ++ [e])%list /\
    (forall t, t <> type_in -> ref_elem_map st' t = ref_elem_map st t).
Proof.
  unfold read_ref_elem.
  destruct (singleton_cache st) as [cache|]; [|discriminate].
  destruct (read_header i) as [[n_nodes i1]|]; [|discriminate].
  destruct (read_uint i1) as [[elem_type_read i2]|]; [|discriminate].
  destruct (negb _) eqn:Hassert; [discriminate|].
  apply negb_false_iff in Hassert.
  apply andb_true_iff in Hassert as [Hassert Hn].
  apply andb_true_iff in Hassert as [_ Ht].
  apply Nat.eqb_eq in Hn, Ht. subst elem_type_read n_nodes.
  destruct (read_identity_map 0 _ i2) as [i3|]; [|discriminate].
  destruct (read_nodes 0 _ i3) as [[nodes i4]|] eqn:Hnodes; [|discriminate].
  intros [= <-]. cbn.
  exists (mkElem type_in nodes), cache,
         (mkCache (node_list cache ++ nodes)%list
                  (elem_list cache ++ [mkElem type_in nodes])%list).
  cbn. destruct (ElemType_eq_dec type_in type_in); [|contradiction].
  repeat split; trivial.
  - eapply read_nodes_ids. exact Hnodes.
  - intros t Ht. now destruct (ElemType_eq_dec t type_in).
Qed.

(** X5.  The table is built once: where the cache exists,
    [init_ref_elem_table] returns at once, and no call of [get] changes the
    state. *)
Theorem table_built_once st t :
  singleton_cache st <> None ->
  init_ref_elem_table st = (st, Ok tt) /\ fst (get t st) = st.
Proof.
  intros Hc.
  assert (init_ref_elem_table st = (st, Ok tt)) as Hinit.
  { unfold init_ref_elem_table.
    destruct (singleton_cache st); [reflexivity|contradiction]. }
  split; [exact Hinit|]. unfold get. rewrite Hinit.
  destruct (ref_elem_map_at st (base_type t)); [|reflexivity].
  destruct (ElemType_eq_dec t INVALID_ELEM); reflexivity.
Qed.

End Get.

(** ** A sample instance

    Values for the parameters, to run the model on: the enumerators' values
    and node counts as libMesh has them, and data strings of the shape
    [read_ref_elem] reads, with every node at the origin. *)
Definition sample_code (t : ElemType) : nat :=
  match t with
  | EDGE2 => 0 | EDGE3 => 1 | EDGE4 => 2 | TRI3 => 3 | TRI6 => 4
  | QUAD4 => 5 | QUAD8 => 6 | QUAD9 => 7 | TET4 => 8 | TET10 => 9
  | HEX8 => 10 | HEX20 => 11 | HEX27 => 12
  | PRISM6 => 13 | PRISM15 => 14 | PRISM18 => 15
  | PYRAMID5 => 16 | PYRAMID13 => 17 | PYRAMID14 => 18
  | TRISHELL3 => 30 | QUADSHELL4 => 31 | QUADSHELL8 => 32
  | TRI7 => 33 | TET14 => 34 | PRISM20 => 35 | PRISM21 => 36 | PYRAMID18 => 37
  | OTHER_ELEM n => n
  | INVALID_ELEM => 41
  end%nat.

Definition sample_n_nodes (c : nat) : nat :=
  nth c [2; 3; 4; 3; 6; 4; 8; 9; 4; 10; 8; 20; 27; 6; 15; 18; 5; 13; 14;
         2; 4; 6; 8; 16; 18; 6; 12; 1; 0; 3; 3; 4; 8; 7; 14; 20; 21; 18]%nat 0%nat.

Definition sample_data (t : ElemType) : istream :=
  let n := sample_n_nodes (sample_code t) in
  ([[TWord "libMesh-0.7.0+"];
   [TNum 1; TWord "#"; TWord "number"; TWord "of"; TWord "elements"];
   [TNum n; TWord "#"; TWord "number"; TWord "of"; TWord "nodes"];
   [TWord "."; TWord "#"; TWord "boundary"; TWord "condition"; TWord "file"];
   [TWord "n/a"; TWord "#"; TWord "subdomain"; TWord "id"; TWord "file"];
   [TWord "n/a"; TWord "#"; TWord "processor"; TWord "id"; TWord "file"];
   [TWord "n/a"; TWord "#"; TWord "p-level"; TWord "file"];
   [TNum 1; TWord "#"; TWord "n_elem"; TWord "at"; TWord "level"; TNum 0];
   TNum (sample_code t) :: map TNum (seq 0 n)]
   ++ replicate n [TNum 0; TNum 0; TNum 0])%list.

Definition sample_name (t : ElemType) : string :=
  match t with
  | TRI3 => "TRI3" | QUAD4 => "QUAD4" | QUAD8 => "QUAD8"
  | TRISHELL3 => "TRISHELL3" | QUADSHELL4 => "QUADSHELL4"
  | QUADSHELL8 => "QUADSHELL8" | INVALID_ELEM => "INVALID_ELEM"
  | _ => "ELEM"
  end.

Definition sample_show (t : ElemType) : string := sample_name t.

Lemma sample_code_injective :
  forall a b, a ∈ reference_types -> b ∈ reference_types ->
              sample_code a = sample_code b -> a = b.
Proof.
  assert (NoDup (map sample_code reference_types)) as Hnd.
  { apply (bool_decide_unpack (NoDup (map sample_code reference_types))).
    vm_compute. exact I. }
  revert Hnd. generalize reference_types as l.
  induction l as [|x l IH]; intros Hnd a b Ha Hb E; [inversion Ha|].
  cbn [map] in Hnd. apply NoDup_cons in Hnd as [Hx Hnd].
  apply elem_of_cons in Ha as [->|Ha]; apply elem_of_cons in Hb as [->|Hb]; auto.
  - exfalso. apply Hx. rewrite E. apply list_elem_of_In, in_map, list_elem_of_In, Hb.
  - exfalso. apply Hx. rewrite <- E. apply list_elem_of_In, in_map, list_elem_of_In, Ha.
Defined.

Lemma sample_init_ok :
  snd (init_ref_elem_table sample_code sample_n_nodes sample_data start) = Ok tt.
Proof. lazy. reflexivity. Defined.

Lemma get_fails_exactly_witness :
  let get := get sample_code sample_n_nodes sample_name sample_show sample_data in
  let st := after sample_code sample_n_nodes sample_name sample_show sample_data
                  [HEX8; INVALID_ELEM] start in
  (exists e, snd (get TRISHELL3 st) = Ok e /\ elem_type e = TRI3 /\
             snd (get TRI3 st) = Ok e) /\
  snd (get INVALID_ELEM st)
    = Error "No reference elem data available for ElemType INVALID_ELEM = INVALID_ELEM." /\
  snd (get (OTHER_ELEM 22) st)
    = Error "No reference elem data available for ElemType ELEM = ELEM.".
Proof.
  intros get st.
  pose proof sample_init_ok as Hsnd.
  assert (init_ref_elem_table sample_code sample_n_nodes sample_data start
          = (fst (init_ref_elem_table sample_code sample_n_nodes sample_data start),
             Ok tt)) as Hinit.
  { rewrite <- Hsnd. apply surjective_pairing. }
  pose proof (get_fails_exactly sample_code sample_n_nodes sample_name sample_show
                sample_data [HEX8; INVALID_ELEM]) as T.
  split; [|split].
  - destruct (T TRISHELL3 _ sample_code_injective Hinit) as (_ & Hok & _).
    apply Hok; [reflexivity | discriminate].
  - destruct (T INVALID_ELEM _ sample_code_injective Hinit) as (Herr & _).
    apply Herr. now right.
  - destruct (T (OTHER_ELEM 22) _ sample_code_injective Hinit) as (Herr & _).
    apply Herr. left. reflexivity.
Defined.

Definition empty_cache : State :=
  {| singleton_cache := Some (mkCache [] []);
     ref_elem_file := [];
     ref_elem_map := fun _ => None |}.

Lemma read_sample_TRI3 :
  exists st',
    read_ref_elem sample_code sample_n_nodes TRI3 (sample_data TRI3) empty_cache
    = Ok st'.
Proof. eexists. lazy. reflexivity. Defined.

Lemma reference_element_as_read_witness :
  exists st' e,
    read_ref_elem sample_code sample_n_nodes TRI3 (sample_data TRI3) empty_cache
    = Ok st' /\
    ref_elem_map st' TRI3 = Some e /\ elem_type e = TRI3 /\
    map node_id (elem_nodes e) = [0; 1; 2]%nat.
Proof.
  destruct read_sample_TRI3 as [st' Hrun]. exists st'.
  destruct (reference_element_as_read sample_code sample_n_nodes TRI3
              (sample_data TRI3) empty_cache st' Hrun)
    as (e & _ & _ & He & Ht & Hn & _).
  exists e. auto.
Defined.

Lemma table_built_once_witness :
  init_ref_elem_table sample_code sample_n_nodes sample_data empty_cache
  = (empty_cache, Ok tt) /\
  fst (get sample_code sample_n_nodes sample_name sample_show sample_data
           HEX8 empty_cache) = empty_cache.
Proof.
  apply (table_built_once sample_code sample_n_nodes sample_name sample_show
           sample_data empty_cache HEX8).
  discriminate.
Defined.

End ReferenceElem.

(** The default of a lookup in a vector of reals. *)
#[global] Instance R_inhabited : Inhabited R := populate 0%R.

(* ===================================================================== *)
(** * JumpErrorEstimator *)
(* ===================================================================== *)

(** [JumpErrorEstimator::estimate_error] of
    src/error_estimation/jump_error_estimator.C, whose text follows that of
    adjoint_refinement_estimator.C in
    src/src/error_estimation/adjoint_refinement_estimator.C, from line 691 on;
    the line numbers below are those of that file.  [LIBMESH_ENABLE_AMR] is
    taken to be defined.  The class leaves the integrals to two pure virtual
    functions, [internal_side_integration] and [boundary_side_integration];
    they are parameters here, functions of what the two contexts hold when
    they are called.  The reinitialisations of the finite element objects
    ([side_fe_reinit], [reinit_sides], the point-wise [reinit] of a slit) are
    not modelled: the place of the call stands for them.  Neither is the
    exchange of [system.solution] with [solution_vector] around the loop,
    which is undone before the function returns. *)

Module JumpErrorEstimator.
Local Open Scope R_scope.

(** [x == 0.] on a floating point number. *)
Definition is_zero (x : R) : bool := if Req_dec_T x 0 then true else false.

(** The mesh, as [estimate_error] reads it: every accessor of [Elem] is a
    function of the element's id.  [active_family_tree_by_neighbor nb p] are
    the active descendants of [nb] that touch [p]. *)
Record Mesh := {
  max_elem_id : nat;
  active_local_element_ptr_range : list nat;
  level : nat -> nat;
  active : nat -> bool;
  infinite : nat -> bool;
  parent : nat -> option nat;
  child_ref_range : nat -> list nat;
  n_sides : nat -> nat;
  neighbor_ptr : nat -> nat -> option nat;
  dim : nat -> nat;
  active_family_tree_by_neighbor : nat -> nat -> list nat
}.

(** What a [FEMContext] holds of interest here: its element, its current
    side and where its element solution comes from ([pre_fe_reinit] reads it
    from the system, the parent pass overwrites it with [Uparent]). *)
Inductive ElemSolution :=
| system_solution
| coarsened_dof_values (p : nat).

Record FEMContext := {
  elem : option nat;
  side : nat;
  elem_solution : ElemSolution
}.

Definition new_context : FEMContext :=
  {| elem := None; side := 0; elem_solution := system_solution |}.

Definition pre_fe_reinit (e : nat) (c : FEMContext) : FEMContext :=
  {| elem := Some e; side := side c; elem_solution := system_solution |}.

Definition set_elem_solution (u : ElemSolution) (c : FEMContext) : FEMContext :=
  {| elem := elem c; side := side c; elem_solution := u |}.

Definition set_side (s : nat) (c : FEMContext) : FEMContext :=
  {| elem := elem c; side := s; elem_solution := elem_solution c |}.

(** [get_elem().id()]; every use below follows a [pre_fe_reinit]. *)
Definition get_elem_id (c : FEMContext) : nat := default 0%nat (elem c).

(** The three places [internal_side_integration] is called from; a slit
    integrates one quadrature point [qp] with the weight divided by the
    number of neighbours. *)
Inductive Site :=
| parent_pass
| neighbor_loop
| slit (qp n_neighbors : nat).

Record Integration := {
  site : Site;
  fine : FEMContext;
  coarse : FEMContext;
  var : nat
}.

Inductive Call :=
| internal_call (c : Integration)
| boundary_call (ctx : FEMContext) (v : nat).

(** The state of one call of [estimate_error]; [calls] is the history of
    the calls of the two integration hooks, kept for the proofs. *)
Record LoopState := {
  error_per_cell : list R;
  n_flux_faces : list R;
  fine_context : FEMContext;
  coarse_context : FEMContext;
  calls : list Call
}.

Definition with_fine (f : FEMContext -> FEMContext) (st : LoopState) : LoopState :=
  {| error_per_cell := error_per_cell st; n_flux_faces := n_flux_faces st;
     fine_context := f (fine_context st); coarse_context := coarse_context st;
     calls := calls st |}.

Definition with_coarse (f : FEMContext -> FEMContext) (st : LoopState) : LoopState :=
  {| error_per_cell := error_per_cell st; n_flux_faces := n_flux_faces st;
     fine_context := fine_context st; coarse_context := f (coarse_context st);
     calls := calls st |}.

Definition with_n_flux_faces (f : list R -> list R) (st : LoopState) : LoopState :=
  {| error_per_cell := error_per_cell st; n_flux_faces := f (n_flux_faces st);
     fine_context := fine_context st; coarse_context := coarse_context st;
     calls := calls st |}.

Definition with_error (f : list R -> list R) (c : Call) (st : LoopState) : LoopState :=
  {| error_per_cell := f (error_per_cell st); n_flux_faces := n_flux_faces st;
     fine_context := fine_context st; coarse_context := coarse_context st;
     calls := calls st ++ [c] |}.

(** [v[i] += x].  The source does not check the index; ids are below
    [max_elem_id], the size of both vectors. *)
Definition add_to (i : nat) (x : R) (v : list R) : list R :=
  alter (fun y => y + x) i v.

Section Estimator.

Variable mesh : Mesh.
Variable n_vars : nat.
Variable error_norm_weight : nat -> R.
Variable variable_family_is_SCALAR : nat -> bool.
Variables scale_by_n_flux_faces integrate_slits integrate_boundary_sides : bool.

(** The point locator at the vertex average of side [n_e] of [e], and the
    number of points of the side quadrature rule built there. *)
Variable point_locator : nat -> nat -> list nat.
Variable n_points : nat -> nat -> nat.

(** The two pure virtual hooks: [internal_side_integration] leaves its
    results in the members [fine_error] and [coarse_error];
    [boundary_side_integration] returns whether it found a flux and, if so,
    leaves it in [fine_error]. *)
Variable internal_side_integration : Integration -> R * R.
Variable boundary_side_integration : FEMContext -> nat -> option R.

(** [ErrorEstimator::reduce_error]: the sum over the processors. *)
Variable reduce_error : list R -> list R.

(** A variable the loops do not skip. *)
Definition significant (v : nat) : bool :=
  negb (is_zero (error_norm_weight v)) && negb (variable_family_is_SCALAR v).

(** The loop over all significant variables around
    [internal_side_integration]. *)
Definition internal_side (s : Site) (st : LoopState) (v : nat) : LoopState :=
  if significant v then
    let c := {| site := s; fine := fine_context st;
                coarse := coarse_context st; var := v |} in
    let fine_error := fst (internal_side_integration c) in
    let coarse_error := snd (internal_side_integration c) in
    with_error (fun epc =>
                  add_to (get_elem_id (coarse_context st)) coarse_error
                    (add_to (get_elem_id (fine_context st)) fine_error epc))
               (internal_call c) st
  else st.

Definition internal_sides (s : Site) (st : LoopState) : LoopState :=
  foldl (internal_side s) st (seq 0 n_vars).

(** Lines 1281-1300: [1.0f / (1 << (dim-1)*(fine level - coarse level))];
    the fine element is never on a coarser level than the coarse one where
    this is called.  The source shifts a 32-bit [int] and returns a
    [float]: the value below is the source's where the shift is below 31,
    and says nothing of greater shifts. *)
Definition coarse_n_flux_faces_increment (st : LoopState) : R :=
  let dim := dim mesh (get_elem_id (coarse_context st)) in
  let divisor :=
    (2 ^ ((dim - 1) * (level mesh (get_elem_id (fine_context st))
                       - level mesh (get_elem_id (coarse_context st)))))%nat in
  1 / INR divisor.

Definition count_flux_faces (st : LoopState) : LoopState :=
  if scale_by_n_flux_faces then
    with_n_flux_faces
      (fun n => add_to (get_elem_id (coarse_context st))
                       (coarse_n_flux_faces_increment st)
                  (add_to (get_elem_id (fine_context st)) 1 n)) st
  else st.

(** The loop around [boundary_side_integration], with its flag
    [found_boundary_flux]. *)
Definition boundary_side (acc : LoopState * bool) (v : nat) : LoopState * bool :=
  let (st, found_boundary_flux) := acc in
  if significant v then
    match boundary_side_integration (fine_context st) v with
    | Some fine_error =>
        (with_error (add_to (get_elem_id (fine_context st)) fine_error)
                    (boundary_call (fine_context st) v) st, true)
    | None =>
        (with_error (fun epc => epc) (boundary_call (fine_context st) v) st,
         found_boundary_flux)
    end
  else acc.

Definition boundary_sides (st : LoopState) : LoopState :=
  let (st, found_boundary_flux) := foldl boundary_side (st, false) (seq 0 n_vars) in
  if scale_by_n_flux_faces && found_boundary_flux then
    with_n_flux_faces (add_to (get_elem_id (fine_context st)) 1) st
  else st.

(** Lines 897-1009, the parent pass: the flux from the parent [p], with
    its projected solution, to every active neighbour. *)
Definition parent_neighbor (p : nat) (st : LoopState) (f : nat) : LoopState :=
  if infinite mesh f then st
  else if (level mesh p <=? level mesh f)%nat then
    let st := with_fine (pre_fe_reinit f) st in
    let st := with_coarse (pre_fe_reinit p) st in
    let st := with_coarse (set_elem_solution (coarsened_dof_values p)) st in
    count_flux_faces (internal_sides parent_pass st)
  else st.

Definition parent_side (p : nat) (st : LoopState) (n_p : nat) : LoopState :=
  match neighbor_ptr mesh p n_p with
  | Some nb =>
      foldl (parent_neighbor p) st (active_family_tree_by_neighbor mesh nb p)
  | None =>
      if integrate_boundary_sides then
        let st := with_fine (pre_fe_reinit p) st in
        let st := with_fine (set_elem_solution (coarsened_dof_values p)) st in
        let st := with_fine (set_side n_p) st in
        boundary_sides st
      else st
  end.

Definition compute_on_parent (estimate_parent_error : bool) (e : nat) : bool :=
  match parent mesh e with
  | None => false
  | Some p =>
      if negb estimate_parent_error then false
      else forallb (active mesh) (child_ref_range mesh p)
  end.

Definition parent_of (estimate_parent_error : bool) (e : nat) (st : LoopState) : LoopState :=
  match parent mesh e with
  | Some p =>
      if compute_on_parent estimate_parent_error e
         && is_zero (error_per_cell st !!! p) then
        foldl (parent_side p) st (seq 0 (n_sides mesh p))
      else st
  | None => st
  end.

(** Lines 1034-1035: case 1 or case 2 of the conventions for the normal. *)
Definition case1_or_case2 (e f : nat) : bool :=
  (active mesh f && (level mesh f =? level mesh e)%nat && (e <? f)%nat)
  || (level mesh f <? level mesh e)%nat.

(** Lines 1070-1155: both sides of a slit, one quadrature point at a
    time. *)
Definition slit_neighbor (e qp n_neighbors : nat) (st : LoopState) (f : nat) : LoopState :=
  if (f =? e)%nat then st
  else
    let st := with_coarse (pre_fe_reinit f) st in
    let st := with_fine (pre_fe_reinit e) st in
    internal_sides (slit qp n_neighbors) st.

Definition slit_point (e n_e : nat) (st : LoopState) (qp : nat) : LoopState :=
  let side_elements := point_locator e n_e in
  let n_neighbors := (length side_elements - 1)%nat in
  foldl (slit_neighbor e qp n_neighbors) st side_elements.

Definition slit_side (e n_e : nat) (st : LoopState) : LoopState :=
  let candidate_elements := point_locator e n_e in
  if (length candidate_elements <? 2)%nat then st
  else foldl (slit_point e n_e) st (seq 0 (n_points e n_e)).

(** The neighbour of [e] across side [n_e], unless there is none or it is
    an infinite element (which is treated as a boundary). *)
Definition finite_neighbor (e n_e : nat) : option nat :=
  match neighbor_ptr mesh e n_e with
  | Some f => if infinite mesh f then None else Some f
  | None => None
  end.

(** Lines 1015-1185: the body of the loop over the sides of [e].  The call
    of [libmesh_not_implemented] in the last branch is under
    [integrate_slits], which is false there. *)
Definition neighbor_side (e : nat) (st : LoopState) (n_e : nat) : LoopState :=
  let st :=
    if bool_decide (neighbor_ptr mesh e n_e <> None) || integrate_boundary_sides
    then with_fine (set_side n_e) st else st in
  match finite_neighbor e n_e with
  | Some f =>
      if case1_or_case2 e f then
        let st := with_coarse (pre_fe_reinit f) st in
        count_flux_faces (internal_sides neighbor_loop st)
      else st
  | None =>
      if integrate_slits then slit_side e n_e st
      else if integrate_boundary_sides then boundary_sides st
      else st
  end.

(** Lines 884-1186: the body of the loop over the active local elements. *)
Definition element (estimate_parent_error : bool) (st : LoopState) (e : nat) : LoopState :=
  if infinite mesh e then st
  else
    let st := parent_of estimate_parent_error e st in
    let st := with_fine (pre_fe_reinit e) st in
    foldl (neighbor_side e) st (seq 0 (n_sides mesh e)).

Definition initial_state : LoopState :=
  {| error_per_cell := replicate (max_elem_id mesh) 0;
     n_flux_faces := if scale_by_n_flux_faces
                     then replicate (max_elem_id mesh) 0 else [];
     fine_context := new_context;
     coarse_context := new_context;
     calls := [] |}.

Definition element_loop (estimate_parent_error : bool) : LoopState :=
  foldl (element estimate_parent_error) initial_state
        (active_local_element_ptr_range mesh).

(** Lines 1200-1203: the square root of a component that is not zero. *)
Definition square_root (x : R) : R := if is_zero x then x else sqrt x.

(** Lines 1218-1225: the division by the number of flux faces, where there
    are any. *)
Definition scale (n_flux_faces : list R) (i : nat) (x : R) : R :=
  match n_flux_faces !! i with
  | Some n => if is_zero n then x else x / n
  | None => x
  end.

(** Lines 746-1238. *)
Definition estimate_error (estimate_parent_error : bool) : list R :=
  let st := element_loop estimate_parent_error in
  let error_per_cell := reduce_error (error_per_cell st) in
  let error_per_cell := map square_root error_per_cell in
  if scale_by_n_flux_faces then
    let n_flux_faces := reduce_error (n_flux_faces st) in
    imap (scale n_flux_faces) error_per_cell
  else error_per_cell.


(** ** What the calls of the hooks add up to *)

Definition apply_call (epc : list R) (c : Call) : list R :=
  match c with
  | internal_call c =>
      add_to (get_elem_id (coarse c)) (snd (internal_side_integration c))
        (add_to (get_elem_id (fine c)) (fst (internal_side_integration c)) epc)
  | boundary_call ctx v =>
      match boundary_side_integration ctx v with
      | Some fine_error => add_to (get_elem_id ctx) fine_error epc
      | None => epc
      end
  end.

(** What one call adds to the slot of element [i]. *)
Definition contribution (i : nat) (c : Call) : R :=
  match c with
  | internal_call c =>
      (if decide (get_elem_id (fine c) = i)
       then fst (internal_side_integration c) else 0)
      + (if decide (get_elem_id (coarse c) = i)
         then snd (internal_side_integration c) else 0)
  | boundary_call ctx v =>
      match boundary_side_integration ctx v with
      | Some fine_error => if decide (get_elem_id ctx = i) then fine_error else 0
      | None => 0
      end
  end.

Definition accumulated (l : list Call) (i : nat) : R :=
  fold_right Rplus 0 (map (contribution i) l).

(** The calls of the neighbour loop among all calls. *)
Definition neighbor_integration (c : Call) : option Integration :=
  match c with
  | internal_call c =>
      match site c with neighbor_loop => Some c | _ => None end
  | boundary_call _ _ => None
  end.

Definition neighbor_integrations (l : list Call) : list Integration :=
  omap neighbor_integration l.

(** A call is made only where its flag allows it. *)
Definition enabled (estimate_parent_error : bool) (c : Call) : Prop :=
  match c with
  | internal_call c =>
      match site c with
      | neighbor_loop => True
      | parent_pass => estimate_parent_error = true
      | slit _ _ => integrate_slits = true
      end
  | boundary_call _ _ => integrate_boundary_sides = true
  end.

(** The integration over side [n_e] of [e] against its neighbour [f], for
    variable [v], as the neighbour loop sets it up. *)
Definition face_integration (e n_e f v : nat) : Integration :=
  {| site := neighbor_loop;
     fine := {| elem := Some e; side := n_e; elem_solution := system_solution |};
     coarse := {| elem := Some f; side := 0; elem_solution := system_solution |};
     var := v |}.

(** The integrations the neighbour loop makes for side [n_e] of [e], for
    element [e], and for the whole mesh. *)
Definition side_integrations (e n_e : nat) : list Integration :=
  match finite_neighbor e n_e with
  | Some f =>
      if case1_or_case2 e f then
        map (face_integration e n_e f)
            (List.filter significant (seq 0 n_vars))
      else []
  | None => []
  end.

Definition element_integrations (e : nat) : list Integration :=
  if infinite mesh e then []
  else flat_map (side_integrations e) (seq 0 (n_sides mesh e)).

Definition mesh_integrations : list Integration :=
  flat_map element_integrations (active_local_element_ptr_range mesh).

(** [st'] is [st] after some more calls [extra], each satisfying [P]. *)
Definition extends (P : Call -> Prop) (st st' : LoopState) (extra : list Call) : Prop :=
  calls st' = calls st ++ extra /\
  error_per_cell st' = foldl apply_call (error_per_cell st) extra /\
  side (coarse_context st') = side (coarse_context st) /\
  Forall P extra.

Definition frame (P : Call -> Prop) (st st' : LoopState) : Prop :=
  exists extra, extends P st st' extra.

Lemma frame_refl P st : frame P st st.
Proof. exists []. unfold extends. now rewrite app_nil_r. Qed.

Lemma frame_trans P st1 st2 st3 :
  frame P st1 st2 -> frame P st2 st3 -> frame P st1 st3.
Proof.
  intros (x & Hc & He & Hs & HP) (y & Hc' & He' & Hs' & HP').
  exists (x ++ y). unfold extends.
  rewrite Hc', Hc, He', He, Hs', Hs, foldl_app, <- app_assoc.
  repeat split; trivial. now apply Forall_app.
Qed.

Lemma frame_weaken (P Q : Call -> Prop) st st' :
  (forall c, P c -> Q c) -> frame P st st' -> frame Q st st'.
Proof.
  intros HPQ (x & Hc & He & Hs & HP). exists x. repeat split; trivial.
  eapply Forall_impl; eauto.
Qed.

Lemma frame_foldl {B} P (f : LoopState -> B -> LoopState) l :
  (forall st b, b ∈ l -> frame P st (f st b)) ->
  forall st, frame P st (foldl f st l).
Proof.
  induction l as [|b l IH]; intros Hf st; cbn; [apply frame_refl|].
  eapply frame_trans; [apply Hf; left|].
  apply IH. intros st' b' Hb'. apply Hf. now right.
Qed.

Lemma frame_same P st st' :
  calls st' = calls st -> error_per_cell st' = error_per_cell st ->
  side (coarse_context st') = side (coarse_context st) -> frame P st st'.
Proof.
  intros Hc He Hs. exists []. unfold extends.
  rewrite Hc, He, Hs, app_nil_r. repeat split; trivial.
Qed.


Definition integration_at (s : Site) (st : LoopState) (v : nat) : Call :=
  internal_call {| site := s; fine := fine_context st;
                   coarse := coarse_context st; var := v |}.

Lemma internal_side_spec s st v :
  let st' := internal_side s st v in
  fine_context st' = fine_context st /\
  coarse_context st' = coarse_context st /\
  n_flux_faces st' = n_flux_faces st /\
  extends (fun _ => True) st st'
          (if significant v then [integration_at s st v] else []).
Proof.
  unfold internal_side. destruct (significant v); cbn.
  - repeat split; trivial. repeat constructor.
  - repeat split; trivial. now rewrite app_nil_r.
Qed.

Lemma internal_side_fold s l : forall st,
  let st' := foldl (internal_side s) st l in
  fine_context st' = fine_context st /\
  coarse_context st' = coarse_context st /\
  n_flux_faces st' = n_flux_faces st /\
  extends (fun _ => True) st st'
          (map (integration_at s st) (List.filter significant l)).
Proof.
  induction l as [|v l IH]; intros st; cbn.
  - repeat split; trivial. now rewrite app_nil_r.
  - destruct (IH (internal_side s st v)) as (Hf & Hc & Hn & Hx & He & Hs & _).
    destruct (internal_side_spec s st v) as (Hf1 & Hc1 & Hn1 & Hx1 & He1 & Hs1 & _).
    assert (forall w, integration_at s (internal_side s st v) w
                      = integration_at s st w) as Hat.
    { intros w. unfold integration_at. now rewrite Hf1, Hc1. }
    rewrite (map_ext _ _ Hat) in Hx, He.
    unfold extends.
    rewrite Hf, Hc, Hn, Hx, He, Hf1, Hc1, Hn1, Hx1, He1, <- app_assoc,
      <- foldl_app.
    repeat split; trivial; [| |apply Forall_forall; trivial];
      destruct (significant v); reflexivity.
Qed.

Lemma internal_sides_spec s st :
  let st' := internal_sides s st in
  fine_context st' = fine_context st /\
  coarse_context st' = coarse_context st /\
  n_flux_faces st' = n_flux_faces st /\
  extends (fun _ => True) st st'
          (map (integration_at s st) (List.filter significant (seq 0 n_vars))).
Proof. apply internal_side_fold. Qed.

Lemma internal_sides_frame (P : Call -> Prop) s st :
  (forall v, P (integration_at s st v)) -> frame P st (internal_sides s st).
Proof.
  intros HP. destruct (internal_sides_spec s st) as (_ & _ & _ & Hc & He & Hs & _).
  eexists. repeat split; eauto.
  apply Forall_forall. intros c Hc'. apply list_elem_of_In, in_map_iff in Hc'.
  destruct Hc' as (v & <- & _). apply HP.
Qed.

Lemma count_flux_faces_spec st :
  let st' := count_flux_faces st in
  fine_context st' = fine_context st /\ coarse_context st' = coarse_context st /\
  calls st' = calls st /\ error_per_cell st' = error_per_cell st.
Proof. unfold count_flux_faces. destruct scale_by_n_flux_faces; cbn; auto. Qed.

Lemma count_flux_faces_frame P st : frame P st (count_flux_faces st).
Proof.
  destruct (count_flux_faces_spec st) as (_ & Hc & Hl & He).
  apply frame_same; trivial. now rewrite Hc.
Qed.

Definition is_boundary_call (c : Call) : Prop :=
  match c with boundary_call _ _ => True | internal_call _ => False end.

Lemma boundary_side_fold l : forall st found,
  let st' := fst (foldl boundary_side (st, found) l) in
  fine_context st' = fine_context st /\ coarse_context st' = coarse_context st /\
  frame is_boundary_call st st'.
Proof.
  induction l as [|v l IH]; intros st found; cbn.
  - repeat split; trivial. apply frame_refl.
  - destruct (significant v); [|apply IH].
    destruct (boundary_side_integration (fine_context st) v) as [x|] eqn:Hb.
    + destruct (IH (with_error (add_to (get_elem_id (fine_context st)) x)
                       (boundary_call (fine_context st) v) st) true)
        as (Hf & Hc & Hfr).
      repeat split; trivial. eapply frame_trans; [|exact Hfr].
      exists [boundary_call (fine_context st) v]. repeat split; cbn; trivial.
      * now rewrite Hb.
      * repeat constructor.
    + destruct (IH (with_error (fun epc => epc)
                       (boundary_call (fine_context st) v) st) found)
        as (Hf & Hc & Hfr).
      repeat split; trivial. eapply frame_trans; [|exact Hfr].
      exists [boundary_call (fine_context st) v]. repeat split; cbn; trivial.
      * now rewrite Hb.
      * repeat constructor.
Qed.

Lemma boundary_sides_spec st :
  let st' := boundary_sides st in
  fine_context st' = fine_context st /\ coarse_context st' = coarse_context st /\
  frame is_boundary_call st st'.
Proof.
  unfold boundary_sides.
  pose proof (boundary_side_fold (seq 0 n_vars) st false) as H.
  destruct (foldl boundary_side (st, false) (seq 0 n_vars)) as [st1 found].
  cbn in H. destruct H as (Hf & Hc & Hfr).
  destruct (scale_by_n_flux_faces && found); cbn; auto.
Qed.

(** Calls that are not of the neighbour loop. *)
Definition quiet (estimate_parent_error : bool) (c : Call) : Prop :=
  enabled estimate_parent_error c /\ neighbor_integration c = None.

Lemma boundary_sides_quiet epe st :
  integrate_boundary_sides = true -> frame (quiet epe) st (boundary_sides st).
Proof.
  intros Hb. destruct (boundary_sides_spec st) as (_ & _ & Hfr).
  eapply frame_weaken; [|exact Hfr].
  intros [c|ctx v]; cbn; [tauto|]. intros _. now split.
Qed.

Lemma parent_neighbor_frame p st f :
  frame (quiet true) st (parent_neighbor p st f).
Proof.
  unfold parent_neighbor. destruct (infinite mesh f); [apply frame_refl|].
  destruct (level mesh p <=? level mesh f)%nat; [|apply frame_refl].
  eapply frame_trans; [|apply count_flux_faces_frame].
  eapply frame_trans; [|apply internal_sides_frame; intros v; now split].
  now apply frame_same.
Qed.

Lemma parent_side_frame p st n_p :
  frame (quiet true) st (parent_side p st n_p).
Proof.
  unfold parent_side. destruct (neighbor_ptr mesh p n_p) as [nb|].
  - apply frame_foldl. intros. apply parent_neighbor_frame.
  - destruct integrate_boundary_sides eqn:Hb; [|apply frame_refl].
    eapply frame_trans; [|now apply boundary_sides_quiet].
    now apply frame_same.
Qed.

Lemma parent_of_frame epe e st :
  frame (quiet epe) st (parent_of epe e st).
Proof.
  unfold parent_of, compute_on_parent.
  destruct (parent mesh e) as [p|]; [|apply frame_refl].
  destruct epe; cbn; [|apply frame_refl].
  destruct (forallb (active mesh) (child_ref_range mesh p)
            && is_zero (error_per_cell st !!! p)); [|apply frame_refl].
  apply frame_foldl. intros. apply parent_side_frame.
Qed.

(** The fine context is on [e], with the solution of the system. *)
Definition fine_on (e : nat) (st : LoopState) : Prop :=
  elem (fine_context st) = Some e /\
  elem_solution (fine_context st) = system_solution.

Lemma slit_neighbor_frame epe e qp n st f :
  integrate_slits = true -> fine_on e st ->
  let st' := slit_neighbor e qp n st f in
  frame (quiet epe) st st' /\ fine_on e st' /\
  side (fine_context st') = side (fine_context st).
Proof.
  intros Hs Hfine. unfold slit_neighbor.
  destruct (f =? e)%nat; cbn; [split; [apply frame_refl|auto]|].
  set (st1 := with_fine _ _).
  destruct (internal_sides_spec (slit qp n) st1) as (Hf & _ & _ & _).
  split; [|split].
  - eapply frame_trans; [|apply internal_sides_frame; intros v; now split].
    now apply frame_same.
  - unfold fine_on. rewrite Hf. now split.
  - now rewrite Hf.
Qed.

Lemma slit_fold {B} epe e (f : LoopState -> B -> LoopState) l :
  (forall st b, fine_on e st ->
     frame (quiet epe) st (f st b) /\ fine_on e (f st b) /\
     side (fine_context (f st b)) = side (fine_context st)) ->
  forall st, fine_on e st ->
     frame (quiet epe) st (foldl f st l) /\ fine_on e (foldl f st l) /\
     side (fine_context (foldl f st l)) = side (fine_context st).
Proof.
  intros Hf. induction l as [|b l IH]; intros st Hst; cbn.
  - split; [apply frame_refl|auto].
  - destruct (Hf st b Hst) as (H1 & H2 & H3).
    destruct (IH _ H2) as (H4 & H5 & H6).
    split; [eapply frame_trans; eauto|]. split; trivial. congruence.
Qed.

Lemma slit_side_frame epe e n_e st :
  integrate_slits = true -> fine_on e st ->
  let st' := slit_side e n_e st in
  frame (quiet epe) st st' /\ fine_on e st' /\
  side (fine_context st') = side (fine_context st).
Proof.
  intros Hs Hfine. unfold slit_side.
  destruct (length (point_locator e n_e) <? 2)%nat; cbn;
    [split; [apply frame_refl|auto]|].
  apply slit_fold; trivial. intros st1 qp Hst1. unfold slit_point.
  apply slit_fold; trivial. intros st2 f Hst2.
  now apply slit_neighbor_frame.
Qed.

(** *** The neighbour loop *)

Lemma neighbor_integrations_app l1 l2 :
  neighbor_integrations (l1 ++ l2)
  = neighbor_integrations l1 ++ neighbor_integrations l2.
Proof. apply omap_app. Qed.

Lemma neighbor_integrations_quiet epe l :
  Forall (quiet epe) l -> neighbor_integrations l = [].
Proof.
  induction 1 as [|c l [_ Hc] _ IH]; [reflexivity|].
  unfold neighbor_integrations in *. cbn. now rewrite Hc.
Qed.

(** [st'] is [st] after calls allowed by the flags, of which [l] are those
    of the neighbour loop. *)
Definition advances (epe : bool) (st st' : LoopState) (l : list Integration) : Prop :=
  exists extra, extends (enabled epe) st st' extra /\
                neighbor_integrations extra = l.

Lemma frame_advances epe st st' :
  frame (quiet epe) st st' -> advances epe st st' [].
Proof.
  intros (x & Hc & He & Hs & HP). exists x. split.
  - repeat split; trivial. eapply Forall_impl; [exact HP|]. now intros c [].
  - eapply neighbor_integrations_quiet; eauto.
Qed.

Lemma advances_trans epe st1 st2 st3 l1 l2 :
  advances epe st1 st2 l1 -> advances epe st2 st3 l2 ->
  advances epe st1 st3 (l1 ++ l2).
Proof.
  intros (x & (Hc & He & Hs & HP) & Hx) (y & (Hc' & He' & Hs' & HP') & Hy).
  exists (x ++ y). split.
  - unfold extends. rewrite Hc', Hc, He', He, Hs', Hs, foldl_app, <- app_assoc.
    repeat split; trivial. now apply Forall_app.
  - rewrite neighbor_integrations_app. congruence.
Qed.

Lemma no_neighbor_spec epe e n_e st :
  fine_on e st ->
  let st' := if integrate_slits then slit_side e n_e st
             else if integrate_boundary_sides then boundary_sides st
             else st in
  frame (quiet epe) st st' /\ fine_on e st'.
Proof.
  intros Hfine. destruct integrate_slits eqn:Hsl.
  - destruct (slit_side_frame epe e n_e st Hsl Hfine) as (H1 & H2 & _). now split.
  - destruct integrate_boundary_sides eqn:Hbs.
    + destruct (boundary_sides_spec st) as (Hf & _ & _).
      split; [now apply boundary_sides_quiet|unfold fine_on; now rewrite Hf].
    + split; [apply frame_refl|trivial].
Qed.

Lemma neighbor_side_spec epe e st n_e :
  fine_on e st -> side (coarse_context st) = 0%nat ->
  let st' := neighbor_side e st n_e in
  advances epe st st' (side_integrations e n_e) /\ fine_on e st'.
Proof.
  intros [Hel Hsol] Hside. unfold neighbor_side, side_integrations.
  set (st1 := if _ || _ then _ else st).
  assert (calls st1 = calls st /\ error_per_cell st1 = error_per_cell st /\
          coarse_context st1 = coarse_context st /\ fine_on e st1 /\
          (neighbor_ptr mesh e n_e <> None -> side (fine_context st1) = n_e))
    as (Hc1 & He1 & Hco1 & Hfine1 & Hs1).
  { subst st1. destruct (bool_decide _ || _) eqn:Hb; cbn.
    - repeat split; trivial.
    - apply orb_false_iff in Hb as [Hb _].
      apply bool_decide_eq_false in Hb.
      repeat split; trivial. intros; contradiction. }
  assert (advances epe st st1 []) as Hadv1.
  { apply frame_advances, frame_same; trivial. now rewrite Hco1. }
  destruct (finite_neighbor e n_e) as [f|] eqn:Hfn.
  2:{ destruct (no_neighbor_spec epe e n_e st1 Hfine1) as [H1 H2].
      split; trivial.
      apply (advances_trans epe st st1 _ [] []); auto using frame_advances. }
  assert (neighbor_ptr mesh e n_e <> None) as Hn.
  { unfold finite_neighbor in Hfn. now destruct (neighbor_ptr mesh e n_e). }
  destruct (case1_or_case2 e f); [|split; trivial].
  set (st2 := with_coarse (pre_fe_reinit f) st1).
  destruct (internal_sides_spec neighbor_loop st2)
    as (Hf & Hco & _ & Hc & He & Hs & _).
  destruct (count_flux_faces_spec (internal_sides neighbor_loop st2))
    as (Hf' & Hco' & Hc' & He').
  split.
  2:{ unfold fine_on. rewrite Hf', Hf. exact Hfine1. }
  eexists. split.
  - unfold extends. rewrite Hc', He', Hco', Hc, He, Hco. cbn.
    rewrite Hc1, He1, Hco1, Hside. repeat split; trivial.
    apply Forall_forall. intros c Hin. apply list_elem_of_In, in_map_iff in Hin.
    destruct Hin as (v & <- & _). exact I.
  - destruct Hfine1 as [Hel1 Hsol1].
    assert (fine_context st2 = {| elem := Some e; side := n_e;
                                  elem_solution := system_solution |}) as Hfc.
    { cbn. destruct (fine_context st1) as [a b c]. cbn in *.
      rewrite Hel1, Hsol1, (Hs1 Hn). reflexivity. }
    assert (coarse_context st2 = {| elem := Some f; side := 0%nat;
                                    elem_solution := system_solution |}) as Hcc.
    { cbn. unfold pre_fe_reinit. now rewrite Hco1, Hside. }
    unfold integration_at. rewrite Hfc, Hcc.
    generalize (List.filter significant (seq 0 n_vars)).
    induction l as [|v l IH]; [reflexivity|].
    unfold neighbor_integrations in *. cbn. now rewrite IH.
Qed.

Lemma neighbor_sides_spec epe e l : forall st,
  fine_on e st -> side (coarse_context st) = 0%nat ->
  let st' := foldl (neighbor_side e) st l in
  advances epe st st' (flat_map (side_integrations e) l) /\ fine_on e st'.
Proof.
  induction l as [|n_e l IH]; intros st Hfine Hside; cbn.
  - split; trivial. apply frame_advances, frame_refl.
  - destruct (neighbor_side_spec epe e st n_e Hfine Hside) as [H1 H2].
    assert (side (coarse_context (neighbor_side e st n_e)) = 0%nat) as Hside'.
    { destruct H1 as (x & (_ & _ & Hs & _) & _). congruence. }
    destruct (IH _ H2 Hside') as [H3 H4].
    split; trivial. eapply advances_trans; eauto.
Qed.

Lemma element_spec epe st e :
  side (coarse_context st) = 0%nat ->
  advances epe st (element epe st e) (element_integrations e).
Proof.
  intros Hside. unfold element, element_integrations.
  destruct (infinite mesh e); [apply frame_advances, frame_refl|].
  pose proof (parent_of_frame epe e st) as Hp.
  set (st1 := parent_of epe e st) in *.
  assert (side (coarse_context st1) = 0%nat) as Hside1.
  { destruct Hp as (x & _ & _ & Hs & _). congruence. }
  set (st2 := with_fine (pre_fe_reinit e) st1).
  destruct (neighbor_sides_spec epe e (seq 0 (n_sides mesh e)) st2) as [H _];
    [now split|exact Hside1|].
  apply (advances_trans epe st st2 _ []); trivial.
  apply (advances_trans epe st st1 _ [] []); [now apply frame_advances|].
  apply frame_advances. now apply frame_same.
Qed.

Lemma element_loop_fold epe l : forall st,
  side (coarse_context st) = 0%nat ->
  advances epe st (foldl (element epe) st l) (flat_map element_integrations l).
Proof.
  induction l as [|e l IH]; intros st Hside; cbn.
  - apply frame_advances, frame_refl.
  - pose proof (element_spec epe st e Hside) as H.
    eapply advances_trans; [exact H|]. apply IH.
    destruct H as (x & (_ & _ & Hs & _) & _). congruence.
Qed.

(** The calls of one run, and what they leave in [error_per_cell]. *)
Lemma element_loop_spec epe :
  let st := element_loop epe in
  error_per_cell st
    = foldl apply_call (replicate (max_elem_id mesh) 0) (calls st) /\
  Forall (enabled epe) (calls st) /\
  neighbor_integrations (calls st) = mesh_integrations.
Proof.
  destruct (element_loop_fold epe (active_local_element_ptr_range mesh)
              initial_state eq_refl) as (x & (Hc & He & _ & HP) & Hx).
  cbn in Hc, He. unfold element_loop. rewrite Hc, He. auto.
Qed.

Lemma add_to_length i x v : length (add_to i x v) = length v.
Proof. apply length_alter. Qed.

Lemma add_to_lookup i j x v :
  (i < length v)%nat ->
  add_to j x v !!! i = v !!! i + (if decide (j = i) then x else 0).
Proof.
  intros Hi. unfold add_to. destruct (decide (j = i)) as [->|Hne].
  - rewrite list_lookup_total_alter, decide_True by auto. reflexivity.
  - rewrite list_lookup_total_alter, decide_False by tauto. lra.
Qed.

Lemma apply_call_length v c : length (apply_call v c) = length v.
Proof.
  destruct c as [c|ctx w]; cbn.
  - now rewrite !add_to_length.
  - destruct (boundary_side_integration ctx w); [apply add_to_length|trivial].
Qed.

Lemma apply_call_lookup i v c :
  (i < length v)%nat -> apply_call v c !!! i = v !!! i + contribution i c.
Proof.
  intros Hi. destruct c as [c|ctx w]; cbn.
  - rewrite !add_to_lookup by (rewrite ?add_to_length; trivial). lra.
  - destruct (boundary_side_integration ctx w).
    + now rewrite add_to_lookup.
    + lra.
Qed.

Lemma apply_calls_spec l : forall v,
  length (foldl apply_call v l) = length v /\
  forall i, (i < length v)%nat ->
            foldl apply_call v l !!! i = v !!! i + accumulated l i.
Proof.
  induction l as [|c l IH]; intros v; cbn.
  - split; trivial. intros. unfold accumulated. cbn. lra.
  - destruct (IH (apply_call v c)) as [Hlen Hsum].
    rewrite apply_call_length in Hlen, Hsum. split; trivial.
    intros i Hi. rewrite Hsum, apply_call_lookup by trivial.
    unfold accumulated. cbn. lra.
Qed.

Lemma lookup_total_replicate_0 n i : (i < n)%nat -> replicate n 0 !!! i = 0.
Proof. intros Hi. now apply list_lookup_total_correct, lookup_replicate_2. Qed.

(** *** Where the neighbour loop integrates *)

Lemma side_integrations_elem c e n_e :
  c ∈ side_integrations e n_e <->
  exists f v, c = face_integration e n_e f v /\
              finite_neighbor e n_e = Some f /\ case1_or_case2 e f = true /\
              (v < n_vars)%nat /\ significant v = true.
Proof.
  unfold side_integrations. rewrite list_elem_of_In. split.
  - destruct (finite_neighbor e n_e) as [f|]; [|intros []].
    destruct (case1_or_case2 e f) eqn:Hcase; [|intros []].
    intros Hin. apply in_map_iff in Hin as (v & <- & Hv).
    apply filter_In in Hv as [Hv Hs]. apply in_seq in Hv.
    exists f, v. repeat split; trivial. lia.
  - intros (f & v & -> & -> & -> & Hv & Hs).
    apply in_map, filter_In. split; trivial. apply in_seq. lia.
Qed.

Lemma element_integrations_elem c e :
  c ∈ element_integrations e <->
  exists n_e f v, c = face_integration e n_e f v /\
                  infinite mesh e = false /\ (n_e < n_sides mesh e)%nat /\
                  finite_neighbor e n_e = Some f /\ case1_or_case2 e f = true /\
                  (v < n_vars)%nat /\ significant v = true.
Proof.
  unfold element_integrations. split.
  - destruct (infinite mesh e); [intros H; inversion H|].
    intros Hin. apply list_elem_of_In, in_flat_map in Hin as (n_e & Hn & Hin).
    apply in_seq in Hn. apply list_elem_of_In, side_integrations_elem in Hin.
    destruct Hin as (f & v & H). exists n_e, f, v.
    intuition (trivial; lia).
  - intros (n_e & f & v & Hc & -> & Hn & H).
    apply list_elem_of_In, in_flat_map. exists n_e. split; [apply in_seq; lia|].
    apply list_elem_of_In, side_integrations_elem. eauto.
Qed.

Lemma mesh_integrations_elem c :
  c ∈ mesh_integrations <->
  exists e n_e f v, c = face_integration e n_e f v /\
                    e ∈ active_local_element_ptr_range mesh /\
                    infinite mesh e = false /\ (n_e < n_sides mesh e)%nat /\
                    finite_neighbor e n_e = Some f /\ case1_or_case2 e f = true /\
                    (v < n_vars)%nat /\ significant v = true.
Proof.
  unfold mesh_integrations. rewrite list_elem_of_In, in_flat_map. split.
  - intros (e & He & Hin).
    apply list_elem_of_In, element_integrations_elem in Hin.
    destruct Hin as (n_e & f & v & Hc & H). exists e, n_e, f, v.
    split; trivial. split; [now apply list_elem_of_In|trivial].
  - intros (e & n_e & f & v & Hc & He & H). exists e.
    split; [now apply list_elem_of_In|].
    apply list_elem_of_In, element_integrations_elem. eauto 10.
Qed.

Lemma NoDup_flat_map {A B} (f : A -> list B) (key : B -> A) (l : list A) :
  (forall a b, b ∈ f a -> key b = a) -> (forall a, NoDup (f a)) ->
  NoDup l -> NoDup (flat_map f l).
Proof.
  intros Hkey Hf. induction 1 as [|a l Ha Hl IH]; cbn; [constructor|].
  apply NoDup_app. split; [apply Hf|]. split; trivial.
  intros b Hb Hb'. apply list_elem_of_In, in_flat_map in Hb' as (a' & Ha' & Hb').
  apply list_elem_of_In in Hb', Ha'.
  apply Hkey in Hb, Hb'. apply Ha. congruence.
Qed.

Lemma NoDup_side_integrations e n_e : NoDup (side_integrations e n_e).
Proof.
  unfold side_integrations. destruct (finite_neighbor e n_e) as [f|]; [|constructor].
  destruct (case1_or_case2 e f); [|constructor].
  apply NoDup_fmap_2.
  - intros v w H. now inversion H.
  - apply NoDup_ListNoDup, List.NoDup_filter, seq_NoDup.
Qed.

Lemma NoDup_element_integrations e : NoDup (element_integrations e).
Proof.
  unfold element_integrations. destruct (infinite mesh e); [constructor|].
  apply (NoDup_flat_map _ (fun c => side (fine c))).
  - intros n_e c Hc. apply side_integrations_elem in Hc as (f & v & -> & _).
    reflexivity.
  - apply NoDup_side_integrations.
  - apply NoDup_ListNoDup, seq_NoDup.
Qed.

Lemma NoDup_mesh_integrations :
  NoDup (active_local_element_ptr_range mesh) -> NoDup mesh_integrations.
Proof.
  apply (NoDup_flat_map _ (fun c => get_elem_id (fine c))).
  - intros e c Hc.
    apply element_integrations_elem in Hc as (n_e & f & v & -> & _).
    reflexivity.
  - apply NoDup_element_integrations.
Qed.

Lemma case1_or_case2_spec e f :
  case1_or_case2 e f = true <->
  (active mesh f = true /\ level mesh f = level mesh e /\ (e < f)%nat)
  \/ (level mesh f < level mesh e)%nat.
Proof.
  unfold case1_or_case2.
  rewrite orb_true_iff, !andb_true_iff, Nat.eqb_eq, !Nat.ltb_lt. tauto.
Qed.

Lemma finite_neighbor_spec e n_e f :
  finite_neighbor e n_e = Some f <->
  neighbor_ptr mesh e n_e = Some f /\ infinite mesh f = false.
Proof.
  unfold finite_neighbor. destruct (neighbor_ptr mesh e n_e) as [g|].
  - destruct (infinite mesh g) eqn:Hg; split.
    + discriminate.
    + intros [[= ->] ?]. congruence.
    + intros [= ->]. auto.
    + now intros [-> _].
  - split; [discriminate|now intros []].
Qed.

(** ** The two properties of [estimate_error] *)

(** C4 (as the code has it).  Every slot of [error_per_cell] holds, when
    the element loop ends, the sum of what the calls of the hooks added to
    it: one call of [internal_side_integration] adds its [fine_error] to the
    slot of the fine element and its [coarse_error] to the slot of the coarse
    element, two values that agree where the hook makes them agree.  The
    square root is taken once, after the loop and after [reduce_error], of
    the entries that are not zero, and before the optional division by the
    number of flux faces. *)
Theorem contributions_then_square_root (estimate_parent_error : bool) :
  let st := element_loop estimate_parent_error in
  let summed := reduce_error (error_per_cell st) in
  length (error_per_cell st) = max_elem_id mesh /\
  (forall i, (i < max_elem_id mesh)%nat ->
     error_per_cell st !!! i
     = fold_right Rplus 0 (map (contribution i) (calls st))) /\
  (forall c i,
     contribution i (internal_call c)
     = (if decide (get_elem_id (fine c) = i)
        then fst (internal_side_integration c) else 0)
       + (if decide (get_elem_id (coarse c) = i)
          then snd (internal_side_integration c) else 0)) /\
  (forall c,
     fst (internal_side_integration c) = snd (internal_side_integration c) ->
     get_elem_id (fine c) <> get_elem_id (coarse c) ->
     contribution (get_elem_id (fine c)) (internal_call c)
     = contribution (get_elem_id (coarse c)) (internal_call c)) /\
  (forall i x, summed !! i = Some x ->
     estimate_error estimate_parent_error !! i
     = Some (let root := if Req_dec_T x 0 then x else sqrt x in
             if scale_by_n_flux_faces
             then match reduce_error (n_flux_faces st) !! i with
                  | Some n => if Req_dec_T n 0 then root else root / n
                  | None => root
                  end
             else root)).
Proof.
  intros st summed.
  destruct (element_loop_spec estimate_parent_error) as (He & _ & _).
  fold st in He.
  destruct (apply_calls_spec (calls st) (replicate (max_elem_id mesh) 0))
    as [Hlen Hsum].
  rewrite length_replicate in Hlen, Hsum.
  split; [now rewrite He|]. split; [|split; [|split]].
  - intros i Hi. rewrite He, Hsum, lookup_total_replicate_0 by trivial.
    unfold accumulated. lra.
  - reflexivity.
  - intros c Heq Hne. cbn.
    rewrite decide_True, (decide_False (P := get_elem_id (coarse c) = _)),
      decide_False, decide_True by congruence.
    lra.
  - intros i x Hx. unfold estimate_error. fold st. fold summed.
    assert (map square_root summed !! i
            = Some (if Req_dec_T x 0 then x else sqrt x)) as Hroot.
    { change (map square_root summed) with (square_root <$> summed).
      rewrite list_lookup_fmap, Hx. cbn. unfold square_root, is_zero.
      now destruct (Req_dec_T x 0). }
    destruct scale_by_n_flux_faces; [|exact Hroot].
    rewrite list_lookup_imap, Hroot. cbn. unfold scale, is_zero.
    destruct (reduce_error (n_flux_faces st) !! i) as [n|]; [|reflexivity].
    now destruct (Req_dec_T n 0).
Qed.

(** C10.  The neighbour loop integrates every face between two active
    elements once: its integrations are without repetition, and they are
    those over a side of an active local element [e] with a neighbour [f]
    that is active, on the level of [e] and of greater id, or that is on a
    coarser level.  So of two active neighbours of one level only the one of
    smaller id integrates their face, and of two neighbours of different
    levels only the finer one does.  The other calls of
    [internal_side_integration] are those of the parent pass and of the
    slits, made only where [estimate_parent_error] or [integrate_slits] is
    set. *)
Theorem internal_face_integrated_once (estimate_parent_error : bool) :
  NoDup (active_local_element_ptr_range mesh) ->
  let log := calls (element_loop estimate_parent_error) in
  let integrations := neighbor_integrations log in
  NoDup integrations /\
  (forall c,
     c ∈ integrations <->
     exists e n_e f v,
       c = face_integration e n_e f v /\
       e ∈ active_local_element_ptr_range mesh /\ infinite mesh e = false /\
       (n_e < n_sides mesh e)%nat /\
       neighbor_ptr mesh e n_e = Some f /\ infinite mesh f = false /\
       ((active mesh f = true /\ level mesh f = level mesh e /\ (e < f)%nat)
        \/ (level mesh f < level mesh e)%nat) /\
       (v < n_vars)%nat /\ significant v = true) /\
  (forall e n_e f n_f v,
     e ∈ active_local_element_ptr_range mesh ->
     f ∈ active_local_element_ptr_range mesh ->
     infinite mesh e = false -> infinite mesh f = false ->
     (n_e < n_sides mesh e)%nat -> (n_f < n_sides mesh f)%nat ->
     neighbor_ptr mesh e n_e = Some f -> neighbor_ptr mesh f n_f = Some e ->
     active mesh e = true -> active mesh f = true ->
     level mesh e = level mesh f ->
     (v < n_vars)%nat -> significant v = true ->
     (e < f)%nat ->
     face_integration e n_e f v ∈ integrations /\
     face_integration f n_f e v ∉ integrations) /\
  (forall e n_e f v,
     e ∈ active_local_element_ptr_range mesh -> infinite mesh e = false ->
     (n_e < n_sides mesh e)%nat ->
     neighbor_ptr mesh e n_e = Some f -> infinite mesh f = false ->
     (level mesh f < level mesh e)%nat ->
     (v < n_vars)%nat -> significant v = true ->
     face_integration e n_e f v ∈ integrations /\
     forall n_f, face_integration f n_f e v ∉ integrations) /\
  (forall c,
     internal_call c ∈ log ->
     site c = neighbor_loop
     \/ (site c = parent_pass /\ estimate_parent_error = true)
     \/ (exists qp n, site c = slit qp n /\ integrate_slits = true)).
Proof.
  intros Hnd log integrations.
  destruct (element_loop_spec estimate_parent_error) as (_ & Hen & Hint).
  fold log in Hen, Hint. fold integrations in Hint.
  assert (forall c,
     c ∈ integrations <->
     exists e n_e f v,
       c = face_integration e n_e f v /\
       e ∈ active_local_element_ptr_range mesh /\ infinite mesh e = false /\
       (n_e < n_sides mesh e)%nat /\
       neighbor_ptr mesh e n_e = Some f /\ infinite mesh f = false /\
       ((active mesh f = true /\ level mesh f = level mesh e /\ (e < f)%nat)
        \/ (level mesh f < level mesh e)%nat) /\
       (v < n_vars)%nat /\ significant v = true) as Hchar.
  { intros c. rewrite Hint, mesh_integrations_elem. split.
    - intros (e & n_e & f & v & Hc & He & Hi & Hn & Hf & Hcase & Hv & Hs).
      apply finite_neighbor_spec in Hf as [Hf Hif].
      apply case1_or_case2_spec in Hcase. exists e, n_e, f, v. tauto.
    - intros (e & n_e & f & v & Hc & He & Hi & Hn & Hf & Hif & Hcase & Hv & Hs).
      exists e, n_e, f, v. rewrite finite_neighbor_spec, case1_or_case2_spec.
      tauto. }
  assert (forall e n_e f v e' n_e' f' v',
            face_integration e n_e f v = face_integration e' n_e' f' v' ->
            e = e' /\ f = f') as Hinj.
  { intros * H. inversion H. auto. }
  split; [rewrite Hint; now apply NoDup_mesh_integrations|].
  split; [exact Hchar|]. split; [|split].
  - intros e n_e f n_f v He Hf Hie Hif Hne Hnf Hef Hfe Hae Haf Hl Hv Hs Hlt.
    split.
    + apply Hchar. exists e, n_e, f, v. repeat split; trivial. left. auto.
    + intros Hin. apply Hchar in Hin.
      destruct Hin as (e' & n' & f' & v' & Hc & _ & _ & _ & _ & _ & Hcase & _).
      apply Hinj in Hc as [<- <-]. lia.
  - intros e n_e f v He Hie Hne Hef Hif Hl Hv Hs. split.
    + apply Hchar. exists e, n_e, f, v. repeat split; trivial. now right.
    + intros n_f Hin. apply Hchar in Hin.
      destruct Hin as (e' & n' & f' & v' & Hc & _ & _ & _ & _ & _ & Hcase & _).
      apply Hinj in Hc as [<- <-]. lia.
  - intros c Hc. rewrite List.Forall_forall in Hen.
    apply list_elem_of_In, Hen in Hc. cbn in Hc.
    destruct (site c) as [| |qp n]; [right; left; now split|now left|].
    right; right. now exists qp, n.
Qed.

Lemma neighbor_calls_only (l : list Call) :
  Forall (fun c => exists i, neighbor_integration c = Some i) l ->
  l = map internal_call (neighbor_integrations l).
Proof.
  induction 1 as [|c l [i Hi] _ IH]; [reflexivity|].
  unfold neighbor_integrations in *. cbn. rewrite Hi. cbn. f_equal; [|exact IH].
  destruct c as [c|ctx v]; [|discriminate]. cbn in Hi.
  destruct (site c); congruence.
Qed.

(** X6.  With [estimate_parent_error], [integrate_slits] and
    [integrate_boundary_sides] off, the hooks are called for the faces of
    the neighbour loop and for nothing else, in the order of the elements,
    their sides and the variables. *)
Theorem only_the_neighbor_loop :
  integrate_slits = false -> integrate_boundary_sides = false ->
  calls (element_loop false) = map internal_call mesh_integrations.
Proof.
  intros Hslits Hboundary.
  destruct (element_loop_spec false) as (_ & Hen & Hint).
  rewrite <- Hint. apply neighbor_calls_only.
  eapply Forall_impl; [exact Hen|].
  intros [c|ctx v] Hc; cbn in Hc.
  - cbn. destruct (site c); [discriminate|eauto|congruence].
  - congruence.
Qed.

(** ** The number of flux faces *)

(** The faces the neighbour loop selects on side [n_e] of [e], on [e] and
    on the mesh, each as the fine and the coarse element it lies
    between. *)
Definition side_faces (e n_e : nat) : list (nat * nat) :=
  match finite_neighbor e n_e with
  | Some f => if case1_or_case2 e f then [(e, f)] else []
  | None => []
  end.

Definition element_faces (e : nat) : list (nat * nat) :=
  if infinite mesh e then []
  else flat_map (side_faces e) (seq 0 (n_sides mesh e)).

Definition mesh_faces : list (nat * nat) :=
  flat_map element_faces (active_local_element_ptr_range mesh).

(** The part of a flux face the coarse element [f] gets for a face of the
    fine element [e]. *)
Definition coarse_share (e f : nat) : R :=
  1 / INR (2 ^ ((dim mesh f - 1) * (level mesh e - level mesh f))).

(** What one face adds to the flux faces of element [i]. *)
Definition flux_faces_of (i : nat) (face : nat * nat) : R :=
  (if decide (fst face = i) then 1 else 0)
  + (if decide (snd face = i) then coarse_share (fst face) (snd face) else 0).

Definition count_face (n : list R) (face : nat * nat) : list R :=
  add_to (snd face) (coarse_share (fst face) (snd face))
         (add_to (fst face) 1 n).

Lemma add_to_at i j x v :
  (i < length v)%nat ->
  add_to j x v !!! i = v !!! i + (if decide (j = i) then x else 0).
Proof.
  intros Hi. unfold add_to. rewrite list_lookup_total_alter.
  destruct (decide (j = i)) as [->|Hne].
  - rewrite decide_True by (split; [reflexivity|exact Hi]). reflexivity.
  - rewrite decide_False by (intros [? _]; contradiction). apply eq_sym, Rplus_0_r.
Qed.

Lemma count_faces_spec l : forall n,
  length (foldl count_face n l) = length n /\
  forall i, (i < length n)%nat ->
    foldl count_face n l !!! i
    = n !!! i + fold_right Rplus 0 (map (flux_faces_of i) l).
Proof.
  induction l as [|face l IH]; intros n; cbn.
  - split; trivial. intros. lra.
  - destruct (IH (count_face n face)) as [Hlen Hsum].
    unfold count_face in Hlen, Hsum at 1. rewrite !add_to_length in Hlen, Hsum.
    split; [exact Hlen|]. intros i Hi. rewrite Hsum by exact Hi.
    unfold count_face, flux_faces_of.
    rewrite !add_to_at by (rewrite ?add_to_length; exact Hi). lra.
Qed.

Section NeighborLoopOnly.

Hypothesis scaled : scale_by_n_flux_faces = true.
Hypothesis no_slits : integrate_slits = false.
Hypothesis no_boundary_sides : integrate_boundary_sides = false.

Lemma neighbor_side_faces e st n_e :
  elem (fine_context st) = Some e ->
  let st' := neighbor_side e st n_e in
  n_flux_faces st' = foldl count_face (n_flux_faces st) (side_faces e n_e) /\
  elem (fine_context st') = Some e.
Proof.
  intros Hel. unfold neighbor_side, side_faces.
  set (st1 := if _ || _ then _ else st).
  assert (n_flux_faces st1 = n_flux_faces st /\ elem (fine_context st1) = Some e)
    as [Hn1 Hel1] by (subst st1; destruct (_ || _); cbn; auto).
  destruct (finite_neighbor e n_e) as [f|].
  - destruct (case1_or_case2 e f); [|now split].
    set (st2 := with_coarse (pre_fe_reinit f) st1).
    destruct (internal_sides_spec neighbor_loop st2) as (Hf & Hc & Hn & _).
    unfold count_flux_faces. rewrite scaled. cbn [n_flux_faces fine_context
      with_n_flux_faces]. rewrite Hf. split; [|exact Hel1].
    unfold coarse_n_flux_faces_increment. rewrite Hn, Hc, Hf. cbn.
    unfold get_elem_id. rewrite Hel1, Hn1. reflexivity.
  - rewrite no_slits, no_boundary_sides. now split.
Qed.

Lemma neighbor_sides_faces e l : forall st,
  elem (fine_context st) = Some e ->
  let st' := foldl (neighbor_side e) st l in
  n_flux_faces st' = foldl count_face (n_flux_faces st) (flat_map (side_faces e) l) /\
  elem (fine_context st') = Some e.
Proof.
  induction l as [|n_e l IH]; intros st Hel; cbn; [now split|].
  destruct (neighbor_side_faces e st n_e Hel) as [H1 H2].
  destruct (IH _ H2) as [H3 H4]. split; [|exact H4].
  cbn zeta in H3. rewrite H3, H1, foldl_app. reflexivity.
Qed.

Lemma element_faces_spec st e :
  n_flux_faces (element false st e)
  = foldl count_face (n_flux_faces st) (element_faces e).
Proof.
  unfold element, element_faces. destruct (infinite mesh e); [reflexivity|].
  assert (parent_of false e st = st) as ->.
  { unfold parent_of, compute_on_parent. now destruct (parent mesh e). }
  now destruct (neighbor_sides_faces e (seq 0 (n_sides mesh e))
                  (with_fine (pre_fe_reinit e) st) eq_refl).
Qed.

Lemma element_loop_faces l : forall st,
  n_flux_faces (foldl (element false) st l)
  = foldl count_face (n_flux_faces st) (flat_map element_faces l).
Proof.
  induction l as [|e l IH]; intros st; cbn; [reflexivity|].
  now rewrite IH, element_faces_spec, foldl_app.
Qed.

End NeighborLoopOnly.

(** The shift of [coarse_n_flux_faces_increment] at a face. *)
Definition face_shift (face : nat * nat) : nat :=
  (dim mesh (snd face) - 1) * (level mesh (fst face) - level mesh (snd face)).

(** The counts stay exact in the [float]s of [n_flux_faces]: no coarse
    element is a point, no shift exceeds [max_shift], and the faces are so
    few that every count, a multiple of [1 / 2^max_shift] that is at most
    the number of faces, has a numerator of at most [2^24]. *)
Definition counted_exactly (max_shift : nat) : Prop :=
  Forall (fun face => (1 <= dim mesh (snd face))%nat /\
                      (face_shift face <= max_shift)%nat) mesh_faces /\
  (N.of_nat (length mesh_faces) * 2 ^ N.of_nat max_shift <= 2 ^ 24)%N.

(** X7.  With [scale_by_n_flux_faces] on and the parent pass, the slits
    and the boundary sides off, [n_flux_faces] counts the faces of the
    neighbour loop, whatever the variables: an element has one flux face
    for every face it is the fine element of and, for every face it is the
    coarse element of, the part [1 / 2^((dim-1)*(level difference))] of
    one.  This is stated where the shifts and the sums of the source are
    exact in its 32-bit integers and its [float]s. *)
Theorem flux_faces_counted (max_shift : nat) :
  scale_by_n_flux_faces = true ->
  integrate_slits = false -> integrate_boundary_sides = false ->
  counted_exactly max_shift ->
  let n := n_flux_faces (element_loop false) in
  length n = max_elem_id mesh /\
  forall i, (i < max_elem_id mesh)%nat ->
    n !!! i = fold_right Rplus 0 (map (flux_faces_of i) mesh_faces).
Proof.
  intros Hscaled Hslits Hboundary _. cbv zeta. unfold element_loop.
  rewrite (element_loop_faces Hscaled Hslits Hboundary).
  unfold initial_state. cbn [n_flux_faces]. rewrite Hscaled.
  destruct (count_faces_spec mesh_faces (replicate (max_elem_id mesh) 0))
    as [Hlen Hsum].
  rewrite length_replicate in Hlen, Hsum. split; [exact Hlen|].
  intros i Hi. rewrite Hsum by trivial.
  rewrite lookup_total_replicate_0 by trivial. lra.
Qed.

End Estimator.

(** ** Two meshes to run the estimator on *)

(** Two edges of one level, side 1 of element 0 against side 0 of
    element 1. *)
Definition two_edges : Mesh :=
  {| max_elem_id := 2;
     active_local_element_ptr_range := [0; 1]%nat;
     level := fun _ => 0%nat;
     active := fun _ => true;
     infinite := fun _ => false;
     parent := fun _ => None;
     child_ref_range := fun _ => [];
     n_sides := fun _ => 2%nat;
     neighbor_ptr := fun e n_e =>
       match e, n_e with
       | 0, 1 => Some 1 | 1, 0 => Some 0 | _, _ => None
       end%nat;
     dim := fun _ => 1%nat;
     active_family_tree_by_neighbor := fun _ _ => [] |}.

(** Element 0 next to the refined element 1, whose children are 2 and 3. *)
Definition refined_edge : Mesh :=
  {| max_elem_id := 4;
     active_local_element_ptr_range := [0; 2; 3]%nat;
     level := fun e => match e with 2 | 3 => 1 | _ => 0 end%nat;
     active := fun e => match e with 1 => false | _ => true end%nat;
     infinite := fun _ => false;
     parent := fun e => match e with 2 | 3 => Some 1 | _ => None end%nat;
     child_ref_range := fun e => match e with 1 => [2; 3] | _ => [] end%nat;
     n_sides := fun _ => 2%nat;
     neighbor_ptr := fun e n_e =>
       match e, n_e with
       | 0, 1 => Some 1 | 1, 0 => Some 0
       | 2, 0 => Some 0 | 2, 1 => Some 3 | 3, 0 => Some 2
       | _, _ => None
       end%nat;
     dim := fun _ => 1%nat;
     active_family_tree_by_neighbor := fun nb p =>
       match nb, p with 0, 1 => [0] | _, _ => [] end%nat |}.

(** A hook in the manner of the estimators derived from this class, which
    weight one jump integral with the size of either element: 1 for the
    fine, 4 for the coarse element. *)
Definition weighted_hook (c : Integration) : R * R := (1, 4).

Definition no_boundary_flux (ctx : FEMContext) (v : nat) : option R := None.

Definition run_loop (mesh : Mesh) : LoopState :=
  element_loop mesh 1 (fun _ => 1) (fun _ => false) false false false
               (fun _ _ => []) (fun _ _ => 0%nat)
               weighted_hook no_boundary_flux false.

Definition run_estimate (mesh : Mesh) : list R :=
  estimate_error mesh 1 (fun _ => 1) (fun _ => false) false false false
                 (fun _ _ => []) (fun _ _ => 0%nat)
                 weighted_hook no_boundary_flux (fun v => v) false.

Lemma is_zero_1 : is_zero 1 = false.
Proof. unfold is_zero. destruct (Req_dec_T 1 0); [lra|reflexivity]. Qed.

Lemma significant_1 v :
  significant (fun _ => 1) (fun _ => false) v = true.
Proof. unfold significant. now rewrite is_zero_1. Qed.

Lemma run_two_edges :
  calls (run_loop two_edges) = [internal_call (face_integration 0 1 1 0)] /\
  error_per_cell (run_loop two_edges) = [1; 4].
Proof.
  unfold run_loop, element_loop. cbn.
  unfold internal_sides, internal_side. cbn. rewrite !significant_1. cbn.
  split; [reflexivity|]. f_equal; [lra|f_equal; lra].
Qed.

Lemma square_root_1 : square_root 1 = 1.
Proof. unfold square_root. rewrite is_zero_1. apply sqrt_1. Qed.

Lemma square_root_4 : square_root 4 = 2.
Proof.
  unfold square_root, is_zero. destruct (Req_dec_T 4 0); [lra|].
  replace 4 with (2 * 2) by lra. apply sqrt_square. lra.
Qed.

(** On [two_edges] the one internal face adds 1 to the slot of element 0
    and 4 to the slot of element 1: the two elements do not get the same
    contribution, and the estimates are 1 and 2. *)
Lemma same_contribution_counterexample :
  calls (run_loop two_edges) = [internal_call (face_integration 0 1 1 0)] /\
  contribution weighted_hook no_boundary_flux 0
               (internal_call (face_integration 0 1 1 0)) = 1 /\
  contribution weighted_hook no_boundary_flux 1
               (internal_call (face_integration 0 1 1 0)) = 4 /\
  error_per_cell (run_loop two_edges) = [1; 4] /\
  run_estimate two_edges = [1; 2].
Proof.
  destruct run_two_edges as [Hcalls Herr].
  split; [exact Hcalls|].
  split; [cbn; repeat case_decide; try lia; lra|].
  split; [cbn; repeat case_decide; try lia; lra|].
  split; [exact Herr|].
  unfold run_estimate, estimate_error. fold (run_loop two_edges). rewrite Herr. cbn.
  now rewrite square_root_1, square_root_4.
Qed.

Lemma contributions_then_square_root_witness :
  error_per_cell (run_loop two_edges) !!! 1%nat = 4 /\
  run_estimate two_edges !! 1%nat = Some 2.
Proof.
  destruct (contributions_then_square_root two_edges 1 (fun _ => 1)
              (fun _ => false) false false false (fun _ _ => [])
              (fun _ _ => 0%nat) weighted_hook no_boundary_flux (fun v => v)
              false) as (_ & Hsum & _ & _ & Hroot).
  fold (run_loop two_edges) in Hsum, Hroot. fold (run_estimate two_edges) in Hroot.
  destruct run_two_edges as [Hcalls Herr]. split.
  - rewrite (Hsum 1%nat) by (cbn; lia). rewrite Hcalls. cbn.
    repeat case_decide; try lia; lra.
  - rewrite (Hroot 1%nat 4) by now rewrite Herr.
    cbn. destruct (Req_dec_T 4 0); [lra|].
    f_equal. replace 4 with (2 * 2) by lra. apply sqrt_square. lra.
Defined.

Lemma internal_face_integrated_once_witness :
  let integrations := neighbor_integrations (calls (run_loop refined_edge)) in
  NoDup integrations /\
  (face_integration 2 1 3 0 ∈ integrations /\
   face_integration 3 0 2 0 ∉ integrations) /\
  (face_integration 2 0 0 0 ∈ integrations /\
   face_integration 0 1 2 0 ∉ integrations).
Proof.
  assert (NoDup (active_local_element_ptr_range refined_edge)) as Hnd.
  { apply (bool_decide_unpack (NoDup [0; 2; 3]%nat)). vm_compute. exact I. }
  destruct (internal_face_integrated_once refined_edge 1 (fun _ => 1)
              (fun _ => false) false false false (fun _ _ => [])
              (fun _ _ => 0%nat) weighted_hook no_boundary_flux false Hnd)
    as (H1 & _ & Hsame & Hcoarser & _).
  fold (run_loop refined_edge) in H1, Hsame, Hcoarser.
  split; [exact H1|]. split.
  - apply (Hsame 2 1 3 0 0)%nat; cbn; try reflexivity; try lia;
      try apply significant_1; apply list_elem_of_In; cbn; tauto.
  - destruct (Hcoarser 2 0 0 0)%nat as [Hin Hout]; cbn; try reflexivity;
      try lia; try apply significant_1; [apply list_elem_of_In; cbn; tauto|].
    split; [exact Hin|apply Hout].
Defined.

Lemma only_the_neighbor_loop_witness :
  calls (run_loop two_edges) = [internal_call (face_integration 0 1 1 0)].
Proof.
  unfold run_loop.
  rewrite (only_the_neighbor_loop two_edges 1 (fun _ => 1) (fun _ => false)
             false false false (fun _ _ => []) (fun _ _ => 0%nat)
             weighted_hook no_boundary_flux eq_refl eq_refl).
  unfold mesh_integrations, element_integrations, side_integrations. cbn.
  rewrite !significant_1. reflexivity.
Defined.

Lemma flux_faces_counted_witness :
  let n := n_flux_faces
             (element_loop refined_edge 1 (fun _ => 1) (fun _ => false)
                           true false false (fun _ _ => []) (fun _ _ => 0%nat)
                           weighted_hook no_boundary_flux false) in
  mesh_faces refined_edge = [(2, 0); (2, 3)]%nat /\
  counted_exactly refined_edge 0 /\
  length n = 4%nat /\
  forall i, (i < 4)%nat ->
    n !!! i = fold_right Rplus 0 (map (flux_faces_of refined_edge i)
                                      (mesh_faces refined_edge)).
Proof.
  assert (counted_exactly refined_edge 0) as Hexact.
  { split; [repeat constructor|apply N.leb_le; reflexivity]. }
  split; [reflexivity|]. split; [exact Hexact|].
  exact (flux_faces_counted refined_edge 1 (fun _ => 1) (fun _ => false)
           true false false (fun _ _ => []) (fun _ _ => 0%nat)
           weighted_hook no_boundary_flux 0 eq_refl eq_refl eq_refl Hexact).
Defined.

End JumpErrorEstimator.

(* ===================================================================== *)
(** * AdjointRefinementEstimator *)
(* ===================================================================== *)

(** [AdjointRefinementEstimator::estimate_error] of
    src/error_estimation/adjoint_refinement_estimator.C.  The solvers, the
    assembly, the mesh refinement and [EquationSystems::reinit] are not
    among the sources; they are parameters, arbitrary functions of the
    state.  A call that runs into an error of the library ([get_vector] of a
    name the system does not have, a parent that does not exist) has no
    outcome.  The assertions compiled in debug mode only are not
    modelled. *)

Module AdjointRefinementEstimator.
Local Open Scope R_scope.

Definition NumericVector := list R.

(** [a -= b], [a.dot(b)] and [a.init(b, false)]. *)
Definition vector_sub (a b : NumericVector) : NumericVector := zip_with Rminus a b.
Definition vector_add (a b : NumericVector) : NumericVector := zip_with Rplus a b.
Definition dot (a b : NumericVector) : R := foldr Rplus 0 (zip_with Rmult a b).
Definition init (b : NumericVector) : NumericVector := replicate (length b) 0.

(** What [estimate_error] touches of an [ImplicitSystem], ... *)
Record System := {
  solution : NumericVector;
  current_local_solution : NumericVector;
  vectors : gmap string NumericVector;
  vector_projections : gmap string bool;
  project_solution_on_reinit : bool;
  project_with_constraints : bool;
  is_adjoint_already_solved : bool;
  n_qois : nat
}.

(** ... of its [DofMap] ... *)
Record DofMap := {
  dof_indices : nat -> list nat;
  has_adjoint_dirichlet_boundaries : nat -> bool
}.

(** ... and of the mesh; a partitioner is known by a number. *)
Record MeshBase := {
  partitioner : option nat;
  allow_renumbering : bool;
  max_elem_id : nat;
  active_local_element_ptr_range : list nat;
  parent : nat -> option nat;
  node_ref_range : nat -> list nat;
  find_point_neighbors : nat -> nat -> list nat
}.

Record EquationSystems := {
  system : System;
  mesh : MeshBase;
  dof_map : DofMap
}.

Definition with_system (f : System -> System) (es : EquationSystems) : EquationSystems :=
  {| system := f (system es); mesh := mesh es; dof_map := dof_map es |}.

Definition with_mesh (f : MeshBase -> MeshBase) (es : EquationSystems) : EquationSystems :=
  {| system := system es; mesh := f (mesh es); dof_map := dof_map es |}.

Definition set_solution (v : NumericVector) (s : System) : System :=
  {| solution := v; current_local_solution := current_local_solution s;
     vectors := vectors s; vector_projections := vector_projections s;
     project_solution_on_reinit := project_solution_on_reinit s;
     project_with_constraints := project_with_constraints s;
     is_adjoint_already_solved := is_adjoint_already_solved s;
     n_qois := n_qois s |}.

Definition set_current_local_solution (v : NumericVector) (s : System) : System :=
  {| solution := solution s; current_local_solution := v;
     vectors := vectors s; vector_projections := vector_projections s;
     project_solution_on_reinit := project_solution_on_reinit s;
     project_with_constraints := project_with_constraints s;
     is_adjoint_already_solved := is_adjoint_already_solved s;
     n_qois := n_qois s |}.

Definition set_vectors (m : gmap string NumericVector) (s : System) : System :=
  {| solution := solution s; current_local_solution := current_local_solution s;
     vectors := m; vector_projections := vector_projections s;
     project_solution_on_reinit := project_solution_on_reinit s;
     project_with_constraints := project_with_constraints s;
     is_adjoint_already_solved := is_adjoint_already_solved s;
     n_qois := n_qois s |}.

Definition set_vector_projections (m : gmap string bool) (s : System) : System :=
  {| solution := solution s; current_local_solution := current_local_solution s;
     vectors := vectors s; vector_projections := m;
     project_solution_on_reinit := project_solution_on_reinit s;
     project_with_constraints := project_with_constraints s;
     is_adjoint_already_solved := is_adjoint_already_solved s;
     n_qois := n_qois s |}.

Definition set_project_solution_on_reinit (b : bool) (s : System) : System :=
  {| solution := solution s; current_local_solution := current_local_solution s;
     vectors := vectors s; vector_projections := vector_projections s;
     project_solution_on_reinit := b;
     project_with_constraints := project_with_constraints s;
     is_adjoint_already_solved := is_adjoint_already_solved s;
     n_qois := n_qois s |}.

Definition set_project_with_constraints (b : bool) (s : System) : System :=
  {| solution := solution s; current_local_solution := current_local_solution s;
     vectors := vectors s; vector_projections := vector_projections s;
     project_solution_on_reinit := project_solution_on_reinit s;
     project_with_constraints := b;
     is_adjoint_already_solved := is_adjoint_already_solved s;
     n_qois := n_qois s |}.

Definition set_partitioner (p : option nat) (m : MeshBase) : MeshBase :=
  {| partitioner := p; allow_renumbering := allow_renumbering m;
     max_elem_id := max_elem_id m;
     active_local_element_ptr_range := active_local_element_ptr_range m;
     parent := parent m; node_ref_range := node_ref_range m;
     find_point_neighbors := find_point_neighbors m |}.

Definition set_allow_renumbering (b : bool) (m : MeshBase) : MeshBase :=
  {| partitioner := partitioner m; allow_renumbering := b;
     max_elem_id := max_elem_id m;
     active_local_element_ptr_range := active_local_element_ptr_range m;
     parent := parent m; node_ref_range := node_ref_range m;
     find_point_neighbors := find_point_neighbors m |}.

(** [get_vector] raises an error for a name the system does not have. *)
Definition get_vector (name : string) (s : System) : option NumericVector :=
  vectors s !! name.

(** [get_vector(name) = v], for a vector the system has. *)
Definition set_vector (name : string) (v : NumericVector) (s : System) : System :=
  set_vectors (<[name := v]> (vectors s)) s.

Definition vector_preservation (name : string) (s : System) : bool :=
  default false (vector_projections s !! name).

Definition set_vector_preservation (name : string) (b : bool) (s : System) : System :=
  set_vector_projections (<[name := b]> (vector_projections s)) s.

(** A loop whose body may fail. *)
Fixpoint for_each {A S : Type} (f : S -> A -> option S) (st : S) (l : list A)
  : option S :=
  match l with
  | [] => Some st
  | x :: l => match f st x with
              | Some st => for_each f st l
              | None => None
              end
  end.

(** [n] times [f]. *)
Fixpoint times {S : Type} (n : nat) (f : S -> S) (st : S) : S :=
  match n with
  | O => st
  | S n => times n f (f st)
  end.

(** [v.resize(n)]: new entries are zero. *)
Definition resize (n : nat) (v : list R) : list R :=
  take n v ++ replicate (n - length v) 0.

(** [v[i] += x] on [error_per_cell]. *)
Definition add_at (i : nat) (x : R) (v : list R) : list R :=
  alter (fun y => y + x) i v.

(** What [estimate_error] saves before it refines. *)
Record Backup := {
  coarse_vectors : gmap string NumericVector;
  coarse_solution : NumericVector;
  coarse_local_solution : NumericVector;
  old_adjoints_projection_settings : list bool;
  old_projection_setting : bool;
  old_project_with_constraints_setting : bool;
  old_partitioner : option nat;
  old_renumbering_setting : bool
}.

Definition liftfunc_name (j : nat) : string :=
  "adjoint_lift_function" +:+ pretty j.

Section Estimator.

(** The members of the estimator. *)
Variables number_h_refinements number_p_refinements : nat.
Variables residual_evaluation_physics adjoint_evaluation_physics : option nat.
Variable qoi_set_has_index : nat -> bool.
Variable qoi_set_weight : nat -> R.
Variable computed_global_QoI_errors_before : list R.

(** What the function calls and the sources do not hold: the solvers, the
    assembly, the refinement, and the smaller services of [System] and
    [DofMap]. *)
Variable adjoint_solve : EquationSystems -> EquationSystems.
Variable assembly : EquationSystems -> EquationSystems.
Variable push_physics : nat -> EquationSystems -> EquationSystems.
Variable pop_physics : EquationSystems -> EquationSystems.
Variable add_vector : string -> System -> System.
Variable remove_vector : string -> System -> System.
Variable update : System -> System.
Variable adjoint_vector_name : nat -> string.
Variable enforce_adjoint_constraints_exactly :
  DofMap -> NumericVector -> nat -> NumericVector.
Variable es_reinit : EquationSystems -> EquationSystems.
Variable uniformly_refine uniformly_p_refine : MeshBase -> MeshBase.
Variable uniformly_coarsen uniformly_p_coarsen : MeshBase -> MeshBase.
Variable reduce_error : list R -> list R.

Definition get_adjoint_solution (j : nat) (s : System) : option NumericVector :=
  get_vector (adjoint_vector_name j) s.

Definition push_if (p : option nat) (es : EquationSystems) : EquationSystems :=
  match p with Some p => push_physics p es | None => es end.

Definition pop_if (p : option nat) (es : EquationSystems) : EquationSystems :=
  match p with Some _ => pop_physics es | None => es end.

(** Lines 117-134: the adjoint problem on the coarse space. *)
Definition coarse_adjoint_solve (es : EquationSystems) : EquationSystems :=
  if is_adjoint_already_solved (system es) then es
  else pop_if adjoint_evaluation_physics
         (adjoint_solve (push_if adjoint_evaluation_physics es)).

(** Lines 136-188: the coarse lift function of QoI [j]. *)
Definition coarse_lift (es : EquationSystems) (j : nat) : option EquationSystems :=
  if qoi_set_has_index j && has_adjoint_dirichlet_boundaries (dof_map es) j then
    let es := push_if residual_evaluation_physics es in
    let es := assembly es in
    coarse_residual ← get_vector "RHS Vector" (system es);
    let es := with_system (add_vector (liftfunc_name j)) es in
    _ ← get_vector (liftfunc_name j) (system es);
    adjoint ← get_adjoint_solution j (system es);
    let es := with_system (set_vector (liftfunc_name j) (init adjoint)) es in
    let lift := enforce_adjoint_constraints_exactly (dof_map es) (init adjoint) j in
    let es := with_system (set_vector (liftfunc_name j) lift) es in
    Some (pop_if residual_evaluation_physics es)
  else Some es.

Definition coarse_adjoints_and_lifts (es : EquationSystems) : option EquationSystems :=
  let es := coarse_adjoint_solve es in
  for_each coarse_lift es (seq 0 (n_qois (system es))).

(** Lines 199-219: the adjoint vectors are to be preserved by the reinits. *)
Definition preserve_adjoint (acc : list bool * System) (j : nat)
  : option (list bool * System) :=
  let (old, s) := acc in
  if qoi_set_has_index j then
    _ ← get_adjoint_solution j s;
    let adjoint_vector_name := adjoint_vector_name j in
    let old_adjoint_vector_projection_setting :=
      vector_preservation adjoint_vector_name s in
    Some (<[j := old_adjoint_vector_projection_setting]> old,
          set_vector_preservation adjoint_vector_name true s)
  else Some acc.

(** Lines 190-239. *)
Definition back_up (es : EquationSystems) : option (Backup * EquationSystems) :=
  let s := system es in
  let coarse_vectors := vectors s in
  let coarse_solution := solution s in
  let coarse_local_solution := current_local_solution s in
  '(old_adjoints, s) ←
     for_each preserve_adjoint (replicate (n_qois s) false, s) (seq 0 (n_qois s));
  let old_projection_setting := project_solution_on_reinit s in
  let s := set_project_solution_on_reinit true s in
  let old_project_with_constraints_setting := project_with_constraints s in
  let s := set_project_with_constraints false s in
  let old_partitioner := partitioner (mesh es) in
  let m := set_partitioner None (mesh es) in
  let old_renumbering_setting := allow_renumbering m in
  let m := set_allow_renumbering false m in
  Some ({| coarse_vectors := coarse_vectors;
           coarse_solution := coarse_solution;
           coarse_local_solution := coarse_local_solution;
           old_adjoints_projection_settings := old_adjoints;
           old_projection_setting := old_projection_setting;
           old_project_with_constraints_setting :=
             old_project_with_constraints_setting;
           old_partitioner := old_partitioner;
           old_renumbering_setting := old_renumbering_setting |},
        {| system := s; mesh := m; dof_map := dof_map es |}).

(** What the pointer [solution_vector] points to, if it is not null:
    [system.solution], [system.current_local_solution] or a named vector
    of the system, or a vector outside the system, given by what it
    holds. *)
Inductive SolutionVector :=
| points_to_solution
| points_to_current_local_solution
| points_to_vector (name : string)
| points_outside (newsol : NumericVector).

(** Lines 241-248: a solution vector, if there is one and it is not
    [system.solution], changes places with [system.solution].  With the
    equation systems comes what a vector outside the system holds after
    the exchange.  [None] is a pointer to a vector the system has not. *)
Definition use_solution_vector (solution_vector : option SolutionVector)
    (es : EquationSystems) : option (EquationSystems * option NumericVector) :=
  match solution_vector with
  | None | Some points_to_solution => Some (es, None)
  | Some points_to_current_local_solution =>
      Some (with_system
              (fun s => update (set_current_local_solution (solution s)
                                  (set_solution (current_local_solution s) s)))
              es,
            None)
  | Some (points_to_vector name) =>
      newsol ← get_vector name (system es);
      Some (with_system
              (fun s => update (set_vector name (solution s)
                                  (set_solution newsol s)))
              es,
            None)
  | Some (points_outside newsol) =>
      Some (with_system (fun s => update (set_solution newsol s)) es,
            Some (solution (system es)))
  end.

(** Lines 286-296. *)
Definition refine (es : EquationSystems) : EquationSystems :=
  let es := times number_h_refinements
                  (fun es => es_reinit (with_mesh uniformly_refine es)) es in
  times number_p_refinements
        (fun es => es_reinit (with_mesh uniformly_p_refine es)) es.

(** Lines 298-317. *)
Definition copy_coarse_adjoint (s : System) (acc : list (option NumericVector))
    (j : nat) : option (list (option NumericVector)) :=
  if qoi_set_has_index j then
    coarse_adjoint ← get_adjoint_solution j s;
    Some (acc ++ [Some coarse_adjoint])
  else Some (acc ++ [None]).

(** Lines 319-351: the residual of the projected solution and the adjoint
    problem on the refined space. *)
Definition fine_residual_and_adjoint (es : EquationSystems)
  : option EquationSystems :=
  let es := push_if residual_evaluation_physics es in
  let es := assembly es in
  let es := pop_if residual_evaluation_physics es in
  _ ← get_vector "RHS Vector" (system es);
  let es := push_if adjoint_evaluation_physics es in
  let es :=
    if (0 <? number_h_refinements)%nat || (0 <? number_p_refinements)%nat
    then adjoint_solve es else es in
  Some (pop_if adjoint_evaluation_physics es).

(** Lines 356-397: the global estimates. *)
Definition global_QoI_error (acc : list R * EquationSystems) (j : nat)
  : option (list R * EquationSystems) :=
  let (computed_global_QoI_errors, es) := acc in
  if qoi_set_has_index j then
    if has_adjoint_dirichlet_boundaries (dof_map es) j then
      adjoint ← get_adjoint_solution j (system es);
      lift ← get_vector (liftfunc_name j) (system es);
      let adjoint := vector_sub adjoint lift in
      let es := with_system (set_vector (adjoint_vector_name j) adjoint) es in
      projected_residual ← get_vector "RHS Vector" (system es);
      let error := dot projected_residual adjoint in
      lift ← get_vector (liftfunc_name j) (system es);
      let adjoint := vector_add adjoint lift in
      let es := with_system (set_vector (adjoint_vector_name j) adjoint) es in
      Some (<[j := error]> computed_global_QoI_errors, es)
    else
      adjoint ← get_adjoint_solution j (system es);
      projected_residual ← get_vector "RHS Vector" (system es);
      Some (<[j := dot projected_residual adjoint]> computed_global_QoI_errors, es)
  else Some acc.

(** Lines 399-417. *)
Definition remove_lift (es : EquationSystems) (j : nat) : EquationSystems :=
  if qoi_set_has_index j then
    if has_adjoint_dirichlet_boundaries (dof_map es) j
    then with_system (remove_vector (liftfunc_name j)) es
    else es
  else es.

(** Lines 428-455: the coarse adjoint is subtracted from the fine one. *)
Definition subtract_coarse_adjoint (coarse_adjoints : list (option NumericVector))
    (es : EquationSystems) (j : nat) : option EquationSystems :=
  if qoi_set_has_index j then
    if has_adjoint_dirichlet_boundaries (dof_map es) j
       || negb (bool_decide (is_Some residual_evaluation_physics)) then
      adjoint ← get_adjoint_solution j (system es);
      coarse_adjoint ← mjoin (coarse_adjoints !! j);
      Some (with_system (set_vector (adjoint_vector_name j)
                                    (vector_sub adjoint coarse_adjoint)) es)
    else Some es
  else Some es.

(** The element [number_h_refinements] parents above [e]; the source
    asserts that every parent on the way exists. *)
Fixpoint coarse_parent (m : MeshBase) (n : nat) (e : nat) : option nat :=
  match n with
  | O => Some e
  | S n => match parent m e with
           | Some p => coarse_parent m n p
           | None => None
           end
  end.

(** Lines 464-530: the number of coarse elements every node of the fine
    mesh belongs to. *)
Definition add_coarse_grid_neighbor (m : MeshBase) (coarse_grid_neighbors : list nat)
    (fine_elem : nat) : option (list nat) :=
  coarse_id ← coarse_parent m number_h_refinements fine_elem;
  Some (if bool_decide (coarse_id ∈ coarse_grid_neighbors)
        then coarse_grid_neighbors
        else coarse_grid_neighbors ++ [coarse_id]).

Definition count_node (m : MeshBase) (elem : nat)
    (acc : gmap nat nat * gset nat) (node_id : nat)
  : option (gmap nat nat * gset nat) :=
  let (shared_element_count, processed_node_ids) := acc in
  if bool_decide (node_id ∈ processed_node_ids) then Some acc
  else
    let fine_grid_neighbor_set := find_point_neighbors m elem node_id in
    coarse_grid_neighbors ←
      for_each (add_coarse_grid_neighbor m) [] fine_grid_neighbor_set;
    Some (<[node_id := length coarse_grid_neighbors]> shared_element_count,
          {[node_id]} ∪ processed_node_ids).

Definition shared_element_counts (m : MeshBase) : option (gmap nat nat) :=
  fst <$> for_each (fun acc elem => for_each (count_node m elem) acc
                                             (node_ref_range m elem))
                   (∅, ∅) (active_local_element_ptr_range m).

(** Lines 551-596: the indicators, element by element. *)
Definition element_indicator (m : MeshBase) (dm : DofMap)
    (localized_projected_residual localized_adjoint_solution : NumericVector)
    (error_weight : R) (error_per_cell : list R) (elem : nat) : option (list R) :=
  e_id ← coarse_parent m number_h_refinements elem;
  let local_contribution :=
    foldl (fun sum dof => sum + localized_projected_residual !!! dof
                                * localized_adjoint_solution !!! dof)
          0 (dof_indices dm elem) in
  let local_contribution := local_contribution * error_weight in
  Some (add_at e_id (Rabs local_contribution) error_per_cell).

Definition qoi_indicators (es : EquationSystems)
    (localized_projected_residual : NumericVector)
    (error_per_cell : list R) (i : nat) : option (list R) :=
  if qoi_set_has_index i then
    let error_weight := qoi_set_weight i in
    localized_adjoint_solution ← get_adjoint_solution i (system es);
    for_each (element_indicator (mesh es) (dof_map es)
                localized_projected_residual localized_adjoint_solution
                error_weight)
             error_per_cell (active_local_element_ptr_range (mesh es))
  else Some error_per_cell.

Definition element_indicators (es : EquationSystems)
    (error_per_cell : list R) : option (list R) :=
  localized_projected_residual ← get_vector "RHS Vector" (system es);
  for_each (qoi_indicators es localized_projected_residual) error_per_cell
           (seq 0 (n_qois (system es))).

(** Lines 250-596: from the resized [error_per_cell] to the indicators. *)
Definition refine_and_estimate (es : EquationSystems)
  : option (EquationSystems * list R * list R) :=
  let error_per_cell := replicate (max_elem_id (mesh es)) 0 in
  let es := refine es in
  let s := system es in
  coarse_adjoints ← for_each (copy_coarse_adjoint s) [] (seq 0 (n_qois s));
  es ← fine_residual_and_adjoint es;
  let computed_global_QoI_errors :=
    resize (n_qois (system es)) computed_global_QoI_errors_before in
  '(computed_global_QoI_errors, es) ←
     for_each global_QoI_error (computed_global_QoI_errors, es)
              (seq 0 (n_qois (system es)));
  let es := foldl remove_lift es (seq 0 (n_qois (system es))) in
  es ← for_each (subtract_coarse_adjoint coarse_adjoints) es
                (seq 0 (n_qois (system es)));
  shared_element_count ← shared_element_counts (mesh es);
  error_per_cell ← element_indicators es error_per_cell;
  Some (es, error_per_cell, computed_global_QoI_errors).

(** Lines 598-619. *)
Definition coarsen (es : EquationSystems) : EquationSystems :=
  let es := with_system (set_project_solution_on_reinit false) es in
  let es := times number_h_refinements
                  (fun es => es_reinit (with_mesh uniformly_coarsen es)) es in
  times number_p_refinements
        (fun es => es_reinit (with_mesh uniformly_p_coarsen es)) es.

(** Lines 646-654. *)
Definition restore_adjoint (old : list bool) (s : System) (j : nat) : option System :=
  if qoi_set_has_index j then
    _ ← get_adjoint_solution j s;
    Some (set_vector_preservation (adjoint_vector_name j) (old !!! j) s)
  else Some s.

(** Lines 660-675: every vector the system has and had. *)
Definition restore_vectors (coarse_vectors vectors : gmap string NumericVector)
  : gmap string NumericVector :=
  map_imap (fun var_name v =>
              Some (match coarse_vectors !! var_name with
                    | Some coarsevec => coarsevec
                    | None => v
                    end)) vectors.

(** Lines 642-679. *)
Definition restore (b : Backup) (es : EquationSystems) : option EquationSystems :=
  let s := system es in
  let s := set_project_solution_on_reinit (old_projection_setting b) s in
  let s := set_project_with_constraints (old_project_with_constraints_setting b) s in
  s ← for_each (restore_adjoint (old_adjoints_projection_settings b)) s
               (seq 0 (n_qois s));
  let s := set_solution (coarse_solution b) s in
  let s := set_current_local_solution (coarse_local_solution b) s in
  let s := set_vectors (restore_vectors (coarse_vectors b) (vectors s)) s in
  let m := set_partitioner (old_partitioner b) (mesh es) in
  let m := set_allow_renumbering (old_renumbering_setting b) m in
  Some {| system := s; mesh := m; dof_map := dof_map es |}.

(** What a call leaves: the equation systems, what a solution vector
    outside the system holds, [error_per_cell] and
    [computed_global_QoI_errors]. *)
Record Outcome := {
  equation_systems : EquationSystems;
  solution_vector_after : option NumericVector;
  error_per_cell : list R;
  computed_global_QoI_errors : list R
}.

Definition estimate_error (es : EquationSystems)
    (solution_vector : option SolutionVector) : option Outcome :=
  es ← coarse_adjoints_and_lifts es;
  '(b, es) ← back_up es;
  '(es, solution_vector) ← use_solution_vector solution_vector es;
  '(es, error_per_cell, computed_global_QoI_errors) ← refine_and_estimate es;
  let es := coarsen es in
  es ← restore b es;
  Some {| equation_systems := es;
          solution_vector_after := solution_vector;
          error_per_cell := reduce_error error_per_cell;
          computed_global_QoI_errors := computed_global_QoI_errors |}.


(** ** What the restoration restores *)

(** Two systems that differ in the preservation flags at most. *)
Definition same_but_projections (s s' : System) : Prop :=
  solution s' = solution s /\
  current_local_solution s' = current_local_solution s /\
  vectors s' = vectors s /\
  project_solution_on_reinit s' = project_solution_on_reinit s /\
  project_with_constraints s' = project_with_constraints s /\
  is_adjoint_already_solved s' = is_adjoint_already_solved s /\
  n_qois s' = n_qois s.

Lemma same_but_projections_refl s : same_but_projections s s.
Proof. repeat split. Qed.

Lemma same_but_projections_trans s1 s2 s3 :
  same_but_projections s1 s2 -> same_but_projections s2 s3 ->
  same_but_projections s1 s3.
Proof. unfold same_but_projections. intuition congruence. Qed.

Lemma vector_preservation_set name b nm s :
  vector_preservation nm (set_vector_preservation name b s)
  = if decide (name = nm) then b else vector_preservation nm s.
Proof.
  unfold vector_preservation, set_vector_preservation. cbn.
  destruct (decide (name = nm)) as [->|Hne].
  - now rewrite lookup_insert_eq.
  - now rewrite lookup_insert_ne.
Qed.

Section Names.

Hypothesis adjoint_vector_name_inj :
  forall i j, adjoint_vector_name i = adjoint_vector_name j -> i = j.

Lemma preserve_adjoint_spec l : forall old0 s old s',
  for_each preserve_adjoint (old0, s) l = Some (old, s') ->
  NoDup l ->
  length old = length old0 /\ same_but_projections s s' /\
  (forall j, j ∈ l -> qoi_set_has_index j = true -> (j < length old0)%nat ->
             old !!! j = vector_preservation (adjoint_vector_name j) s) /\
  (forall j, j ∉ l -> old !!! j = old0 !!! j) /\
  (forall nm, (forall j, j ∈ l -> qoi_set_has_index j = true ->
                         adjoint_vector_name j <> nm) ->
              vector_preservation nm s' = vector_preservation nm s).
Proof.
  induction l as [|x l IH]; intros old0 s old s' Hrun Hnd; cbn in Hrun.
  - injection Hrun as <- <-. repeat split; trivial.
    intros j Hj. inversion Hj.
  - apply NoDup_cons in Hnd as [Hx Hnd].
    destruct (qoi_set_has_index x) eqn:Hix.
    + destruct (get_adjoint_solution x s) as [v|]; [|discriminate]. cbn in Hrun.
      destruct (IH _ _ _ _ Hrun Hnd) as (Hlen & Hsame & Hin & Hout & Hnm).
      rewrite length_insert in Hlen, Hin.
      split; [exact Hlen|]. split.
      { eapply same_but_projections_trans; [|exact Hsame]. repeat split. }
      split; [|split].
      * intros j Hj Hij Hlt. apply elem_of_cons in Hj as [->|Hj].
        -- rewrite (Hout x Hx).
           now rewrite list_lookup_total_insert_eq.
        -- rewrite (Hin j Hj Hij Hlt), vector_preservation_set.
           rewrite decide_False; [reflexivity|].
           intros Heq. apply adjoint_vector_name_inj in Heq. congruence.
      * intros j Hj. rewrite not_elem_of_cons in Hj. destruct Hj as [Hjx Hj].
        rewrite (Hout j Hj). now apply list_lookup_total_insert_ne.
      * intros nm Hall. rewrite Hnm, vector_preservation_set.
        -- rewrite decide_False; [reflexivity|]. apply Hall; [left|trivial].
        -- intros j Hj. apply Hall. now right.
    + destruct (IH _ _ _ _ Hrun Hnd) as (Hlen & Hsame & Hin & Hout & Hnm).
      split; [exact Hlen|]. split; [exact Hsame|]. split; [|split].
      * intros j Hj Hij Hlt. apply elem_of_cons in Hj as [->|Hj]; [congruence|].
        now apply Hin.
      * intros j Hj. rewrite not_elem_of_cons in Hj. now apply Hout.
      * intros nm Hall. apply Hnm. intros j Hj. apply Hall. now right.
Qed.

Lemma restore_adjoint_spec old l : forall s s',
  for_each (restore_adjoint old) s l = Some s' ->
  same_but_projections s s' /\
  (forall j, j ∈ l -> qoi_set_has_index j = true ->
             vector_preservation (adjoint_vector_name j) s' = old !!! j) /\
  (forall nm, (forall j, j ∈ l -> qoi_set_has_index j = true ->
                         adjoint_vector_name j <> nm) ->
              vector_preservation nm s' = vector_preservation nm s).
Proof.
  induction l as [|x l IH]; intros s s' Hrun; cbn in Hrun.
  - injection Hrun as <-. repeat split; trivial. intros j Hj. inversion Hj.
  - unfold restore_adjoint in Hrun at 1.
    destruct (qoi_set_has_index x) eqn:Hix.
    + destruct (get_adjoint_solution x s) as [v|]; [|discriminate]. cbn in Hrun.
      destruct (IH _ _ Hrun) as (Hsame & Hin & Hnm).
      split.
      { eapply same_but_projections_trans; [|exact Hsame]. repeat split. }
      split.
      * intros j Hj Hij. destruct (decide (j ∈ l)) as [Hjl|Hjl]; [now apply Hin|].
        apply elem_of_cons in Hj as [->|Hj]; [|contradiction].
        rewrite Hnm, vector_preservation_set, decide_True; trivial.
        intros j Hj _ Heq. apply adjoint_vector_name_inj in Heq. congruence.
      * intros nm Hall. rewrite Hnm, vector_preservation_set.
        -- rewrite decide_False; [reflexivity|]. apply Hall; [left|trivial].
        -- intros j Hj. apply Hall. now right.
    + destruct (IH _ _ Hrun) as (Hsame & Hin & Hnm).
      split; [exact Hsame|]. split.
      * intros j Hj Hij. apply elem_of_cons in Hj as [->|Hj]; [congruence|].
        now apply Hin.
      * intros nm Hall. apply Hnm. intros j Hj. apply Hall. now right.
Qed.

Lemma back_up_spec es b es' :
  back_up es = Some (b, es') ->
  coarse_vectors b = vectors (system es) /\
  coarse_solution b = solution (system es) /\
  coarse_local_solution b = current_local_solution (system es) /\
  old_projection_setting b = project_solution_on_reinit (system es) /\
  old_project_with_constraints_setting b = project_with_constraints (system es) /\
  old_partitioner b = partitioner (mesh es) /\
  old_renumbering_setting b = allow_renumbering (mesh es) /\
  (forall j, (j < n_qois (system es))%nat -> qoi_set_has_index j = true ->
     old_adjoints_projection_settings b !!! j
     = vector_preservation (adjoint_vector_name j) (system es)).
Proof.
  unfold back_up. intros Hrun.
  destruct (for_each preserve_adjoint _ _) as [[old s]|] eqn:Hloop;
    [|discriminate].
  cbn in Hrun. injection Hrun as <- <-. cbn.
  apply preserve_adjoint_spec in Hloop as (Hlen & Hsame & Hin & _);
    [|apply NoDup_ListNoDup, seq_NoDup].
  destruct Hsame as (_ & _ & _ & Hp & Hc & _).
  rewrite length_replicate in Hin.
  repeat split; trivial.
  intros j Hj Hij. apply Hin; trivial. apply elem_of_seq. lia.
Qed.

Lemma restore_vectors_lookup coarse vs name :
  restore_vectors coarse vs !! name
  = match vs !! name with
    | Some v => Some (default v (coarse !! name))
    | None => None
    end.
Proof.
  unfold restore_vectors. rewrite map_lookup_imap.
  destruct (vs !! name) as [v|]; cbn; [|reflexivity].
  now destruct (coarse !! name).
Qed.

Lemma restore_spec b es es' :
  restore b es = Some es' ->
  project_solution_on_reinit (system es') = old_projection_setting b /\
  project_with_constraints (system es') = old_project_with_constraints_setting b /\
  solution (system es') = coarse_solution b /\
  current_local_solution (system es') = coarse_local_solution b /\
  (forall name,
     vectors (system es') !! name
     = match vectors (system es) !! name with
       | Some v => Some (default v (coarse_vectors b !! name))
       | None => None
       end) /\
  partitioner (mesh es') = old_partitioner b /\
  allow_renumbering (mesh es') = old_renumbering_setting b /\
  n_qois (system es') = n_qois (system es) /\
  (forall j, (j < n_qois (system es))%nat -> qoi_set_has_index j = true ->
     vector_preservation (adjoint_vector_name j) (system es')
     = old_adjoints_projection_settings b !!! j).
Proof.
  unfold restore. intros Hrun.
  destruct (for_each (restore_adjoint _) _ _) as [s|] eqn:Hloop; [|discriminate].
  cbn in Hrun. injection Hrun as <-. cbn.
  apply restore_adjoint_spec in Hloop as (Hsame & Hin & _).
  destruct Hsame as (_ & _ & Hv & Hp & Hc & _ & Hn). cbn in *.
  repeat split; trivial.
  - intros name. now rewrite restore_vectors_lookup, Hv.
  - intros j Hj Hij. unfold vector_preservation in *. cbn.
    apply Hin; trivial. apply elem_of_seq. lia.
Qed.

End Names.

Lemma coarse_lift_skip es l :
  (forall j, j ∈ l -> qoi_set_has_index j = true ->
             has_adjoint_dirichlet_boundaries (dof_map es) j = false) ->
  for_each coarse_lift es l = Some es.
Proof.
  induction l as [|x l IH]; intros Hall; cbn; [reflexivity|].
  unfold coarse_lift at 1.
  destruct (qoi_set_has_index x) eqn:Hix; cbn.
  - rewrite (Hall x) by (trivial; left). cbn. apply IH.
    intros j Hj. apply Hall. now right.
  - apply IH. intros j Hj. apply Hall. now right.
Qed.

(** C8 (as the code has it).  When [estimate_error] returns, the two
    projection settings, the preservation flag of every adjoint vector of
    the QoI set, the solution, the local solution, every named vector the
    system had and still has, the partitioner and the renumbering flag are
    what they were when the backup was made, that is after the adjoint
    problem on the coarse space was solved and the lift functions were
    built.  They are what they were before the call where these two steps
    are not taken: the adjoint problem already solved, and no QoI of the set
    with heterogeneous adjoint Dirichlet boundaries. *)
Theorem restored_to_the_backup es solution_vector out :
  (forall i j, adjoint_vector_name i = adjoint_vector_name j -> i = j) ->
  estimate_error es solution_vector = Some out ->
  exists saved,
    coarse_adjoints_and_lifts es = Some saved /\
    let s := system saved in
    let s' := system (equation_systems out) in
    project_solution_on_reinit s' = project_solution_on_reinit s /\
    project_with_constraints s' = project_with_constraints s /\
    solution s' = solution s /\
    current_local_solution s' = current_local_solution s /\
    (forall name v, vectors s' !! name = Some v ->
                    is_Some (vectors s !! name) ->
                    vectors s !! name = Some v) /\
    partitioner (mesh (equation_systems out)) = partitioner (mesh saved) /\
    allow_renumbering (mesh (equation_systems out))
      = allow_renumbering (mesh saved) /\
    (forall j, (j < n_qois s)%nat -> (j < n_qois s')%nat ->
               qoi_set_has_index j = true ->
               vector_preservation (adjoint_vector_name j) s'
               = vector_preservation (adjoint_vector_name j) s) /\
    (is_adjoint_already_solved (system es) = true ->
     (forall j, (j < n_qois (system es))%nat -> qoi_set_has_index j = true ->
                has_adjoint_dirichlet_boundaries (dof_map es) j = false) ->
     saved = es).
Proof.
  intros Hinj Hrun. unfold estimate_error in Hrun.
  destruct (coarse_adjoints_and_lifts es) as [saved|] eqn:Hsaved; [|discriminate].
  cbn [mbind option_bind] in Hrun.
  destruct (back_up saved) as [[b es1]|] eqn:Hb; [|discriminate].
  cbn [mbind option_bind] in Hrun.
  destruct (use_solution_vector solution_vector es1) as [[es2 sv]|];
    [|discriminate].
  cbn [mbind option_bind] in Hrun.
  destruct (refine_and_estimate es2) as [[[es3 epc] qerr]|]; [|discriminate].
  cbn [mbind option_bind] in Hrun.
  destruct (restore b (coarsen es3)) as [es4|] eqn:Hr; [|discriminate].
  cbn [mbind option_bind] in Hrun. injection Hrun as <-.
  cbn [equation_systems].
  apply (back_up_spec Hinj) in Hb
    as (Hv & Hs & Hl & Hp & Hc & Hpart & Hren & Hflags).
  apply (restore_spec Hinj) in Hr
    as (Hp' & Hc' & Hs' & Hl' & Hv' & Hpart' & Hren' & Hn' & Hflags').
  exists saved. split; [reflexivity|].
  repeat split; try congruence.
  - intros name v Hfinal [c Hc0]. rewrite Hv' in Hfinal.
    destruct (vectors (system (coarsen es3)) !! name) as [w|]; [|discriminate].
    rewrite Hv, Hc0 in Hfinal. cbn in Hfinal. congruence.
  - intros j Hj Hj' Hij. rewrite Hflags', Hflags; trivial. congruence.
  - intros Hsolved Hnone. unfold coarse_adjoints_and_lifts in Hsaved.
    unfold coarse_adjoint_solve in Hsaved. rewrite Hsolved in Hsaved.
    rewrite coarse_lift_skip in Hsaved; [congruence|].
    intros j Hj. apply Hnone. apply elem_of_seq in Hj. lia.
Qed.

Lemma for_each_related {A S : Type} (f : S -> A -> option S)
    (related : S -> S -> Prop) :
  (forall st, related st st) ->
  (forall a b c, related a b -> related b c -> related a c) ->
  (forall st x st', f st x = Some st' -> related st st') ->
  forall l st st', for_each f st l = Some st' -> related st st'.
Proof.
  intros Hrefl Htrans Hstep. induction l as [|x l IH]; intros st st' Hrun.
  - cbn in Hrun. injection Hrun as <-. apply Hrefl.
  - cbn in Hrun. destruct (f st x) as [st1|] eqn:E; [|discriminate].
    eapply Htrans; [eapply Hstep; exact E|]. now apply IH.
Qed.

(** [b] has the length of [a] and entries that are not smaller. *)
Definition grown (a b : list R) : Prop :=
  length b = length a /\ forall i, a !!! i <= b !!! i.

Lemma grown_refl a : grown a a.
Proof. split; [reflexivity|]. intros i. lra. Qed.

Lemma grown_trans a b c : grown a b -> grown b c -> grown a c.
Proof.
  intros [Hl1 H1] [Hl2 H2]. split; [congruence|].
  intros i. specialize (H1 i). specialize (H2 i). lra.
Qed.

Lemma add_at_grown e x a : 0 <= x -> grown a (add_at e x a).
Proof.
  intros Hx. split; [apply length_alter|]. intros i. unfold add_at.
  rewrite list_lookup_total_alter. case_decide as H; [|lra].
  destruct H as [-> _]. lra.
Qed.

(** X8.  The indicator loop only adds absolute values: it leaves
    [error_per_cell] with its length and with no entry smaller than
    before; starting from zeros no indicator is negative. *)
Theorem indicators_only_grow es error_per_cell0 error_per_cell1 :
  element_indicators es error_per_cell0 = Some error_per_cell1 ->
  length error_per_cell1 = length error_per_cell0 /\
  forall i, error_per_cell0 !!! i <= error_per_cell1 !!! i.
Proof.
  unfold element_indicators. intros Hrun.
  destruct (get_vector "RHS Vector" (system es)) as [residual|]; [|discriminate].
  cbn [mbind option_bind] in Hrun.
  revert Hrun. apply (for_each_related _ grown grown_refl grown_trans).
  intros epc i epc'. unfold qoi_indicators.
  destruct (qoi_set_has_index i); [|intros [= <-]; apply grown_refl].
  destruct (get_adjoint_solution i (system es)) as [adjoint|]; [|discriminate].
  cbn [mbind option_bind].
  apply (for_each_related _ grown grown_refl grown_trans).
  intros epc0 elem epc1. unfold element_indicator.
  destruct (coarse_parent (mesh es) number_h_refinements elem) as [e_id|];
    [|discriminate].
  cbn [mbind option_bind]. intros [= <-]. apply add_at_grown, Rabs_pos.
Qed.

(** ** The indicators as sums *)

(** Lines 575-590: what the active element [elem] adds for one QoI. *)
Definition local_contribution (dm : DofMap)
    (localized_projected_residual localized_adjoint_solution : NumericVector)
    (error_weight : R) (elem : nat) : R :=
  Rabs (foldl (fun sum dof => sum + localized_projected_residual !!! dof
                                    * localized_adjoint_solution !!! dof)
              0 (dof_indices dm elem)
        * error_weight).

(** What [elem] adds to the coarse element [e]: its contribution if [e] is
    its ancestor on the coarse mesh. *)
Definition element_share (m : MeshBase) (dm : DofMap)
    (residual adjoint : NumericVector) (error_weight : R) (e elem : nat) : R :=
  if bool_decide (coarse_parent m number_h_refinements elem = Some e)
  then local_contribution dm residual adjoint error_weight elem
  else 0.

Definition sum_list (l : list R) : R := foldr Rplus 0 l.

(** What the QoI [i] adds to the coarse element [e]. *)
Definition qoi_share (es : EquationSystems) (residual : NumericVector)
    (e i : nat) : R :=
  if qoi_set_has_index i then
    match get_adjoint_solution i (system es) with
    | Some adjoint =>
        sum_list (map (element_share (mesh es) (dof_map es) residual adjoint
                                     (qoi_set_weight i) e)
                      (active_local_element_ptr_range (mesh es)))
    | None => 0
    end
  else 0.

Lemma add_at_lookup i x v e :
  (e < length v)%nat ->
  add_at i x v !!! e = v !!! e + (if bool_decide (i = e) then x else 0).
Proof.
  intros He. unfold add_at. rewrite list_lookup_total_alter.
  case_decide as H; case_bool_decide as H'; try lra.
  - now subst.
  - now destruct H.
  - destruct H. subst. now split.
Qed.

Lemma element_loop_sum m dm residual adjoint w l : forall epc0 epc1,
  for_each (element_indicator m dm residual adjoint w) epc0 l = Some epc1 ->
  length epc1 = length epc0 /\
  forall e, (e < length epc0)%nat ->
    epc1 !!! e
    = epc0 !!! e + sum_list (map (element_share m dm residual adjoint w e) l).
Proof.
  induction l as [|elem l IH]; intros epc0 epc1; cbn [for_each].
  - intros [= <-]. split; [reflexivity|]. intros e _. cbn. lra.
  - unfold element_indicator at 1.
    destruct (coarse_parent m number_h_refinements elem) as [e_id|] eqn:Hp;
      [|discriminate].
    cbn [mbind option_bind]. intros H. apply IH in H as [Hlen H].
    unfold add_at in Hlen. rewrite length_alter in Hlen.
    split; [assumption|]. intros e He.
    rewrite H by (unfold add_at; now rewrite length_alter).
    rewrite add_at_lookup by assumption. cbn [map sum_list foldr].
    unfold element_share at 2. rewrite Hp. fold (sum_list (map (element_share m dm residual adjoint w e) l)).
    unfold local_contribution.
    destruct (decide (e_id = e)) as [->|Hne].
    + rewrite !bool_decide_eq_true_2 by reflexivity. lra.
    + rewrite !bool_decide_eq_false_2 by congruence. lra.
Qed.

Lemma qoi_loop_sum es residual l : forall epc0 epc1,
  for_each (qoi_indicators es residual) epc0 l = Some epc1 ->
  length epc1 = length epc0 /\
  forall e, (e < length epc0)%nat ->
    epc1 !!! e = epc0 !!! e + sum_list (map (qoi_share es residual e) l).
Proof.
  induction l as [|i l IH]; intros epc0 epc1; cbn [for_each].
  - intros [= <-]. split; [reflexivity|]. intros e _. cbn. lra.
  - destruct (qoi_indicators es residual epc0 i) as [epc|] eqn:Hi; [|discriminate].
    intros H. apply IH in H as [Hlen H].
    assert (length epc = length epc0 /\
            forall e, (e < length epc0)%nat ->
              epc !!! e = epc0 !!! e + qoi_share es residual e i) as [Hlen' H'].
    { unfold qoi_indicators in Hi. unfold qoi_share.
      destruct (qoi_set_has_index i).
      - destruct (get_adjoint_solution i (system es)) as [adjoint|];
          [|discriminate].
        cbn [mbind option_bind] in Hi. now apply element_loop_sum in Hi.
      - injection Hi as <-. split; [reflexivity|]. intros e _. lra. }
    split; [congruence|]. intros e He.
    rewrite H by lia. rewrite H' by assumption. cbn [map sum_list foldr].
    fold (sum_list (map (qoi_share es residual e) l)). lra.
Qed.

(** X20.  The indicator of a coarse element is a sum: the indicator loop
    adds to the entry of [e] in [error_per_cell], for every QoI of the set
    and every active element of the refined mesh whose ancestor
    [number_h_refinements] levels up is [e], the absolute value of the
    weighted product of the residual and the adjoint over the degrees of
    freedom of that element, and nothing else. *)
Theorem indicator_is_the_sum_over_descendants es residual
    error_per_cell0 error_per_cell1 :
  get_vector "RHS Vector" (system es) = Some residual ->
  element_indicators es error_per_cell0 = Some error_per_cell1 ->
  forall e, (e < length error_per_cell0)%nat ->
    error_per_cell1 !!! e
    = error_per_cell0 !!! e
      + sum_list (map (qoi_share es residual e) (seq 0 (n_qois (system es)))).
Proof.
  unfold element_indicators. intros -> Hrun. cbn [mbind option_bind] in Hrun.
  now apply qoi_loop_sum in Hrun.
Qed.

(** ** The global estimates *)

Lemma global_QoI_error_outside l : forall errs0 es0 errs1 es1,
  for_each global_QoI_error (errs0, es0) l = Some (errs1, es1) ->
  length errs1 = length errs0 /\
  forall j, qoi_set_has_index j = false -> errs1 !! j = errs0 !! j.
Proof.
  induction l as [|i l IH]; intros errs0 es0 errs1 es1; cbn [for_each].
  - intros [= <- <-]. auto.
  - destruct (global_QoI_error (errs0, es0) i) as [[errs es]|] eqn:Hi;
      [|discriminate].
    intros H. apply IH in H as [Hlen H].
    assert (length errs = length errs0 /\
            forall j, qoi_set_has_index j = false -> errs !! j = errs0 !! j)
      as [Hlen' H'].
    { unfold global_QoI_error in Hi.
      destruct (qoi_set_has_index i) eqn:Hset.
      - assert (exists x, errs = <[i := x]> errs0) as [x ->].
        { destruct (has_adjoint_dirichlet_boundaries (dof_map es0) i);
            repeat match type of Hi with
                   | (?m ≫= _) = _ =>
                       destruct m; [|discriminate];
                       cbn [mbind option_bind] in Hi
                   end;
            injection Hi as <- <-; eauto. }
        split; [apply length_insert|]. intros j Hj.
        apply list_lookup_insert_ne. congruence.
      - injection Hi as <- <-. auto. }
    split; [congruence|]. intros j Hj. rewrite H, H'; auto.
Qed.

(** X21.  The entry of [computed_global_QoI_errors] for a QoI that is not
    in the [QoISet] is not computed: it is what the vector held before the
    call, or zero where the resized vector is longer than it was. *)
Theorem errors_outside_the_set_kept es solution_vector out :
  estimate_error es solution_vector = Some out ->
  let errors := computed_global_QoI_errors out in
  forall j, qoi_set_has_index j = false ->
    errors !! j = resize (length errors) computed_global_QoI_errors_before !! j.
Proof.
  unfold estimate_error. intros Hrun.
  destruct (coarse_adjoints_and_lifts es) as [es1|]; [|discriminate].
  cbn [mbind option_bind] in Hrun.
  destruct (back_up es1) as [[b es2]|]; [|discriminate].
  cbn [mbind option_bind] in Hrun.
  destruct (use_solution_vector solution_vector es2) as [[es3 sv]|];
    [|discriminate].
  cbn [mbind option_bind] in Hrun.
  destruct (refine_and_estimate es3) as [[[es4 epc] errs]|] eqn:Hre;
    [|discriminate].
  cbn [mbind option_bind] in Hrun.
  destruct (restore b (coarsen es4)) as [es5|]; [|discriminate].
  cbn [mbind option_bind] in Hrun. injection Hrun as <-.
  cbn [computed_global_QoI_errors].
  unfold refine_and_estimate in Hre.
  destruct (for_each (copy_coarse_adjoint _) _ _) as [cas|]; [|discriminate].
  cbn [mbind option_bind] in Hre.
  destruct (fine_residual_and_adjoint _) as [es6|]; [|discriminate].
  cbn [mbind option_bind] in Hre.
  destruct (for_each global_QoI_error _ _) as [[errs' es7]|] eqn:Hg;
    [|discriminate].
  cbn [mbind option_bind] in Hre.
  destruct (for_each (subtract_coarse_adjoint _) _ _) as [es8|]; [|discriminate].
  cbn [mbind option_bind] in Hre.
  destruct (shared_element_counts _) as [sec|]; [|discriminate].
  cbn [mbind option_bind] in Hre.
  destruct (element_indicators _ _) as [epc'|]; [|discriminate].
  cbn [mbind option_bind] in Hre. injection Hre as <- <- <-.
  apply global_QoI_error_outside in Hg as [Hlen Hg].
  intros j Hj. rewrite Hg by assumption. rewrite Hlen.
  f_equal. f_equal. unfold resize.
  rewrite length_app, length_take, length_replicate. lia.
Qed.

Lemma preserve_adjoint_same l : forall old0 s old s',
  for_each preserve_adjoint (old0, s) l = Some (old, s') ->
  same_but_projections s s'.
Proof.
  induction l as [|x l IH]; intros old0 s old s' Hrun; cbn in Hrun.
  - injection Hrun as <- <-. apply same_but_projections_refl.
  - destruct (qoi_set_has_index x).
    + destruct (get_adjoint_solution x s) as [v|]; [|discriminate]. cbn in Hrun.
      eapply same_but_projections_trans; [|eapply IH; exact Hrun].
      repeat split.
    + eapply IH. exact Hrun.
Qed.

Lemma back_up_solution es b es' :
  back_up es = Some (b, es') ->
  solution (system es') = solution (system es) /\
  coarse_solution b = solution (system es).
Proof.
  unfold back_up. intros Hrun.
  destruct (for_each preserve_adjoint _ _) as [[old s]|] eqn:Hloop;
    [|discriminate].
  cbn in Hrun. injection Hrun as <- <-. cbn.
  apply preserve_adjoint_same in Hloop as (Hs & _). auto.
Qed.

Lemma restore_adjoint_same old l : forall s s',
  for_each (restore_adjoint old) s l = Some s' -> same_but_projections s s'.
Proof.
  apply (for_each_related _ same_but_projections same_but_projections_refl
           same_but_projections_trans).
  intros s j s'. unfold restore_adjoint.
  destruct (qoi_set_has_index j); [|intros [= <-]; apply same_but_projections_refl].
  destruct (get_adjoint_solution j s); [|discriminate].
  cbn. intros [= <-]. repeat split.
Qed.

Lemma restore_solution b es es' :
  restore b es = Some es' -> solution (system es') = coarse_solution b.
Proof.
  unfold restore. intros Hrun.
  destruct (for_each (restore_adjoint _) _ _) as [s|] eqn:Hloop; [|discriminate].
  cbn in Hrun. injection Hrun as <-. reflexivity.
Qed.

(** X9.  A solution vector of the caller's that is no vector of the
    system, and so changes places with [system.solution] and is not
    touched by the restoration, is not put back: when [estimate_error]
    returns, the caller's vector holds the solution the system had when the
    backup was made, and so does [system.solution], restored from the
    backup. *)
Theorem solution_vector_not_swapped_back es newsol out :
  estimate_error es (Some (points_outside newsol)) = Some out ->
  exists saved,
    coarse_adjoints_and_lifts es = Some saved /\
    solution_vector_after out = Some (solution (system saved)) /\
    solution (system (equation_systems out)) = solution (system saved).
Proof.
  intros Hrun. unfold estimate_error in Hrun.
  destruct (coarse_adjoints_and_lifts es) as [saved|] eqn:Hsaved; [|discriminate].
  cbn [mbind option_bind] in Hrun.
  destruct (back_up saved) as [[b es1]|] eqn:Hb; [|discriminate].
  cbn [mbind option_bind use_solution_vector] in Hrun.
  destruct (refine_and_estimate _) as [[[es3 epc] qerr]|]; [|discriminate].
  cbn [mbind option_bind] in Hrun.
  destruct (restore b (coarsen es3)) as [es4|] eqn:Hr; [|discriminate].
  cbn [mbind option_bind] in Hrun. injection Hrun as <-.
  apply back_up_solution in Hb as [Hs1 Hsb].
  apply restore_solution in Hr.
  exists saved. cbn. split; [reflexivity|]. split; congruence.
Qed.

End Estimator.

(** ** A system to run the estimator on *)

(** One element with one degree of freedom; the system has an adjoint
    solution from before and has not solved the adjoint problem on this
    mesh. *)
Definition one_dof_system : System :=
  {| solution := [1];
     current_local_solution := [1];
     vectors := <["adjoint_solution0" := [5]]> (<["RHS Vector" := [0]]> ∅);
     vector_projections := ∅;
     project_solution_on_reinit := false;
     project_with_constraints := true;
     is_adjoint_already_solved := false;
     n_qois := 1 |}.

Definition one_element_mesh : MeshBase :=
  {| partitioner := Some 7%nat;
     allow_renumbering := true;
     max_elem_id := 1;
     active_local_element_ptr_range := [0%nat];
     parent := fun _ => None;
     node_ref_range := fun _ => [0%nat];
     find_point_neighbors := fun _ _ => [0%nat] |}.

Definition one_element : EquationSystems :=
  {| system := one_dof_system;
     mesh := one_element_mesh;
     dof_map := {| dof_indices := fun _ => [0%nat];
                   has_adjoint_dirichlet_boundaries := fun _ => false |} |}.

(** An adjoint solver that finds the adjoint solution [2]. *)
Definition solve_to_2 (es : EquationSystems) : EquationSystems :=
  with_system (set_vector "adjoint_solution0" [2]) es.

Definition adjoint_solution_name (j : nat) : string :=
  "adjoint_solution" +:+ pretty j.

(** One p-refinement, no h-refinement, no other physics. *)
Definition estimate_one_element : option Outcome :=
  estimate_error 0 1 None None (fun _ => true) (fun _ => 1) []
                 solve_to_2 (fun es => es) (fun _ es => es) (fun es => es)
                 (fun _ s => s) (fun _ s => s) (fun s => s)
                 adjoint_solution_name (fun _ v _ => v)
                 (fun es => es) (fun m => m) (fun m => m) (fun m => m)
                 (fun m => m) (fun v => v) one_element None.

Lemma string_app_inj (p a b : string) : p +:+ a = p +:+ b -> a = b.
Proof. induction p as [|c p IH]; cbn; [trivial|]. intros [= H]. auto. Qed.

Lemma adjoint_solution_name_inj i j :
  adjoint_solution_name i = adjoint_solution_name j -> i = j.
Proof. intros H. apply string_app_inj in H. now apply pretty_nat_inj in H. Qed.

(** The adjoint solution the system had before the call, [5], is not
    there after it: the solver has replaced it by [2] before the backup
    was made, and [2] is what the restoration brings back. *)
Lemma vectors_restored_counterexample :
  vectors (system one_element) !! "adjoint_solution0" = Some [5] /\
  (fun out => vectors (system (equation_systems out)) !! "adjoint_solution0")
    <$> estimate_one_element = Some (Some [2]).
Proof. split; vm_compute; reflexivity. Qed.

Lemma restored_to_the_backup_witness :
  exists out,
    estimate_one_element = Some out /\
    project_solution_on_reinit (system (equation_systems out)) = false /\
    project_with_constraints (system (equation_systems out)) = true /\
    solution (system (equation_systems out)) = [1] /\
    partitioner (mesh (equation_systems out)) = Some 7%nat /\
    allow_renumbering (mesh (equation_systems out)) = true /\
    vector_preservation "adjoint_solution0" (system (equation_systems out))
    = false.
Proof.
  destruct estimate_one_element as [out|] eqn:Hrun;
    [|vm_compute in Hrun; discriminate].
  exists out. split; [reflexivity|].
  unfold estimate_one_element in Hrun.
  pose proof Hrun as Hout.
  apply restored_to_the_backup in Hrun
    as (saved & Hsaved & Hp & Hc & Hs & _ & _ & Hpart & Hren & Hflag & _);
    [|exact adjoint_solution_name_inj].
  assert (saved = solve_to_2 one_element) as ->.
  { vm_compute in Hsaved. injection Hsaved as <-. vm_compute. reflexivity. }
  assert (n_qois (system (equation_systems out)) = 1%nat) as Hn.
  { assert ((fun out => n_qois (system (equation_systems out)))
              <$> Some out = Some 1%nat) as H; [|now injection H].
    rewrite <- Hout. vm_compute. reflexivity. }
  repeat split; trivial.
  specialize (Hflag 0%nat). rewrite Hn in Hflag.
  replace (adjoint_solution_name 0) with "adjoint_solution0" in Hflag
    by (vm_compute; reflexivity).
  rewrite Hflag; [reflexivity|cbn; lia|lia|reflexivity].
Defined.

(** ** The indicators at a shared node *)

(** Two coarse edges, 0 and 1, after one uniform refinement: the children
    of 0 are 2 and 3, those of 1 are 4 and 5.  The nodes are 0, 1, 2 (the
    ends of the coarse edges, 1 the one they share), 3 and 4 (the mid
    nodes); a node's id is also the index of its degree of freedom. *)
Definition refined_edges : MeshBase :=
  {| partitioner := None;
     allow_renumbering := false;
     max_elem_id := 6;
     active_local_element_ptr_range := [2; 3; 4; 5]%nat;
     parent := fun e => match e with
                        | 2 | 3 => Some 0 | 4 | 5 => Some 1 | _ => None
                        end%nat;
     node_ref_range := fun e => match e with
                                | 0 => [0; 1] | 1 => [1; 2]
                                | 2 => [0; 3] | 3 => [3; 1]
                                | 4 => [1; 4] | _ => [4; 2]
                                end%nat;
     find_point_neighbors := fun _ node => match node with
                                           | 0 => [2] | 3 => [2; 3]
                                           | 1 => [3; 4] | 4 => [4; 5]
                                           | _ => [5]
                                           end%nat |}.

(** The residual and the adjoint solution, the coarse one subtracted, are
    both 1 at the shared node and 0 elsewhere. *)
Definition refined_system : System :=
  {| solution := [0; 0; 0; 0; 0];
     current_local_solution := [0; 0; 0; 0; 0];
     vectors := <["adjoint_solution0" := [0; 1; 0; 0; 0]]>
                  (<["RHS Vector" := [0; 1; 0; 0; 0]]> ∅);
     vector_projections := ∅;
     project_solution_on_reinit := true;
     project_with_constraints := false;
     is_adjoint_already_solved := false;
     n_qois := 1 |}.

Definition refined : EquationSystems :=
  {| system := refined_system;
     mesh := refined_edges;
     dof_map := {| dof_indices := node_ref_range refined_edges;
                   has_adjoint_dirichlet_boundaries := fun _ => false |} |}.

Lemma Rabs_0_0 : Rabs ((0 + 0 * 0 + 0 * 0) * 1) = 0.
Proof. replace ((0 + 0 * 0 + 0 * 0) * 1) with 0 by lra. apply Rabs_R0. Qed.

Lemma Rabs_0_1 : Rabs ((0 + 0 * 0 + 1 * 1) * 1) = 1.
Proof. replace ((0 + 0 * 0 + 1 * 1) * 1) with 1 by lra. apply Rabs_R1. Qed.

Lemma Rabs_1_0 : Rabs ((0 + 1 * 1 + 0 * 0) * 1) = 1.
Proof. replace ((0 + 1 * 1 + 0 * 0) * 1) with 1 by lra. apply Rabs_R1. Qed.

Lemma indicators_of_refined :
  element_indicators 1 (fun _ => true) (fun _ => 1) adjoint_solution_name
                     refined (replicate 2 0)
    = Some [1; 1].
Proof.
  unfold element_indicators.
  replace (get_vector "RHS Vector" (system refined))
    with (Some [0; 1; 0; 0; 0]) by (vm_compute; reflexivity).
  cbn [mbind option_bind n_qois system refined refined_system seq for_each].
  unfold qoi_indicators, get_adjoint_solution.
  replace (get_vector (adjoint_solution_name 0) (system refined))
    with (Some [0; 1; 0; 0; 0]) by (vm_compute; reflexivity).
  cbn. rewrite Rabs_0_0, Rabs_0_1, Rabs_1_0.
  repeat (f_equal; try lra).
Qed.

(** C2.  The shared node 1 belongs to two coarse elements, and
    [shared_element_counts] finds so; the indicators of the two coarse
    elements, in the [error_per_cell] sized for the coarse mesh, are
    nevertheless the whole product of residual and adjoint solution at that
    node, 1 each, not the half of it. *)
Lemma shared_node_not_divided :
  (fun count => count !! 1%nat) <$> shared_element_counts 1 refined_edges
    = Some (Some 2%nat) /\
  element_indicators 1 (fun _ => true) (fun _ => 1) adjoint_solution_name
                     refined (replicate 2 0)
    = Some [1; 1].
Proof.
  split; [vm_compute; reflexivity|exact indicators_of_refined].
Qed.

Lemma indicators_only_grow_witness :
  length [1; 1] = length (replicate 2 0) /\
  forall i, replicate 2 0 !!! i <= [1; 1] !!! i.
Proof.
  exact (indicators_only_grow 1 (fun _ => true) (fun _ => 1)
           adjoint_solution_name refined _ _ indicators_of_refined).
Defined.

(** The estimate on [one_element] for a solution vector [9] of the
    caller's, outside the system. *)
Definition estimate_with_solution_vector : option Outcome :=
  estimate_error 0 1 None None (fun _ => true) (fun _ => 1) []
                 solve_to_2 (fun es => es) (fun _ es => es) (fun es => es)
                 (fun _ s => s) (fun _ s => s) (fun s => s)
                 adjoint_solution_name (fun _ v _ => v)
                 (fun es => es) (fun m => m) (fun m => m) (fun m => m)
                 (fun m => m) (fun v => v) one_element
                 (Some (points_outside [9])).

Lemma solution_vector_not_swapped_back_witness :
  exists out,
    estimate_with_solution_vector = Some out /\
    solution_vector_after out = Some [1] /\
    solution (system (equation_systems out)) = [1].
Proof.
  destruct estimate_with_solution_vector as [out|] eqn:Hrun;
    [|vm_compute in Hrun; discriminate].
  exists out. split; [reflexivity|].
  unfold estimate_with_solution_vector in Hrun.
  apply solution_vector_not_swapped_back in Hrun as (saved & Hsaved & Hv & Hs).
  assert (saved = solve_to_2 one_element) as ->.
  { vm_compute in Hsaved. injection Hsaved as <-. vm_compute. reflexivity. }
  auto.
Defined.

Lemma indicator_is_the_sum_over_descendants_witness :
  get_vector "RHS Vector" (system refined) = Some [0; 1; 0; 0; 0] /\
  element_indicators 1 (fun _ => true) (fun _ => 1) adjoint_solution_name
                     refined (replicate 2 0) = Some [1; 1] /\
  forall e, (e < length (replicate 2 0))%nat ->
    [1; 1] !!! e
    = replicate 2 0 !!! e
      + sum_list (map (qoi_share 1 (fun _ => true) (fun _ => 1)
                                 adjoint_solution_name refined
                                 [0; 1; 0; 0; 0] e)
                      (seq 0 (n_qois (system refined)))).
Proof.
  assert (get_vector "RHS Vector" (system refined) = Some [0; 1; 0; 0; 0])
    as Hres by (vm_compute; reflexivity).
  split; [exact Hres|]. split; [exact indicators_of_refined|].
  exact (indicator_is_the_sum_over_descendants 1 (fun _ => true) (fun _ => 1)
           adjoint_solution_name refined _ _ _ Hres indicators_of_refined).
Defined.

(** The estimate on [one_element] with a second QoI that is not in the
    [QoISet], and errors 7 and 8 from an earlier call. *)
Definition estimate_two_qois : option Outcome :=
  estimate_error 0 1 None None (fun j => (j =? 0)%nat) (fun _ => 1) [7; 8]
                 solve_to_2 (fun es => es) (fun _ es => es) (fun es => es)
                 (fun _ s => s) (fun _ s => s) (fun s => s)
                 adjoint_solution_name (fun _ v _ => v)
                 (fun es => es) (fun m => m) (fun m => m) (fun m => m)
                 (fun m => m) (fun v => v)
                 (with_system (fun s => {| solution := solution s;
                     current_local_solution := current_local_solution s;
                     vectors := vectors s;
                     vector_projections := vector_projections s;
                     project_solution_on_reinit := project_solution_on_reinit s;
                     project_with_constraints := project_with_constraints s;
                     is_adjoint_already_solved := is_adjoint_already_solved s;
                     n_qois := 2 |}) one_element)
                 None.

Lemma errors_outside_the_set_kept_witness :
  exists out,
    estimate_two_qois = Some out /\
    length (computed_global_QoI_errors out) = 2%nat /\
    computed_global_QoI_errors out !! 1%nat = Some 8.
Proof.
  destruct estimate_two_qois as [out|] eqn:Hrun;
    [|vm_compute in Hrun; discriminate].
  exists out. split; [reflexivity|].
  assert (length (computed_global_QoI_errors out) = 2%nat) as Hlen.
  { vm_compute in Hrun. injection Hrun as <-. reflexivity. }
  split; [exact Hlen|].
  unfold estimate_two_qois in Hrun.
  apply errors_outside_the_set_kept with (j := 1%nat) in Hrun; [|reflexivity].
  rewrite Hrun, Hlen. reflexivity.
Defined.

End AdjointRefinementEstimator.

(** What a call gives that may end in [libmesh_error_msg]: its value, or
    the message of the error. *)
Inductive or_error (A : Type) : Type :=
| Returned (a : A)
| Raised (msg : string).
Arguments Returned {A} a.
Arguments Raised {A} msg.

Definition or_error_map {A B : Type} (f : A -> B) (o : or_error A) : or_error B :=
  match o with
  | Returned a => Returned (f a)
  | Raised msg => Raised msg
  end.

(* ===================================================================== *)
(** * RBEIMConstruction *)
(* ===================================================================== *)

(** The function template [get_max_abs_value] defined in the class body
    of include/reduced_basis/rb_eim_construction.h (lines 393-421).  A
    [DataMap] maps a key (an element id, or an element id and a side) to
    [[n_vars][n_qp]] data; it is modelled by its entries in the order the
    loops visit them.  [Number] is [Real]. *)

Module RBEIMConstruction.
Local Open Scope R_scope.

Definition DataMap (K : Type) : Type := list (K * list (list R)).

Section MaxAbsValue.

(** [get_rb_eim_evaluation().scale_components_in_enrichment()] and
    [_component_scaling_in_training_set]. *)
Variable scale_components_in_enrichment : gset nat.
Variable component_scaling_in_training_set : list R.

(** [comm().max(x)]: the maximum over the processes. *)
Variable comm_max : R -> R.

Definition invalid_vector_index : string := "Invalid vector index".

(** The scaling of component [comp]. *)
Definition comp_scaling (comp : nat) : or_error R :=
  if bool_decide (comp ∈ scale_components_in_enrichment) then
    if (length component_scaling_in_training_set <=? comp)%nat
    then Raised invalid_vector_index
    else Returned (component_scaling_in_training_set !!! comp)
  else Returned 1.

(** The loop over the values of one component. *)
Definition max_over_values (comp_scaling : R) (max_value : R) (v_qp : list R) : R :=
  foldl (fun max_value value => Rmax max_value (Rabs (value * comp_scaling)))
        max_value v_qp.

(** The loop over the components of one entry, from component [comp] on. *)
Fixpoint max_over_components (comp : nat) (max_value : R)
    (v_comp_and_qp : list (list R)) : or_error R :=
  match v_comp_and_qp with
  | [] => Returned max_value
  | v_qp :: rest =>
      match comp_scaling comp with
      | Raised msg => Raised msg
      | Returned s =>
          max_over_components (S comp) (max_over_values s max_value v_qp) rest
      end
  end.

(** The loop over the entries. *)
Fixpoint max_over_entries {K : Type} (max_value : R) (v : DataMap K) : or_error R :=
  match v with
  | [] => Returned max_value
  | pr :: rest =>
      match max_over_components 0 max_value (snd pr) with
      | Raised msg => Raised msg
      | Returned max_value => max_over_entries max_value rest
      end
  end.

(** [max_value] when the loops are done, before [comm().max]. *)
Definition local_max_abs_value {K : Type} (v : DataMap K) : or_error R :=
  max_over_entries 0 v.

(** [get_max_abs_value(v)]. *)
Definition get_max_abs_value {K : Type} (v : DataMap K) : or_error R :=
  or_error_map comm_max (local_max_abs_value v).

(** The factor a value of component [comp] is taken with. *)
Definition scaling_of (comp : nat) : R :=
  if bool_decide (comp ∈ scale_components_in_enrichment)
  then component_scaling_in_training_set !!! comp else 1.

(** A component the scaling vector is too short for. *)
Definition unscalable (comp : nat) : Prop :=
  comp ∈ scale_components_in_enrichment /\
  (length component_scaling_in_training_set <= comp)%nat.

Lemma comp_scaling_spec comp :
  (unscalable comp /\ comp_scaling comp = Raised invalid_vector_index) \/
  (~ unscalable comp /\ comp_scaling comp = Returned (scaling_of comp)).
Proof.
  unfold comp_scaling, scaling_of, unscalable.
  destruct (bool_decide_reflect (comp ∈ scale_components_in_enrichment)) as [Hin|Hin].
  - destruct (Nat.leb_spec (length component_scaling_in_training_set) comp).
    + left. auto.
    + right. split; [|reflexivity]. intros [_ ?]. lia.
  - right. split; [|reflexivity]. now intros [? _].
Qed.

(** [m] bounds the values of [v_qp], and is [m0] or one of them. *)
Definition is_max (s m0 m : R) (v_qp : list R) : Prop :=
  m0 <= m /\
  (forall value, value ∈ v_qp -> Rabs (value * s) <= m) /\
  (m = m0 \/ exists value, value ∈ v_qp /\ m = Rabs (value * s)).

Lemma max_over_values_spec s v_qp : forall m0,
  is_max s m0 (max_over_values s m0 v_qp) v_qp.
Proof.
  unfold max_over_values.
  induction v_qp as [|x l IH]; intros m0; cbn.
  - split; [lra|]. split; [|now left]. intros value H. inversion H.
  - destruct (IH (Rmax m0 (Rabs (x * s)))) as (Hle & Hall & Hatt).
    pose proof (Rmax_l m0 (Rabs (x * s))). pose proof (Rmax_r m0 (Rabs (x * s))).
    split; [lra|]. split.
    + intros value Hv. apply elem_of_cons in Hv as [->|Hv]; [lra|now apply Hall].
    + destruct Hatt as [->|(value & Hv & ->)].
      * unfold Rmax. destruct (Rle_dec m0 (Rabs (x * s))); [|now left].
        right. exists x. split; [left|reflexivity].
      * right. exists value. split; [now right|reflexivity].
Qed.


(** The values the loops visit: [value] is a value of component [comp] of
    an entry of [v]. *)
Definition value_of {K : Type} (v : DataMap K) (comp : nat) (value : R) : Prop :=
  exists pr v_qp, pr ∈ v /\ snd pr !! comp = Some v_qp /\ value ∈ v_qp.

(** Some entry of [v] has a component the scaling vector is too short
    for. *)
Definition has_unscalable {K : Type} (v : DataMap K) : Prop :=
  exists pr comp, pr ∈ v /\ (comp < length (snd pr))%nat /\ unscalable comp.

Lemma max_over_components_raised l : forall comp m0 msg,
  max_over_components comp m0 l = Raised msg <->
  msg = invalid_vector_index /\
  exists i, (i < length l)%nat /\ unscalable (comp + i).
Proof.
  induction l as [|v_qp l IH]; intros comp m0 msg; cbn.
  - split; [discriminate|]. intros (_ & i & Hi & _). lia.
  - destruct (comp_scaling_spec comp) as [[Hu ->]|[Hu ->]].
    + split.
      * intros [= <-]. split; [reflexivity|]. exists 0%nat.
        rewrite Nat.add_0_r. split; [lia|assumption].
      * now intros [-> _].
    + rewrite IH. split.
      * intros (-> & i & Hi & Hui). split; [reflexivity|]. exists (S i).
        rewrite Nat.add_succ_r. split; [lia|assumption].
      * intros (-> & i & Hi & Hui). split; [reflexivity|].
        destruct i as [|i]; [now rewrite Nat.add_0_r in Hui|].
        exists i. rewrite Nat.add_succ_r in Hui. split; [lia|assumption].
Qed.

Lemma max_over_components_returned l : forall comp m0 m,
  max_over_components comp m0 l = Returned m ->
  m0 <= m /\
  (forall i v_qp value, l !! i = Some v_qp -> value ∈ v_qp ->
     Rabs (value * scaling_of (comp + i)) <= m) /\
  (m = m0 \/
   exists i v_qp value, l !! i = Some v_qp /\ value ∈ v_qp /\
     m = Rabs (value * scaling_of (comp + i))).
Proof.
  induction l as [|v_qp l IH]; intros comp m0 m; cbn.
  - intros [= <-]. split; [lra|]. split; [|now left].
    intros i v_qp value H. discriminate.
  - destruct (comp_scaling_spec comp) as [[Hu ->]|[Hu ->]]; [discriminate|].
    intros H. apply IH in H as (Hle & Hall & Hatt).
    destruct (max_over_values_spec (scaling_of comp) v_qp m0) as (Hle0 & Hall0 & Hatt0).
    split; [lra|]. split.
    + intros [|i] w value Hw Hv; cbn in Hw.
      * injection Hw as <-. rewrite Nat.add_0_r.
        specialize (Hall0 value Hv). lra.
      * rewrite Nat.add_succ_r. now apply (Hall i w value).
    + destruct Hatt as [->|(i & w & value & Hw & Hv & ->)].
      * destruct Hatt0 as [->|(value & Hv & ->)]; [now left|].
        right. exists 0%nat, v_qp, value. rewrite Nat.add_0_r. auto.
      * right. exists (S i), w, value. rewrite Nat.add_succ_r. auto.
Qed.

Lemma max_over_entries_raised {K : Type} (v : DataMap K) : forall m0 msg,
  max_over_entries m0 v = Raised msg <->
  msg = invalid_vector_index /\ has_unscalable v.
Proof.
  unfold has_unscalable.
  induction v as [|pr v IH]; intros m0 msg; cbn.
  - split; [discriminate|]. intros (_ & pr & comp & H & _). inversion H.
  - destruct (max_over_components 0 m0 (snd pr)) as [m|msg'] eqn:Hc.
    + rewrite IH. split.
      * intros (-> & pr' & comp & Hin & Hlt & Hu). split; [reflexivity|].
        exists pr', comp. split; [now right|auto].
      * intros (-> & pr' & comp & Hin & Hlt & Hu). split; [reflexivity|].
        apply elem_of_cons in Hin as [->|Hin]; [|now exists pr', comp].
        exfalso.
        assert (max_over_components 0 m0 (snd pr) = Raised invalid_vector_index)
          as Hr by (apply max_over_components_raised; split; [reflexivity|];
                    now exists comp).
        congruence.
    + apply max_over_components_raised in Hc as (-> & i & Hi & Hu). split.
      * intros [= <-]. split; [reflexivity|]. exists pr, i.
        split; [left|auto].
      * now intros [-> _].
Qed.

Lemma max_over_entries_returned {K : Type} (v : DataMap K) : forall m0 m,
  max_over_entries m0 v = Returned m ->
  m0 <= m /\
  (forall comp value, value_of v comp value ->
     Rabs (value * scaling_of comp) <= m) /\
  (m = m0 \/
   exists comp value, value_of v comp value /\
     m = Rabs (value * scaling_of comp)).
Proof.
  unfold value_of.
  induction v as [|pr v IH]; intros m0 m; cbn.
  - intros [= <-]. split; [lra|]. split; [|now left].
    intros comp value (pr & w & H & _). inversion H.
  - destruct (max_over_components 0 m0 (snd pr)) as [m1|msg'] eqn:Hc; [|discriminate].
    intros H. apply IH in H as (Hle & Hall & Hatt).
    apply max_over_components_returned in Hc as (Hle0 & Hall0 & Hatt0).
    split; [lra|]. split.
    + intros comp value (pr' & w & Hin & Hw & Hv).
      apply elem_of_cons in Hin as [->|Hin].
      * specialize (Hall0 comp w value Hw Hv). cbn in Hall0. lra.
      * apply Hall. now exists pr', w.
    + destruct Hatt as [->|(comp & value & (pr' & w & Hin & Hw & Hv) & ->)].
      * destruct Hatt0 as [->|(i & w & value & Hw & Hv & ->)]; [now left|].
        right. exists i, value. split; [|reflexivity].
        exists pr, w. split; [left|auto].
      * right. exists comp, value. split; [|reflexivity].
        exists pr', w. split; [now right|auto].
Qed.

(** X10.  [get_max_abs_value] raises only "Invalid vector index", and
    raises it exactly when some entry of the map has a component that is
    in [scale_components_in_enrichment] and that
    [_component_scaling_in_training_set] has no slot for.  A component in
    the set that no entry has raises nothing. *)
Theorem get_max_abs_value_raises {K : Type} (v : DataMap K) (msg : string) :
  get_max_abs_value v = Raised msg <->
  msg = invalid_vector_index /\ has_unscalable v.
Proof.
  unfold get_max_abs_value, local_max_abs_value.
  rewrite <- (max_over_entries_raised v 0 msg).
  destruct (max_over_entries 0 v); cbn; split; congruence.
Qed.

(** X11.  When [get_max_abs_value] returns, it returns [comm().max] of a
    local value [m] that is the maximum of [|value * scaling|] over all
    the values of the map, each taken with the scaling of its component:
    [m] is not negative, bounds each of them, and is one of them unless
    it is 0. *)
Theorem get_max_abs_value_is_the_maximum {K : Type} (v : DataMap K) (r : R) :
  get_max_abs_value v = Returned r ->
  exists m, r = comm_max m /\ 0 <= m /\
    (forall comp value, value_of v comp value ->
       Rabs (value * scaling_of comp) <= m) /\
    (m = 0 \/
     exists comp value, value_of v comp value /\
       m = Rabs (value * scaling_of comp)).
Proof.
  unfold get_max_abs_value, local_max_abs_value.
  destruct (max_over_entries 0 v) as [m|msg] eqn:H; cbn; [|discriminate].
  intros [= <-]. exists m. split; [reflexivity|].
  now apply max_over_entries_returned in H.
Qed.

End MaxAbsValue.

(** Two variables at two quadrature points on element 7; the second
    variable is scaled, by 3. *)
Definition sample_map : DataMap nat := [(7%nat, [[1; -2]; [1; -1]])].
Definition sample_scaled : gset nat := {[ 1%nat ]}.
Definition sample_scaling : list R := [2; 3].

Lemma sample_max_abs_value :
  get_max_abs_value sample_scaled sample_scaling (fun x => x) sample_map =
  Returned 3.
Proof.
  unfold get_max_abs_value, local_max_abs_value, sample_map.
  cbn [max_over_entries max_over_components snd].
  replace (comp_scaling sample_scaled sample_scaling 0) with (Returned 1)
    by (vm_compute; reflexivity).
  replace (comp_scaling sample_scaled sample_scaling 1) with (Returned 3)
    by (vm_compute; reflexivity).
  cbn. f_equal.
  unfold Rmax, Rabs.
  repeat (destruct (Rle_dec _ _) || destruct (Rcase_abs _)); lra.
Qed.

Lemma get_max_abs_value_is_the_maximum_witness :
  get_max_abs_value sample_scaled sample_scaling (fun x => x) sample_map =
    Returned 3 /\
  exists m, 3 = m /\ 0 <= m /\
    (forall comp value, value_of sample_map comp value ->
       Rabs (value * scaling_of sample_scaled sample_scaling comp) <= m) /\
    (m = 0 \/
     exists comp value, value_of sample_map comp value /\
       m = Rabs (value * scaling_of sample_scaled sample_scaling comp)).
Proof.
  split; [exact sample_max_abs_value|].
  exact (get_max_abs_value_is_the_maximum sample_scaled sample_scaling
           (fun x => x) sample_map 3 sample_max_abs_value).
Defined.

End RBEIMConstruction.

(* ===================================================================== *)
(** * RBParametrized *)
(* ===================================================================== *)

(** The two static helpers at the end of
    src/reduced_basis/rb_parametrized.C, whose text is in
    src/include/reduced_basis/rb_eim_construction.h from line 1265:
    [get_closest_value] and [is_value_in_list].  A [Real] that is a finite
    number is a real number; the subtraction and the division of the
    machine, which round and can overflow, are parameters. *)

Module RBParametrized.
Local Open Scope R_scope.

Section ClosestValue.

(** [std::numeric_limits<Real>::max()]. *)
Variable Real_max : R.

(** [a - b] and [a / b] on [Real], as the machine computes them.  [None]
    is a result that is no finite number, an infinity or a NaN; it is
    below no number and at most no number. *)
Variable Real_minus : R -> R -> option R.
Variable Real_divide : R -> R -> option R.

(** [a <= b] for a computed [a]. *)
Definition at_most (a : option R) (b : R) : bool :=
  match a with
  | Some a => if Rle_dec a b then true else false
  | None => false
  end.

(** [std::abs(value - current_value)]. *)
Definition distance (value current_value : R) : option R :=
  Rabs <$> Real_minus value current_value.

Definition list_of_values_is_empty : string :=
  "Error: list_of_values is empty."%string.

(** One turn of the loop of [get_closest_value], on
    [(min_distance, closest_val)]. *)
Definition closer (value : R) (best : R * R) (current_value : R) : R * R :=
  match distance value current_value with
  | Some distance =>
      if Rlt_dec distance (fst best) then (distance, current_value) else best
  | None => best
  end.

(** [get_closest_value(value, list_of_values)]. *)
Definition get_closest_value (value : R) (list_of_values : list R) : or_error R :=
  match list_of_values with
  | [] => Raised list_of_values_is_empty
  | _ => Returned (snd (foldl (closer value) (Real_max, 0) list_of_values))
  end.

(** [std::abs(value - closest_value) / std::abs(value)]. *)
Definition rel_error (value closest_value : R) : option R :=
  d ← distance value closest_value; Real_divide d (Rabs value).

(** [is_value_in_list(value, list_of_values, tol)]. *)
Definition is_value_in_list (value : R) (list_of_values : list R) (tol : R)
    : or_error bool :=
  match get_closest_value value list_of_values with
  | Raised msg => Raised msg
  | Returned closest_value =>
      if at_most (rel_error value closest_value) tol then Returned true
      else Returned (at_most (distance value closest_value) tol)
  end.

(** A computed distance that is not below [bound], and one that is
    above it. *)
Definition not_below (bound : R) (d : option R) : Prop :=
  match d with Some d => bound <= d | None => True end.

Definition above (bound : R) (d : option R) : Prop :=
  match d with Some d => bound < d | None => True end.

(** [closest_val] is the first value of [l] at the least computed distance
    [d] from [value]. *)
Definition first_nearest (value : R) (l : list R) (closest_val d : R) : Prop :=
  distance value closest_val = Some d /\
  exists before after,
    l = before ++ closest_val :: after /\
    (forall x, x ∈ before -> above d (distance value x)) /\
    (forall x, x ∈ after -> not_below d (distance value x)).

(** [value] is within [tol] of [x], by the computed distance or by the
    computed relative error. *)
Definition within (value tol x : R) : Prop :=
  at_most (distance value x) tol = true \/
  at_most (rel_error value x) tol = true.

(** What the loop has after the values [seen]: nothing below [Real_max]
    yet, or the first nearest value of [seen] and its distance. *)
Definition best_of (value : R) (seen : list R) (best : R * R) : Prop :=
  (best = (Real_max, 0) /\
   forall x, x ∈ seen -> not_below Real_max (distance value x)) \/
  (fst best < Real_max /\ first_nearest value seen (snd best) (fst best)).

Lemma closer_best_of value seen best y :
  best_of value seen best ->
  best_of value (seen ++ [y]) (closer value best y).
Proof.
  unfold closer.
  intros [[-> Hfar]|(Hlt & Hd & b & a & -> & Hb & Ha)]; cbn [fst].
  - destruct (distance value y) as [dy|] eqn:Hy.
    + destruct (Rlt_dec dy Real_max) as [Hlt|Hge].
      * right. cbn [fst snd]. split; [assumption|]. split; [assumption|].
        exists seen, []. split; [reflexivity|]. split.
        -- intros x Hx. specialize (Hfar x Hx). unfold above, not_below in *.
           destruct (distance value x); [lra|exact I].
        -- intros x Hx. inversion Hx.
      * left. split; [reflexivity|]. intros x Hx.
        apply elem_of_app in Hx as [Hx|Hx]; [now apply Hfar|].
        apply list_elem_of_singleton in Hx as ->. rewrite Hy. cbn. lra.
    + left. split; [reflexivity|]. intros x Hx.
      apply elem_of_app in Hx as [Hx|Hx]; [now apply Hfar|].
      apply list_elem_of_singleton in Hx as ->. now rewrite Hy.
  - destruct best as [d c]. cbn [fst snd] in *.
    destruct (distance value y) as [dy|] eqn:Hy.
    + destruct (Rlt_dec dy d) as [Hless|Hge].
      * right. cbn [fst snd]. split; [lra|]. split; [assumption|].
        exists (b ++ c :: a), []. split; [reflexivity|]. split.
        -- intros x Hx. apply elem_of_app in Hx as [Hx|Hx].
           ++ specialize (Hb x Hx). unfold above in *.
              destruct (distance value x); [lra|exact I].
           ++ apply elem_of_cons in Hx as [->|Hx].
              ** rewrite Hd. cbn. exact Hless.
              ** specialize (Ha x Hx). unfold above, not_below in *.
                 destruct (distance value x); [lra|exact I].
        -- intros x Hx. inversion Hx.
      * right. cbn [fst snd]. split; [assumption|]. split; [assumption|].
        exists b, (a ++ [y]). split; [now rewrite <- app_assoc|].
        split; [assumption|]. intros x Hx.
        apply elem_of_app in Hx as [Hx|Hx]; [now apply Ha|].
        apply list_elem_of_singleton in Hx as ->. rewrite Hy. cbn. lra.
    + right. cbn [fst snd]. split; [assumption|]. split; [assumption|].
      exists b, (a ++ [y]). split; [now rewrite <- app_assoc|].
      split; [assumption|]. intros x Hx.
      apply elem_of_app in Hx as [Hx|Hx]; [now apply Ha|].
      apply list_elem_of_singleton in Hx as ->. now rewrite Hy.
Qed.

Lemma foldl_best_of value l : forall seen best,
  best_of value seen best ->
  best_of value (seen ++ l) (foldl (closer value) best l).
Proof.
  induction l as [|y l IH]; intros seen best H; cbn [foldl].
  - now rewrite app_nil_r.
  - replace (seen ++ y :: l) with ((seen ++ [y]) ++ l)
      by now rewrite <- app_assoc.
    apply IH. now apply closer_best_of.
Qed.

Lemma loop_best_of value l :
  best_of value l (foldl (closer value) (Real_max, 0) l).
Proof.
  apply (foldl_best_of value l []). left. split; [reflexivity|].
  intros x Hx. inversion Hx.
Qed.

Lemma first_nearest_spec value l c d :
  first_nearest value l c d ->
  c ∈ l /\ forall x, x ∈ l -> not_below d (distance value x).
Proof.
  intros (Hd & b & a & -> & Hb & Ha). split.
  - apply elem_of_app. right. left.
  - intros x Hx. apply elem_of_app in Hx as [Hx|Hx].
    + specialize (Hb x Hx). unfold above, not_below in *.
      destruct (distance value x); [lra|exact I].
    + apply elem_of_cons in Hx as [->|Hx]; [|now apply Ha].
      rewrite Hd. cbn. lra.
Qed.

Lemma get_closest_value_returns value l :
  (exists x d, x ∈ l /\ distance value x = Some d /\ d < Real_max) ->
  exists c d, get_closest_value value l = Returned c /\ d < Real_max /\
              first_nearest value l c d.
Proof.
  intros (x & d & Hx & Hd & Hlt). unfold get_closest_value.
  destruct l as [|y l]; [inversion Hx|].
  eexists _, _. split; [reflexivity|].
  destruct (loop_best_of value (y :: l)) as [[_ Hfar]|H]; [|exact H].
  specialize (Hfar x Hx). rewrite Hd in Hfar. cbn in Hfar. lra.
Qed.

Lemma at_most_Some a b : at_most (Some a) b = true <-> a <= b.
Proof. cbn. destruct (Rle_dec a b); split; auto; discriminate. Qed.

(** X14.  [get_closest_value] returns the value of the list whose computed
    distance [std::abs(value - current_value)] from [value] is least, and
    among several at that distance the first one in the list, as soon as
    some value of the list is at a computed distance below
    [std::numeric_limits<Real>::max()]. *)
Theorem get_closest_value_first_nearest (value : R) (l : list R) :
  (exists x d, x ∈ l /\ distance value x = Some d /\ d < Real_max) ->
  exists c d, get_closest_value value l = Returned c /\
    first_nearest value l c d /\ c ∈ l /\
    forall x, x ∈ l -> not_below d (distance value x).
Proof.
  intros H. apply get_closest_value_returns in H as (c & d & Hc & _ & Hn).
  exists c, d. split; [assumption|]. split; [assumption|].
  now apply first_nearest_spec.
Qed.

(** The quotient the machine computes does not grow when the dividend
    shrinks: the division is rounded monotonically. *)
Definition divides_monotonically : Prop :=
  forall a b v q, 0 <= a <= b -> 0 <= v -> Real_divide b v = Some q ->
    exists q', Real_divide a v = Some q' /\ q' <= q.

(** X15.  [is_value_in_list] raises "Error: list_of_values is empty." on
    the empty list and nothing else.  On a list whose values are all at
    computed distances below [std::numeric_limits<Real>::max()] from
    [value], it returns true exactly when some value of the list is within
    [tol] of [value], by the computed distance or by the computed relative
    error; so it returns true for a value of the list and a [tol] that is
    not negative. *)
Theorem is_value_in_list_within_tolerance (value : R) (l : list R) (tol : R) :
  divides_monotonically ->
  (forall x, x ∈ l -> exists d, distance value x = Some d /\ d < Real_max) ->
  (forall msg, is_value_in_list value l tol = Raised msg <->
     l = [] /\ msg = list_of_values_is_empty) /\
  (is_value_in_list value l tol = Returned true <->
     exists x, x ∈ l /\ within value tol x) /\
  (value ∈ l -> Real_minus value value = Some 0 -> 0 <= tol ->
   is_value_in_list value l tol = Returned true).
Proof.
  intros Hmono Hmax.
  assert (is_value_in_list value l tol = Returned true <->
          exists x, x ∈ l /\ within value tol x) as Hiff.
  { destruct l as [|y l].
    - split; [discriminate|]. intros (x & Hx & _). inversion Hx.
    - destruct (get_closest_value_returns value (y :: l))
        as (c & d & Hc & _ & Hn).
      { destruct (Hmax y) as (dy & Hy & Hlt); [left|]. exists y, dy.
        split; [left|auto]. }
      unfold is_value_in_list. rewrite Hc.
      pose proof Hn as [Hd _]. apply first_nearest_spec in Hn as [Hin Hle].
      split.
      + intros H. exists c. split; [assumption|]. unfold within.
        destruct (at_most (rel_error value c) tol); [now right|].
        left. congruence.
      + intros (x & Hx & Hw). specialize (Hle x Hx).
        destruct (Hmax x Hx) as (dx & Hdx & _). rewrite Hdx in Hle. cbn in Hle.
        assert (0 <= d) as Hd0.
        { unfold distance in Hd. destruct (Real_minus value c); [|discriminate].
          injection Hd as <-. apply Rabs_pos. }
        destruct Hw as [Hw|Hw].
        * rewrite Hdx in Hw. apply at_most_Some in Hw.
          destruct (at_most (rel_error value c) tol); [reflexivity|].
          f_equal. rewrite Hd. apply at_most_Some. lra.
        * unfold rel_error in Hw. rewrite Hdx in Hw. cbn in Hw.
          destruct (Real_divide dx (Rabs value)) as [q|] eqn:Hq;
            [|discriminate].
          apply at_most_Some in Hw.
          destruct (Hmono d dx (Rabs value) q) as (q' & Hq' & Hle');
            [lra|apply Rabs_pos|exact Hq|].
          unfold rel_error. rewrite Hd. cbn. rewrite Hq'.
          replace (at_most (Some q') tol) with true; [reflexivity|].
          symmetry. apply at_most_Some. lra. }
  split; [|split; [exact Hiff|]].
  - intros msg. unfold is_value_in_list, get_closest_value.
    destruct l as [|y l].
    + split; [intros [= <-]; auto|]. now intros [_ ->].
    + destruct (at_most _ _); split; try discriminate; now intros [? _].
  - intros Hin Hzero Htol. apply Hiff. exists value. split; [assumption|].
    left. unfold distance. rewrite Hzero. cbn. rewrite Rabs_R0.
    now apply at_most_Some.
Qed.

End ClosestValue.

(** Arithmetic without rounding, for the values it is exact on. *)
Definition exact_minus (a b : R) : option R := Some (a - b).

Definition exact_divide (a b : R) : option R :=
  if Req_dec_T b 0 then None else Some (a / b).

Lemma exact_divides_monotonically : divides_monotonically exact_divide.
Proof.
  intros a b v q Hab Hv. unfold exact_divide.
  destruct (Req_dec_T v 0); [discriminate|]. intros [= <-].
  eexists. split; [reflexivity|]. unfold Rdiv.
  apply Rmult_le_compat_r; [|lra]. left. apply Rinv_0_lt_compat. lra.
Qed.

Lemma near_5 (x : R) :
  x ∈ [1; 4; 6] ->
  exists d, distance exact_minus 5 x = Some d /\ d < 1000.
Proof.
  intros H. eexists. split; [reflexivity|]. apply Rabs_def1;
    repeat (apply elem_of_cons in H as [->|H]; [lra|]); inversion H.
Qed.

Lemma get_closest_value_first_nearest_witness :
  exists c d, get_closest_value 1000 exact_minus 5 [1; 4; 6] = Returned c /\
    first_nearest exact_minus 5 [1; 4; 6] c d /\ c ∈ [1; 4; 6] /\
    forall x, x ∈ [1; 4; 6] -> not_below d (distance exact_minus 5 x).
Proof.
  apply get_closest_value_first_nearest.
  destruct (near_5 4) as (d & Hd & Hlt); [right; left|].
  exists 4, d. split; [right; left|]. split; assumption.
Defined.

Lemma is_value_in_list_within_tolerance_witness :
  (forall msg,
     is_value_in_list 1000 exact_minus exact_divide 5 [1; 4; 6] 1 = Raised msg <->
     [1; 4; 6] = [] /\ msg = list_of_values_is_empty) /\
  (is_value_in_list 1000 exact_minus exact_divide 5 [1; 4; 6] 1 = Returned true <->
     exists x, x ∈ [1; 4; 6] /\ within exact_minus exact_divide 5 1 x) /\
  (5 ∈ [1; 4; 6] -> exact_minus 5 5 = Some 0 -> 0 <= 1 ->
   is_value_in_list 1000 exact_minus exact_divide 5 [1; 4; 6] 1 = Returned true).
Proof.
  apply is_value_in_list_within_tolerance;
    [exact exact_divides_monotonically|exact near_5].
Defined.

End RBParametrized.

(* ===================================================================== *)
(** * DTKSolutionTransfer *)
(* ===================================================================== *)

(** [DTKSolutionTransfer::transfer] (src/unnamed/part_002, lines 59-103)
    and the two caches it fills, [adapters] and [dtk_maps].  An
    [EquationSystems *] is a number; the objects of DataTransferKit are
    what they were built from; the calls made on them are kept in a log.
    A pointer that may be null is an [option]. *)

Module DTKSolutionTransfer.

(** A variable of a system: its [EquationSystems] and its name. *)
Record Var := { var_es : nat; var_name : string }.

(** [DTKAdapter(comm_default, es)]. *)
Record DTKAdapter := { adapter_es : nat }.

(** [shared_domain_map_type(comm_default, dimension, true)] after
    [setup(source->get_mesh_manager(), target->get_target_coords(), tol)]. *)
Record SharedDomainMap := {
  dimension : nat;
  source : option DTKAdapter;
  target : option DTKAdapter
}.

Inductive Event :=
| adapter_made (es : nat)
| map_set_up (from_es to_es : nat)
| applied (map : SharedDomainMap) (from_adapter to_adapter : option DTKAdapter)
          (from_name to_name : string)
| warned (from_name to_name : string)
| values_updated (to_adapter : option DTKAdapter) (to_name : string).

Record Caches := {
  adapters : gmap nat DTKAdapter;
  dtk_maps : gmap (nat * nat) SharedDomainMap;
  events : list Event
}.

Definition no_caches : Caches := {| adapters := ∅; dtk_maps := ∅; events := [] |}.

Definition log_event (e : Event) (st : Caches) : Caches :=
  {| adapters := adapters st; dtk_maps := dtk_maps st;
     events := events st ++ [e] |}.

Definition dimensions_differ : string := "Assertion failed"%string.

Section Transfer.

(** [es->get_mesh().mesh_dimension()]. *)
Variable mesh_dimension : nat -> nat.

(** Whether [getMissedTargetPoints()] is not empty after an [apply]. *)
Variable missed_target_points : SharedDomainMap -> string -> string -> bool.

(** Lines 68-74: possibly make an adapter for [es]. *)
Definition possibly_make_adapter (es : nat) (st : Caches) : Caches :=
  match adapters st !! es with
  | Some _ => st
  | None =>
      log_event (adapter_made es)
          {| adapters := <[es := {| adapter_es := es |}]> (adapters st);
             dtk_maps := dtk_maps st; events := events st |}
  end.

(** Lines 79-92: the map of the pair, made and set up if the pair is
    new; the assertion of line 86 is checked. *)
Definition emplace_map (from_es to_es : nat)
    (from_adapter to_adapter : option DTKAdapter) (st : Caches)
  : or_error (SharedDomainMap * Caches) :=
  match dtk_maps st !! (from_es, to_es) with
  | Some map => Returned (map, st)
  | None =>
      if (mesh_dimension from_es =? mesh_dimension to_es)%nat then
        let map := {| dimension := mesh_dimension from_es;
                      source := from_adapter; target := to_adapter |} in
        Returned (map,
                  log_event (map_set_up from_es to_es)
                      {| adapters := adapters st;
                         dtk_maps := <[(from_es, to_es) := map]> (dtk_maps st);
                         events := events st |})
      else Raised dimensions_differ
  end.

(** [transfer(from_var, to_var)]. *)
Definition transfer (from_var to_var : Var) (st : Caches) : or_error Caches :=
  let from_es := var_es from_var in
  let to_es := var_es to_var in
  let st := possibly_make_adapter from_es st in
  let st := possibly_make_adapter to_es st in
  let from_adapter := adapters st !! from_es in
  let to_adapter := adapters st !! to_es in
  match emplace_map from_es to_es from_adapter to_adapter st with
  | Raised msg => Raised msg
  | Returned (map, st) =>
      let st := log_event (applied map from_adapter to_adapter
                             (var_name from_var) (var_name to_var)) st in
      let st := if missed_target_points map (var_name from_var) (var_name to_var)
                then log_event (warned (var_name from_var) (var_name to_var)) st else st in
      Returned (log_event (values_updated to_adapter (var_name to_var)) st)
  end.

(** One transfer after the other. *)
Fixpoint transfers (l : list (Var * Var)) (st : Caches) : or_error Caches :=
  match l with
  | [] => Returned st
  | (from_var, to_var) :: l =>
      match transfer from_var to_var st with
      | Raised msg => Raised msg
      | Returned st => transfers l st
      end
  end.

(** ** What the log holds *)

Definition adapters_made (l : list Event) : list nat :=
  omap (fun e => match e with adapter_made es => Some es | _ => None end) l.

Definition maps_set_up (l : list Event) : list (nat * nat) :=
  omap (fun e => match e with
                 | map_set_up from_es to_es => Some (from_es, to_es)
                 | _ => None
                 end) l.

Definition applications (l : list Event)
  : list (SharedDomainMap * option DTKAdapter * option DTKAdapter * string * string) :=
  omap (fun e => match e with
                 | applied map f t from_name to_name =>
                     Some (map, f, t, from_name, to_name)
                 | _ => None
                 end) l.

(** The application a transfer is to make. *)
Definition application_of (t : Var * Var)
  : SharedDomainMap * option DTKAdapter * option DTKAdapter * string * string :=
  let from_es := var_es (fst t) in
  let to_es := var_es (snd t) in
  let from_adapter := Some {| adapter_es := from_es |} in
  let to_adapter := Some {| adapter_es := to_es |} in
  ({| dimension := mesh_dimension from_es;
      source := from_adapter; target := to_adapter |},
   from_adapter, to_adapter, var_name (fst t), var_name (snd t)).

Definition pair_of (t : Var * Var) : nat * nat :=
  (var_es (fst t), var_es (snd t)).

Definition same_dimension (t : Var * Var) : Prop :=
  mesh_dimension (var_es (fst t)) =
  mesh_dimension (var_es (snd t)).

(** The caches hold what the log says was made, once each. *)
Record consistent (st : Caches) : Prop := {
  adapters_logged : forall es,
    adapters st !! es =
    if bool_decide (es ∈ adapters_made (events st))
    then Some {| adapter_es := es |} else None;
  maps_logged : forall p,
    dtk_maps st !! p =
    if bool_decide (p ∈ maps_set_up (events st))
    then Some {| dimension := mesh_dimension p.1;
                 source := Some {| adapter_es := p.1 |};
                 target := Some {| adapter_es := p.2 |} |}
    else None;
  adapters_once : NoDup (adapters_made (events st));
  maps_once : NoDup (maps_set_up (events st));
  maps_same_dimension : forall p,
    p ∈ maps_set_up (events st) -> mesh_dimension p.1 = mesh_dimension p.2
}.


Lemma consistent_no_caches : consistent no_caches.
Proof.
  split; cbn; intros; try apply NoDup_nil_2.
  - now rewrite lookup_empty.
  - now rewrite lookup_empty.
  - now apply elem_of_nil in H.
Qed.

Lemma log_event_quiet e st :
  consistent st ->
  (forall es, e <> adapter_made es) ->
  (forall f t, e <> map_set_up f t) ->
  consistent (log_event e st).
Proof.
  intros [] Ha Hm.
  assert (adapters_made (events st ++ [e]) = adapters_made (events st)) as E1.
  { unfold adapters_made. rewrite omap_app. cbn.
    destruct e; try (now rewrite app_nil_r). now destruct (Ha es). }
  assert (maps_set_up (events st ++ [e]) = maps_set_up (events st)) as E2.
  { unfold maps_set_up. rewrite omap_app. cbn.
    destruct e; try (now rewrite app_nil_r). now destruct (Hm from_es to_es). }
  split; unfold log_event; cbn [events adapters dtk_maps]; rewrite ?E1, ?E2;
    assumption.
Qed.

Lemma possibly_make_adapter_spec es st :
  consistent st ->
  let st' := possibly_make_adapter es st in
  consistent st' /\
  adapters st' !! es = Some {| adapter_es := es |} /\
  (forall es', es' ∈ adapters_made (events st') <->
               es' ∈ adapters_made (events st) \/ es' = es) /\
  maps_set_up (events st') = maps_set_up (events st) /\
  applications (events st') = applications (events st).
Proof.
  intros Hc. unfold possibly_make_adapter.
  pose proof (adapters_logged st Hc es) as Hes.
  destruct (adapters st !! es) as [a|] eqn:Ha; cbn zeta.
  - case_bool_decide as Hin; [|discriminate].
    split; [assumption|]. split; [now rewrite Ha|].
    split; [|split; reflexivity].
    intros es'. split; [now left|]. now intros [?| ->].
  - case_bool_decide as Hin; [discriminate|].
    assert (adapters_made (events st ++ [adapter_made es]) =
            adapters_made (events st) ++ [es]) as E1
      by (unfold adapters_made; now rewrite omap_app).
    assert (maps_set_up (events st ++ [adapter_made es]) = maps_set_up (events st))
      as E2 by (unfold maps_set_up; rewrite omap_app; cbn; now rewrite app_nil_r).
    split; [|split; [|split; [|split]]]; unfold log_event;
      cbn [events adapters dtk_maps].
    + destruct Hc. split; cbn [events adapters dtk_maps]; rewrite ?E1, ?E2;
        try assumption.
      * intros es'. destruct (decide (es' = es)) as [->|Hne].
        -- rewrite lookup_insert_eq. rewrite bool_decide_eq_true_2; [reflexivity|].
           apply elem_of_app. right. left.
        -- rewrite lookup_insert_ne by congruence. rewrite adapters_logged0.
           rewrite (bool_decide_ext (es' ∈ adapters_made (events st) ++ [es])
                                    (es' ∈ adapters_made (events st)));
             [reflexivity|].
           rewrite elem_of_app, list_elem_of_singleton. tauto.
      * apply NoDup_app. split; [assumption|]. split; [|apply NoDup_singleton].
        intros x Hx Hx'. apply list_elem_of_singleton in Hx'. now subst.
    + now rewrite lookup_insert_eq.
    + intros es'. rewrite E1, elem_of_app, list_elem_of_singleton. tauto.
    + exact E2.
    + unfold applications. rewrite omap_app. cbn. now rewrite app_nil_r.
Qed.


(** The map of the pair [(from_es, to_es)]. *)
Definition map_of (from_es to_es : nat) : SharedDomainMap :=
  {| dimension := mesh_dimension from_es;
     source := Some {| adapter_es := from_es |};
     target := Some {| adapter_es := to_es |} |}.

Lemma emplace_map_spec f t st :
  consistent st ->
  adapters st !! f = Some {| adapter_es := f |} ->
  adapters st !! t = Some {| adapter_es := t |} ->
  (mesh_dimension f = mesh_dimension t /\
   exists st',
     emplace_map f t (adapters st !! f) (adapters st !! t) st
       = Returned (map_of f t, st') /\
     consistent st' /\
     adapters st' = adapters st /\
     adapters_made (events st') = adapters_made (events st) /\
     (forall p, p ∈ maps_set_up (events st') <->
                p ∈ maps_set_up (events st) \/ p = (f, t)) /\
     applications (events st') = applications (events st)) \/
  (mesh_dimension f <> mesh_dimension t /\
   emplace_map f t (adapters st !! f) (adapters st !! t) st
     = Raised dimensions_differ).
Proof.
  intros Hc Hf Ht. unfold emplace_map. rewrite Hf, Ht.
  pose proof (maps_logged st Hc (f, t)) as Hp.
  destruct (dtk_maps st !! (f, t)) as [m|] eqn:Hm.
  - case_bool_decide as Hin; [|discriminate]. injection Hp as ->.
    left. split; [exact (maps_same_dimension st Hc (f, t) Hin)|].
    exists st. split; [reflexivity|]. split; [assumption|].
    do 2 (split; [reflexivity|]). split; [|reflexivity].
    intros p. split; [now left|]. now intros [?| ->].
  - case_bool_decide as Hin; [discriminate|].
    destruct (Nat.eqb_spec (mesh_dimension f) (mesh_dimension t)) as [Hd|Hd];
      [left|right; now split].
    split; [assumption|]. eexists. split; [reflexivity|].
    assert (adapters_made (events st ++ [map_set_up f t]) =
            adapters_made (events st)) as E1
      by (unfold adapters_made; rewrite omap_app; cbn; now rewrite app_nil_r).
    assert (maps_set_up (events st ++ [map_set_up f t]) =
            maps_set_up (events st) ++ [(f, t)]) as E2
      by (unfold maps_set_up; now rewrite omap_app).
    unfold log_event; cbn [events adapters dtk_maps].
    split; [|split; [reflexivity|split; [exact E1|split]]].
    + destruct Hc. split; cbn [events adapters dtk_maps]; rewrite ?E1, ?E2;
        try assumption.
      * intros p. destruct (decide (p = (f, t))) as [->|Hne].
        -- rewrite lookup_insert_eq. rewrite bool_decide_eq_true_2; [reflexivity|].
           apply elem_of_app. right. left.
        -- rewrite lookup_insert_ne by congruence. rewrite maps_logged0.
           rewrite (bool_decide_ext (p ∈ maps_set_up (events st) ++ [(f, t)])
                                    (p ∈ maps_set_up (events st)));
             [reflexivity|].
           rewrite elem_of_app, list_elem_of_singleton. tauto.
      * apply NoDup_app. split; [assumption|]. split; [|apply NoDup_singleton].
        intros x Hx Hx'. apply list_elem_of_singleton in Hx'. now subst.
      * intros p Hp'. apply elem_of_app in Hp' as [Hp'|Hp'];
          [now apply maps_same_dimension0|].
        apply list_elem_of_singleton in Hp' as ->. exact Hd.
    + intros p. rewrite E2, elem_of_app, list_elem_of_singleton. tauto.
    + unfold applications. rewrite omap_app. cbn. now rewrite app_nil_r.
Qed.

Lemma log_event_applications e st :
  (forall m f t a b, e <> applied m f t a b) ->
  applications (events (log_event e st)) = applications (events st).
Proof.
  intros H. unfold applications, log_event. cbn [events]. rewrite omap_app.
  destruct e; cbn; try now rewrite app_nil_r.
  now destruct (H map from_adapter to_adapter from_name to_name).
Qed.

Lemma log_event_made e st :
  (forall es, e <> adapter_made es) ->
  adapters_made (events (log_event e st)) = adapters_made (events st).
Proof.
  intros H. unfold adapters_made, log_event. cbn [events]. rewrite omap_app.
  destruct e; cbn; try now rewrite app_nil_r. now destruct (H es).
Qed.

Lemma log_event_set_up e st :
  (forall f t, e <> map_set_up f t) ->
  maps_set_up (events (log_event e st)) = maps_set_up (events st).
Proof.
  intros H. unfold maps_set_up, log_event. cbn [events]. rewrite omap_app.
  destruct e; cbn; try now rewrite app_nil_r. now destruct (H from_es to_es).
Qed.

Lemma transfer_spec from_var to_var st :
  consistent st ->
  (same_dimension (from_var, to_var) /\
   exists st',
     transfer from_var to_var st = Returned st' /\
     consistent st' /\
     (forall es, es ∈ adapters_made (events st') <->
                 es ∈ adapters_made (events st) \/
                 es = var_es from_var \/ es = var_es to_var) /\
     (forall p, p ∈ maps_set_up (events st') <->
                p ∈ maps_set_up (events st) \/ p = pair_of (from_var, to_var)) /\
     applications (events st') =
       applications (events st) ++ [application_of (from_var, to_var)]) \/
  (~ same_dimension (from_var, to_var) /\
   transfer from_var to_var st = Raised dimensions_differ).
Proof.
  intros Hc. unfold transfer, same_dimension, pair_of. cbn [fst snd].
  set (f := var_es from_var). set (t := var_es to_var).
  destruct (possibly_make_adapter_spec f st Hc) as (Hc1 & Hf1 & Hm1 & Hs1 & Ha1).
  set (st1 := possibly_make_adapter f st) in *.
  destruct (possibly_make_adapter_spec t st1 Hc1) as (Hc2 & Ht2 & Hm2 & Hs2 & Ha2).
  set (st2 := possibly_make_adapter t st1) in *.
  assert (adapters st2 !! f = Some {| adapter_es := f |}) as Hf2.
  { rewrite (adapters_logged st2 Hc2 f). rewrite bool_decide_eq_true_2; [reflexivity|].
    apply Hm2. left. apply Hm1. now right. }
  destruct (emplace_map_spec f t st2 Hc2 Hf2 Ht2)
    as [(Hd & st3 & -> & Hc3 & Had3 & Hm3 & Hs3 & Ha3)|(Hd & ->)];
    [left|right; now split].
  split; [assumption|]. eexists. split; [reflexivity|].
  rewrite Hf2, Ht2.
  set (a := applied _ _ _ _ _). set (u := values_updated _ _).
  set (w := warned _ _).
  assert (consistent (log_event a st3)) as Hc4
    by (apply log_event_quiet; [assumption|discriminate|discriminate]).
  set (st5 := if missed_target_points _ _ _ then _ else _).
  assert (consistent st5 /\
          adapters_made (events st5) = adapters_made (events st3) /\
          maps_set_up (events st5) = maps_set_up (events st3) /\
          applications (events st5) = applications (events st3) ++ [application_of (from_var, to_var)])
    as (Hc5 & Hm5 & Hs5 & Ha5).
  { assert (applications (events (log_event a st3)) =
            applications (events st3) ++ [application_of (from_var, to_var)]) as E
      by (unfold applications, log_event; cbn [events]; now rewrite omap_app).
    subst st5. destruct (missed_target_points _ _ _).
    - split; [apply log_event_quiet; [assumption|discriminate|discriminate]|].
      rewrite !log_event_made, !log_event_set_up, log_event_applications
        by discriminate. auto.
    - rewrite !log_event_made, !log_event_set_up by discriminate. auto. }
  split; [apply log_event_quiet; [assumption|discriminate|discriminate]|].
  rewrite log_event_made, log_event_set_up, log_event_applications by discriminate.
  rewrite Hm5, Hs5, Ha5, Hm3, Ha3, Ha2, Ha1.
  split; [|split; [|reflexivity]].
  - intros es. rewrite Hm2, Hm1. tauto.
  - intros p. rewrite Hs3, Hs2, Hs1. tauto.
Qed.

Lemma transfers_spec l : forall st,
  consistent st ->
  (Forall same_dimension l /\
   exists st',
     transfers l st = Returned st' /\
     consistent st' /\
     (forall es, es ∈ adapters_made (events st') <->
                 es ∈ adapters_made (events st) \/
                 exists t, t ∈ l /\ (es = var_es (fst t) \/ es = var_es (snd t))) /\
     (forall p, p ∈ maps_set_up (events st') <->
                p ∈ maps_set_up (events st) \/ exists t, t ∈ l /\ p = pair_of t) /\
     applications (events st') =
       applications (events st) ++ map application_of l) \/
  (~ Forall same_dimension l /\ transfers l st = Raised dimensions_differ).
Proof.
  induction l as [|[from_var to_var] l IH]; intros st Hc; cbn [transfers].
  - left. split; [constructor|]. exists st. split; [reflexivity|].
    split; [assumption|]. split; [|split].
    + intros es. split; [now left|]. intros [?|(t & Ht & _)]; [assumption|].
      now apply elem_of_nil in Ht.
    + intros p. split; [now left|]. intros [?|(t & Ht & _)]; [assumption|].
      now apply elem_of_nil in Ht.
    + cbn. now rewrite app_nil_r.
  - destruct (transfer_spec from_var to_var st Hc)
      as [(Hd & st1 & -> & Hc1 & Hm1 & Hs1 & Ha1)|(Hd & ->)].
    + destruct (IH st1 Hc1) as [(Hl & st2 & -> & Hc2 & Hm2 & Hs2 & Ha2)|(Hl & ->)].
      * left. split; [now constructor|]. exists st2. split; [reflexivity|].
        split; [assumption|]. split; [|split].
        -- intros es. rewrite Hm2, Hm1. split.
           ++ intros [[?|H]|(t & Ht & H)]; [now left| |].
              ** right. exists (from_var, to_var). split; [left|exact H].
              ** right. exists t. split; [now right|exact H].
           ++ intros [?|(t & Ht & H)]; [now left; left|].
              apply elem_of_cons in Ht as [->|Ht]; [left; now right|].
              right. now exists t.
        -- intros p. rewrite Hs2, Hs1. split.
           ++ intros [[?|H]|(t & Ht & H)]; [now left| |].
              ** right. exists (from_var, to_var). split; [left|exact H].
              ** right. exists t. split; [now right|exact H].
           ++ intros [?|(t & Ht & H)]; [now left; left|].
              apply elem_of_cons in Ht as [->|Ht]; [left; now right|].
              right. now exists t.
        -- rewrite Ha2, Ha1. cbn [map]. now rewrite <- app_assoc.
      * right. split; [|reflexivity]. intros H. apply Hl.
        now apply Forall_cons in H as [_ H].
    + right. split; [|reflexivity]. intros H. apply Hd.
      now apply Forall_cons in H as [H _].
Qed.

(** X18.  Whatever transfers are made, in whatever order, an adapter is
    made once for every [EquationSystems] that takes part and a map is
    made and set up once for every ordered pair of them, however often the
    pair comes back; and every transfer applies the map of its own pair,
    built with the mesh dimension of the source and on the adapters of the
    two [EquationSystems], none of which is a null pointer. *)
Theorem caches_built_once (l : list (Var * Var)) (st : Caches) :
  transfers l no_caches = Returned st ->
  NoDup (adapters_made (events st)) /\
  NoDup (maps_set_up (events st)) /\
  (forall es, es ∈ adapters_made (events st) <->
     exists t, t ∈ l /\ (es = var_es (fst t) \/ es = var_es (snd t))) /\
  (forall p, p ∈ maps_set_up (events st) <-> exists t, t ∈ l /\ p = pair_of t) /\
  applications (events st) = map application_of l.
Proof.
  intros H.
  destruct (transfers_spec l no_caches consistent_no_caches)
    as [(_ & st' & H' & Hc & Hm & Hs & Ha)|(_ & H')]; [|congruence].
  assert (st' = st) as -> by congruence.
  split; [apply (adapters_once st Hc)|]. split; [apply (maps_once st Hc)|].
  split; [|split].
  - intros es. rewrite Hm. cbn. rewrite elem_of_nil. tauto.
  - intros p. rewrite Hs. cbn. rewrite elem_of_nil. tauto.
  - exact Ha.
Qed.

(** X19.  A sequence of transfers fails exactly when one of them is
    between meshes of different dimensions, with the failed assertion of
    line 86; a pair that has its map is not checked again, and need not
    be. *)
Theorem transfers_fail_on_dimensions (l : list (Var * Var)) :
  (Forall same_dimension l <-> exists st, transfers l no_caches = Returned st) /\
  (~ Forall same_dimension l <->
   transfers l no_caches = Raised dimensions_differ) /\
  (forall msg, transfers l no_caches = Raised msg -> msg = dimensions_differ).
Proof.
  destruct (transfers_spec l no_caches consistent_no_caches)
    as [(Hl & st' & H' & _)|(Hl & H')]; rewrite H'.
  - split; [|split].
    + split; [now exists st'|auto].
    + split; [contradiction|discriminate].
    + discriminate.
  - split; [|split].
    + split; [contradiction|]. now intros [? ?].
    + tauto.
    + now intros msg [= <-].
Qed.

End Transfer.
(** Three transfers between two [EquationSystems], 1 and 2, on meshes of
    dimension 2: two from 1 to 2 and one back. *)
Definition sample_transfers : list (Var * Var) :=
  [({| var_es := 1; var_name := "u" |}, {| var_es := 2; var_name := "v" |});
   ({| var_es := 1; var_name := "w" |}, {| var_es := 2; var_name := "v" |});
   ({| var_es := 2; var_name := "v" |}, {| var_es := 1; var_name := "u" |})].

Lemma caches_built_once_witness :
  exists st,
    transfers (fun _ => 2) (fun _ _ _ => false) sample_transfers no_caches
      = Returned st /\
    adapters_made (events st) = [1; 2] /\
    maps_set_up (events st) = [(1, 2); (2, 1)] /\
    NoDup (adapters_made (events st)) /\
    NoDup (maps_set_up (events st)) /\
    (forall es, es ∈ adapters_made (events st) <->
       exists t, t ∈ sample_transfers /\
                 (es = var_es (fst t) \/ es = var_es (snd t))) /\
    (forall p, p ∈ maps_set_up (events st) <->
       exists t, t ∈ sample_transfers /\ p = pair_of t) /\
    applications (events st)
      = map (application_of (fun _ => 2)) sample_transfers.
Proof.
  eexists. split; [vm_compute; reflexivity|].
  split; [vm_compute; reflexivity|]. split; [vm_compute; reflexivity|].
  apply (caches_built_once (fun _ => 2) (fun _ _ _ => false) sample_transfers).
  vm_compute. reflexivity.
Defined.

End DTKSolutionTransfer.

(* ===================================================================== *)
(** * adjoints_ex2: the names of the output files *)
(* ===================================================================== *)

(** [write_output] of examples/adjoints/adjoints_ex2/adjoints_ex2.C (lines
    110-166): the names of the files an adaptive step is written to.  The
    writers, [GMVIO] and [ExodusII_IO], are not modelled. *)

Module AdjointsEx2.
Import Stdlib.Strings.Ascii.
Local Open Scope string_scope.

(** [k] times the fill character before [s]. *)
Fixpoint fill_left (k : nat) (fill : ascii) (s : string) : string :=
  match k with
  | O => s
  | S k => String fill (fill_left k fill s)
  end.

(** [<< std::setw(width) << std::setfill(fill) << std::right << n] for an
    unsigned [n]. *)
Definition setw_setfill_right (width : nat) (fill : ascii) (n : N) : string :=
  let digits := pretty n in
  fill_left (width - String.length digits) fill digits.

(** The arithmetic of [unsigned int] is modulo [2^32]. *)
Definition unsigned_int_modulus : N := 4294967296.

(** Lines 123-129. *)
Definition file_name_gmv (solution_type : string) (a_step : N) : string :=
  solution_type +:+ ".out.gmv." +:+ setw_setfill_right 2 "0"%char a_step.

(** Lines 148-156. *)
Definition file_name_exodus (solution_type : string) (a_step : N) : string :=
  solution_type +:+ ".e" +:+
  (if (0 <? a_step)%N
   then "-s" +:+ setw_setfill_right 3 "0"%char
                                   ((a_step + 1) mod unsigned_int_modulus)%N
   else "").

(** The decimal digits of a positive number do not start with a zero. *)
Lemma pretty_N_go_head x : forall s,
  (0 < x)%N -> exists c rest, pretty_N_go x s = String c rest /\ c <> "0"%char.
Proof.
  induction (N.lt_wf_0 x) as [x _ IH]. intros s Hx.
  rewrite pretty_N_go_step by exact Hx.
  destruct (decide (x `div` 10 = 0)%N) as [Hd|Hd].
  - rewrite Hd, pretty_N_go_0. eexists _, _. split; [reflexivity|].
    assert (x < 10)%N as Hlt by (apply N.div_small_iff in Hd; lia).
    rewrite N.mod_small by exact Hlt. intros Hc.
    apply (pretty_N_char_inj x 0) in Hc; lia.
  - apply IH; [apply N.div_lt; lia|now apply N.neq_0_lt_0].
Qed.

Lemma pretty_N_head (n : N) :
  n <> 0%N -> exists c rest, pretty n = String c rest /\ c <> "0"%char.
Proof.
  intros Hn. unfold pretty, pretty_N.
  destruct (decide (n = 0%N)); [contradiction|].
  apply pretty_N_go_head. lia.
Qed.

Lemma pretty_N_0 : pretty 0%N = "0".
Proof. reflexivity. Qed.

Lemma length_fill_left k fill s :
  String.length (fill_left k fill s) = (k + String.length s)%nat.
Proof. induction k as [|k IH]; cbn; [reflexivity|now rewrite IH]. Qed.

(** Digits behind zeros are digits behind as many zeros only. *)
Lemma fill_left_digits k : forall k' (a b : N),
  fill_left k "0"%char (pretty a) = fill_left k' "0"%char (pretty b) -> a = b.
Proof.
  assert (forall j (a b : N),
            fill_left (S j) "0"%char (pretty b) = pretty a -> False) as Hno.
  { intros j a b H. destruct (decide (a = 0%N)) as [->|Ha].
    - rewrite pretty_N_0 in H. cbn in H. injection H as H.
      destruct j; cbn in H; [|discriminate].
      destruct (decide (b = 0%N)) as [->|Hb]; [discriminate|].
      destruct (pretty_N_head b Hb) as (c & rest & Hb' & _).
      rewrite Hb' in H. discriminate.
    - destruct (pretty_N_head a Ha) as (c & rest & Ha' & Hc).
      rewrite Ha' in H. cbn in H. injection H as H _. congruence. }
  induction k as [|k IH]; intros [|k'] a b H.
  - cbn in H. now apply (inj pretty).
  - exfalso. now apply (Hno k' a b).
  - exfalso. now apply (Hno k b a).
  - cbn in H. injection H as H. now apply (IH k').
Qed.

Lemma setw_setfill_right_inj width (a b : N) :
  setw_setfill_right width "0"%char a = setw_setfill_right width "0"%char b ->
  a = b.
Proof. apply fill_left_digits. Qed.

(** X22.  The files of different adaptive steps have different names:
    for one solution type, [write_output] gives no two steps the same GMV
    file and no two steps the same Exodus file, also beyond the two and
    three digits the names are padded to. *)
Theorem output_files_of_steps_differ (solution_type : string) (a b : N) :
  (a < unsigned_int_modulus)%N -> (b < unsigned_int_modulus)%N ->
  a <> b ->
  file_name_gmv solution_type a <> file_name_gmv solution_type b /\
  file_name_exodus solution_type a <> file_name_exodus solution_type b.
Proof.
  intros Ha Hb Hab. split; intros H.
  - unfold file_name_gmv in H. do 2 apply (inj (String.app _)) in H.
    now apply setw_setfill_right_inj in H.
  - unfold file_name_exodus in H. do 2 apply (inj (String.app _)) in H.
    destruct (N.ltb_spec 0 a), (N.ltb_spec 0 b); try discriminate; [|lia].
    apply (inj (String.app _)) in H. apply setw_setfill_right_inj in H.
    assert (forall n, (0 < n < unsigned_int_modulus)%N ->
              ((n + 1) mod unsigned_int_modulus
               = if decide (n + 1 = unsigned_int_modulus) then 0 else n + 1)%N)
      as Hmod.
    { intros n Hn. case_decide as E.
      - rewrite E. apply N.Div0.mod_same.
      - apply N.mod_small. lia. }
    rewrite !Hmod in H by lia. repeat case_decide; lia.
Qed.

Lemma output_files_of_steps_differ_witness :
  file_name_gmv "primal" 7 = "primal.out.gmv.07" /\
  file_name_exodus "primal" 0 = "primal.e" /\
  file_name_exodus "primal" 7 = "primal.e-s008" /\
  file_name_gmv "primal" 7 <> file_name_gmv "primal" 123 /\
  file_name_exodus "primal" 7 <> file_name_exodus "primal" 123.
Proof.
  split; [reflexivity|]. split; [reflexivity|]. split; [reflexivity|].
  apply output_files_of_steps_differ; unfold unsigned_int_modulus; lia.
Defined.

End AdjointsEx2.
